(** * rlpomdp: the MLP optimizers and the dual-form SVM

    A shallow embedding of [research/ml/neural_networks/optimizer.py] and
    [research/ml/svm.py], and the properties of the specification that are
    settled against it.

    Numbers.  Python floats are idealised as the real numbers [R]: rounding,
    overflow, [nan] and the infinities are outside the model.  The one place
    where the source relies on an infinity, the default [clip_thresh=np.inf],
    has a constructor of its own ([ThreshInf]).  Where a property of the
    specification turns on rounding, the arithmetic of the source on one
    array entry is given a second time in binary64 ([PrimFloat]), as the
    source computes it.

    Arrays.  A 1-D [ndarray] is a [list R], a 2-D one is a list of rows.
    Element-wise binary operations follow numpy's broadcasting rule on every
    axis (equal sizes, or one of them of size one) and raise [ValueError]
    otherwise.  A 2-D array with no rows carries no column count here.

    Exceptions.  Fallible code returns [result]: [Ok] with the value, or
    [Raise] with the Python exception.  *)

From Stdlib Require Import PrimFloat.
From Stdlib Require Import Reals Lra Lia List String Sorted.
From stdpp Require Import base list.
Import ListNotations.
Open Scope R_scope.

(* [x ^ 2] stays folded under [simpl]. *)
#[local] Arguments pow : simpl never.

(** ** Exceptions and the error monad *)

Inductive exn : Type :=
| ValueError (msg : string)
| TypeError (msg : string)
| IndexError
| AttributeError (attr : string)
| NotFittedError
| InvalidRef.
(* [InvalidRef] is no Python exception: it marks a location that is not in
   the store, which no Python program can hold. *)

Inductive result (A : Type) : Type :=
| Ok (a : A)
| Raise (e : exn).
Arguments Ok {A} a.
Arguments Raise {A} e.

Definition bind {A B} (m : result A) (k : A -> result B) : result B :=
  match m with
  | Ok a => k a
  | Raise e => Raise e
  end.

Notation "x <- m ;; k" := (bind m (fun x => k))
  (at level 100, m at next level, right associativity).

Fixpoint mapM {A B} (f : A -> result B) (l : list A) : result (list B) :=
  match l with
  | [] => Ok []
  | a :: l' => b <- f a ;; bs <- mapM f l' ;; Ok (b :: bs)
  end.

Fixpoint map2M {A B C} (f : A -> B -> result C) (u : list A) (v : list B)
  : result (list C) :=
  match u, v with
  | a :: u', b :: v' => c <- f a b ;; cs <- map2M f u' v' ;; Ok (c :: cs)
  | _, _ => Ok []
  end.

(** ** Python and numpy primitives *)

Abbreviation vec := (list R) (only parsing).
Abbreviation matrix := (list (list R)) (only parsing).

(** [x < y] and [x > y] as Python evaluates them, to a boolean. *)
Definition Rltb (x y : R) : bool := if Rlt_dec x y then true else false.
Definition Rgtb (x y : R) : bool := Rltb y x.

(** [seq[i]] for a non-negative index. *)
Definition index {A} (l : list A) (i : nat) : result A :=
  match l !! i with
  | Some a => Ok a
  | None => Raise IndexError
  end.

(** [max((a, b))]: the first of the largest items. *)
Definition py_max (a b : R) : R := if Rltb a b then b else a.

(** [max(a, b, key=abs)]: the first of the items of largest [abs]; the item
    itself is returned, with its sign. *)
Definition py_max_key_abs (a b : R) : R :=
  if Rltb (Rabs a) (Rabs b) then b else a.

(** [a.max()] and [a.min()] over all the entries of an array. *)
Definition np_max (d : list R) : result R :=
  match d with
  | [] => Raise (ValueError "zero-size array to reduction operation maximum")
  | x :: t => Ok (fold_left Rmax t x)
  end.

Definition np_min (d : list R) : result R :=
  match d with
  | [] => Raise (ValueError "zero-size array to reduction operation minimum")
  | x :: t => Ok (fold_left Rmin t x)
  end.

(** numpy broadcasting along one axis. *)
Definition bcast {A B C} (f : A -> B -> result C) (u : list A) (v : list B)
  : result (list C) :=
  if Nat.eqb (length u) (length v) then map2M f u v
  else match u, v with
       | [a], _ => mapM (f a) v
       | _, [b] => mapM (fun a => f a b) u
       | _, _ => Raise (ValueError "operands could not be broadcast together")
       end.

Definition bcast_vec (f : R -> R -> R) : vec -> vec -> result vec :=
  bcast (fun a b => Ok (f a b)).

Definition bcast_mat (f : R -> R -> R) : matrix -> matrix -> result matrix :=
  bcast (bcast_vec f).

(** [k * a] for a scalar [k]. *)
Definition scale_vec (k : R) (v : vec) : vec := map (Rmult k) v.
Definition scale_mat (k : R) (m : matrix) : matrix := map (scale_vec k) m.

(** [np.zeros(n)] and [np.zeros((r, c))]. *)
Definition zeros (n : nat) : vec := repeat 0 n.
Definition zeros2 (r c : nat) : matrix := repeat (zeros c) r.

(** ** The store of arrays

    The optimizers receive arrays by reference and the momentum optimizer
    writes into them, so arrays live in a store and are named by locations.
    Weight-shaped (2-D) and bias-shaped (1-D) arrays have a store each; a new
    array is allocated at the end of its store. *)

Abbreviation loc := nat (only parsing).

Record heap : Type := mk_heap { mats : list matrix; vecs : list vec }.

Definition load_mat (h : heap) (l : loc) : result matrix :=
  match mats h !! l with Some m => Ok m | None => Raise InvalidRef end.

Definition load_vec (h : heap) (l : loc) : result vec :=
  match vecs h !! l with Some v => Ok v | None => Raise InvalidRef end.

Definition store_mat (h : heap) (l : loc) (m : matrix) : heap :=
  mk_heap (<[l := m]> (mats h)) (vecs h).

Definition store_vec (h : heap) (l : loc) (v : vec) : heap :=
  mk_heap (mats h) (<[l := v]> (vecs h)).

Definition alloc_mat (h : heap) (m : matrix) : loc * heap :=
  (length (mats h), mk_heap (mats h ++ [m]) (vecs h)).

Definition alloc_vec (h : heap) (v : vec) : loc * heap :=
  (length (vecs h), mk_heap (mats h) (vecs h ++ [v])).

(** The part of the MLP that the optimizers read: the lists [W] and [b] of
    its per-layer weight and bias arrays. *)
Record MLP : Type := mk_MLP { W : list loc; b : list loc }.

(** [clip_thresh]: a number, or the default [np.inf]. *)
Inductive threshold : Type :=
| Thresh (c : R)
| ThreshInf.

(** [a[a > clip_thresh] = clip_thresh] on the entries of one row.  No entry
    is above [np.inf], so nothing is assigned then. *)
Definition clip_above (t : threshold) (v : vec) : vec :=
  match t with
  | Thresh c => map (fun x => if Rgtb x c then c else x) v
  | ThreshInf => v
  end.

(** [a[a < -1*clip_thresh] = -1*clip_thresh]. *)
Definition clip_below (t : threshold) (v : vec) : vec :=
  match t with
  | Thresh c => map (fun x => if Rltb x (-1 * c) then -1 * c else x) v
  | ThreshInf => v
  end.

(** The two assignments to the array at [l], each reading what is there. *)
Definition clip_mat_inplace (t : threshold) (l : loc) (h : heap) : result heap :=
  m <- load_mat h l ;;
  let h := store_mat h l (map (clip_above t) m) in
  m <- load_mat h l ;;
  Ok (store_mat h l (map (clip_below t) m)).

Definition clip_vec_inplace (t : threshold) (l : loc) (h : heap) : result heap :=
  v <- load_vec h l ;;
  let h := store_vec h l (clip_above t v) in
  v <- load_vec h l ;;
  Ok (store_vec h l (clip_below t v)).

(** [max((grad_max, max(dJdW_i.max(), dJdW_i.min(), key=abs)))], the line
    both optimizers share. *)
Definition update_grad_max (grad_max : R) (dJdW_i : matrix) : result R :=
  hi <- np_max (concat dJdW_i) ;;
  lo <- np_min (concat dJdW_i) ;;
  Ok (py_max grad_max (py_max_key_abs hi lo)).

(** The layer sizes [M = [D] + hidden_layer_sizes + [K]] and the zero arrays
    the constructors allocate, one pair per layer transition
    [(M[i], M[i+1])]. *)
Definition layer_sizes (D K : nat) (hidden_layer_sizes : list nat) : list nat :=
  [D] ++ hidden_layer_sizes ++ [K].

Fixpoint alloc_layers (M : list nat) (h : heap) : list loc * list loc * heap :=
  match M with
  | m0 :: ((m1 :: _) as M') =>
      let '(lW, h) := alloc_mat h (zeros2 m0 m1) in
      let '(lb, h) := alloc_vec h (zeros m1) in
      let '(lWs, lbs, h) := alloc_layers M' h in
      (lW :: lWs, lb :: lbs, h)
  | _ => ([], [], h)
  end.

Module MomentumOptimizer.

Record t : Type := mk {
  lr : R;
  mu : R;
  reg : R;
  clip_thresh : threshold;
  vW_ : list loc;
  vb_ : list loc
}.

(** [__init__]; the defaults are [mu=0], [reg=0], [clip_thresh=np.inf]. *)
Definition init (D K : nat) (hidden_layer_sizes : list nat)
    (lr mu reg : R) (clip_thresh : threshold) (h : heap) : t * heap :=
  let '(vW, vb, h) := alloc_layers (layer_sizes D K hidden_layer_sizes) h in
  (mk lr mu reg clip_thresh vW vb, h).

(** [layer_update(self, mlp, i, dJdW_i, dJdb_i, grad_max)].  The result
    is the returned triple, the optimizer after the call and the store
    after the call; the store that a call leaves when it raises is not
    reported. *)
Definition layer_update (self : t) (mlp : MLP) (i : nat)
    (dJdW_i dJdb_i : loc) (grad_max : R) (h : heap)
  : result (loc * loc * R * t * heap) :=
  W_i <- index (W mlp) i ;;
  b_i <- index (b mlp) i ;;
  (* Clip gradients that are too large *)
  h <- clip_mat_inplace (clip_thresh self) dJdW_i h ;;
  h <- clip_vec_inplace (clip_thresh self) dJdb_i h ;;
  (* Compute max gradient update (for debugging) *)
  gW <- load_mat h dJdW_i ;;
  grad_max <- update_grad_max grad_max gW ;;
  (* Adjust gradients with regularization: new arrays, bound to the
     local names only *)
  Wv <- load_mat h W_i ;;
  gW <- bcast_mat Rminus gW (scale_mat (reg self) Wv) ;;
  gb <- load_vec h dJdb_i ;;
  bv <- load_vec h b_i ;;
  gb <- bcast_vec Rminus gb (scale_vec (reg self) bv) ;;
  (* Update momentums (velocities) *)
  lvW <- index (vW_ self) i ;;
  vW <- load_mat h lvW ;;
  vW <- bcast_mat Rplus (scale_mat (mu self) vW) (scale_mat (lr self) gW) ;;
  let '(w_update, h) := alloc_mat h vW in
  let self := mk (lr self) (mu self) (reg self) (clip_thresh self)
                 (<[i := w_update]> (vW_ self)) (vb_ self) in
  lvb <- index (vb_ self) i ;;
  vb <- load_vec h lvb ;;
  vb <- bcast_vec Rplus (scale_vec (mu self) vb) (scale_vec (lr self) gb) ;;
  let '(b_update, h) := alloc_vec h vb in
  let self := mk (lr self) (mu self) (reg self) (clip_thresh self)
                 (vW_ self) (<[i := b_update]> (vb_ self)) in
  Ok (w_update, b_update, grad_max, self, h).

End MomentumOptimizer.

Module AdaGradOptimizer.

Record t : Type := mk {
  lr : R;
  epsilon : R;
  cW_ : list loc;
  cb_ : list loc
}.

(** [__init__]; the default is [epsilon=1e-8]. *)
Definition init (D K : nat) (hidden_layer_sizes : list nat)
    (lr epsilon : R) (h : heap) : t * heap :=
  let '(cW, cb, h) := alloc_layers (layer_sizes D K hidden_layer_sizes) h in
  (mk lr epsilon cW cb, h).

(** [np.sqrt(c + epsilon)], entry by entry.  [sqrt] is the real square
    root where [c + epsilon] is not negative; the source has [nan] below. *)
Definition sqrt_plus (epsilon : R) (v : vec) : vec :=
  map (fun c => sqrt (c + epsilon)) v.

(** [layer_update(self, mlp, i, dJdW_i, dJdb_i, grad_max)].  [mlp] is not
    read.  Division is the real one where the divisor is not zero; the
    source has [inf] or [nan] there. *)
Definition layer_update (self : t) (mlp : MLP) (i : nat)
    (dJdW_i dJdb_i : loc) (grad_max : R) (h : heap)
  : result (loc * loc * R * t * heap) :=
  (* Compute max gradient update (for debugging) *)
  gW <- load_mat h dJdW_i ;;
  grad_max <- update_grad_max grad_max gW ;;
  (* Update caches *)
  lcW <- index (cW_ self) i ;;
  cW <- load_mat h lcW ;;
  cW <- bcast_mat Rplus cW (map (map (fun x => x ^ 2)) gW) ;;
  let '(lcW, h) := alloc_mat h cW in
  let self := mk (lr self) (epsilon self) (<[i := lcW]> (cW_ self)) (cb_ self) in
  gb <- load_vec h dJdb_i ;;
  lcb <- index (cb_ self) i ;;
  cb <- load_vec h lcb ;;
  cb <- bcast_vec Rplus cb (map (fun x => x ^ 2) gb) ;;
  let '(lcb, h) := alloc_vec h cb in
  let self := mk (lr self) (epsilon self) (cW_ self) (<[i := lcb]> (cb_ self)) in
  (* Compute weight/bias updates using cache, eta, epsilon *)
  gW <- load_mat h dJdW_i ;;
  lcW <- index (cW_ self) i ;;
  cW <- load_mat h lcW ;;
  w <- bcast_mat Rdiv gW (map (sqrt_plus (epsilon self)) cW) ;;
  let '(w_update, h) := alloc_mat h (scale_mat (lr self) w) in
  gb <- load_vec h dJdb_i ;;
  lcb <- index (cb_ self) i ;;
  cb <- load_vec h lcb ;;
  bu <- bcast_vec Rdiv gb (sqrt_plus (epsilon self) cb) ;;
  let '(b_update, h) := alloc_vec h (scale_vec (lr self) bu) in
  Ok (w_update, b_update, grad_max, self, h).

End AdaGradOptimizer.

(** ** Kernels *)

(** A number passed as a keyword argument: an [int] (non-negative here) or a
    [float]. *)
Inductive pynum : Type :=
| PyInt (n : nat)
| PyFloat (r : R).

Definition num_val (x : pynum) : R :=
  match x with
  | PyInt n => INR n
  | PyFloat r => r
  end.

(** [x ** d].  With a [float] exponent: the power of a positive base; for a
    base that is not positive, the integer power when the exponent is a whole
    number ([(-3.0) ** 2.0] is [9.0]).  The source has [nan] for a negative
    base with any other exponent and [inf] for zero to a negative power;
    these are no numbers, and the last two branches say nothing of them. *)
Definition py_pow (x : R) (d : pynum) : R :=
  match d with
  | PyInt n => x ^ n
  | PyFloat r =>
      if Rlt_dec 0 x then Rpower x r
      else if Req_dec_T r (IZR (Int_part r)) then powerRZ x (Int_part r)
      else 0
  end.

(** The instances of the five kernel classes, with their configuration. *)
Inductive Kernel : Type :=
| GaussianKernel (radius : R)
| LinearKernel
| PolynomialKernel (degree : pynum)
| SigmoidKernel
| TanHKernel.

Definition name (k : Kernel) : string :=
  match k with
  | GaussianKernel _ => "gaussian"
  | LinearKernel => "linear"
  | PolynomialKernel _ => "polynomial"
  | SigmoidKernel => "sigmoid"
  | TanHKernel => "tanh"
  end.

(** [**kernel_args]: a dict from keyword to value. *)
Definition kwargs := list (string * pynum).

Definition kw_get (kw : kwargs) (key : string) (default : pynum) : pynum :=
  match List.find (fun p => String.eqb (fst p) key) kw with
  | Some p => snd p
  | None => default
  end.

(** Binding [**kernel_args] to the keyword parameters of an [__init__]. *)
Definition bind_kwargs (params : list string) (kw : kwargs) : result unit :=
  if forallb (fun p => existsb (String.eqb (fst p)) params) kw
  then Ok tt
  else Raise (TypeError "__init__() got an unexpected keyword argument").

Definition GaussianKernel_init (kw : kwargs) : result Kernel :=
  _ <- bind_kwargs ["radius"%string] kw ;;
  let radius := num_val (kw_get kw "radius" (PyFloat 0.5)) in
  if Rle_dec radius 0
  then Raise (ValueError "radius must be greater than zero.")
  else Ok (GaussianKernel radius).

Definition LinearKernel_init (kw : kwargs) : result Kernel :=
  _ <- bind_kwargs [] kw ;;
  Ok LinearKernel.

Definition PolynomialKernel_init (kw : kwargs) : result Kernel :=
  _ <- bind_kwargs ["degree"%string] kw ;;
  Ok (PolynomialKernel (kw_get kw "degree" (PyInt 2))).

Definition SigmoidKernel_init (kw : kwargs) : result Kernel :=
  _ <- bind_kwargs ["radius"%string] kw ;;
  Ok SigmoidKernel.

Definition TanHKernel_init (kw : kwargs) : result Kernel :=
  _ <- bind_kwargs ["radius"%string] kw ;;
  Ok TanHKernel.

Definition KERNEL_MAP : list (string * (kwargs -> result Kernel)) :=
  [ ("gaussian"%string, GaussianKernel_init);
    ("linear"%string, LinearKernel_init);
    ("polynomial"%string, PolynomialKernel_init);
    ("sigmoid"%string, SigmoidKernel_init);
    ("tanh"%string, TanHKernel_init) ].

(** [KERNEL_MAP.get(key)]: the class, or [None]. *)
Definition KERNEL_MAP_get (key : string) : option (kwargs -> result Kernel) :=
  match List.find (fun p => String.eqb (fst p) key) KERNEL_MAP with
  | Some p => Some (snd p)
  | None => None
  end.

(** [a.sum()]. *)
Definition np_sum (v : vec) : R := fold_left Rplus v 0.

(** [xi.dot(xj)] for two 1-D arrays: the sizes must agree. *)
Definition dot (xi xj : vec) : result R :=
  if Nat.eqb (length xi) (length xj)
  then Ok (np_sum (zip_with Rmult xi xj))
  else Raise (ValueError "shapes not aligned").

(** [transform(xi, xj)] on two 1-D arrays. *)
Definition transform (k : Kernel) (xi xj : vec) : result R :=
  match k with
  | GaussianKernel radius =>
      d <- bcast_vec Rminus xi xj ;;
      let norm := sqrt (np_sum (map (fun x => x ^ 2) d)) in
      Ok (exp (- norm ^ 2 / radius ^ 2))
  | LinearKernel => dot xi xj
  | PolynomialKernel degree => d <- dot xi xj ;; Ok (py_pow (1 + d) degree)
  | SigmoidKernel => d <- dot xi xj ;; Ok (1 / (1 + exp (- d)))
  | TanHKernel => d <- dot xi xj ;; Ok (tanh d)
  end.

(** [A.T] is a view of [A]: the array whose columns are the rows of [A]. *)
Record transposed : Type := np_T { columns : matrix }.

(** The rows of a transposed view, for the element-wise operations. *)
Definition rows_of (B : transposed) : matrix :=
  match columns B with
  | [] => []
  | c :: _ => map (fun i => map (fun col => nth i col 0) (columns B))
                  (seq 0 (length c))
  end.

(** [A.dot(B)] for two 2-D arrays, [B] a transposed view: every row of [A]
    against every column of [B]. *)
Definition dot_mat (A : matrix) (B : transposed) : result matrix :=
  mapM (fun a => mapM (fun c => dot a c) (columns B)) A.

(** What [transform] returns on 2-D arguments: a matrix, or (Gaussian) a
    scalar. *)
Inductive gram : Type :=
| GScalar (r : R)
| GMatrix (m : matrix).

(** [transform(A, B)] on a 2-D array and a transposed view. *)
Definition transform_mat (k : Kernel) (A : matrix) (B : transposed) : result gram :=
  match k with
  | GaussianKernel radius =>
      d <- bcast_mat Rminus A (rows_of B) ;;
      let norm := sqrt (np_sum (map (fun x => x ^ 2) (concat d))) in
      Ok (GScalar (exp (- norm ^ 2 / radius ^ 2)))
  | LinearKernel => h <- dot_mat A B ;; Ok (GMatrix h)
  | PolynomialKernel degree =>
      h <- dot_mat A B ;;
      Ok (GMatrix (map (map (fun d => py_pow (1 + d) degree)) h))
  | SigmoidKernel =>
      h <- dot_mat A B ;;
      Ok (GMatrix (map (map (fun d => 1 / (1 + exp (- d)))) h))
  | TanHKernel => h <- dot_mat A B ;; Ok (GMatrix (map (map tanh) h))
  end.

(** [a.dot(H)] for a 1-D [a] and a 2-D [H]: entry [j] is the sum over [i] of
    [a[i] * H[i][j]]. *)
Definition vec_dot_mat (a : vec) (H : matrix) : result vec :=
  if Nat.eqb (length a) (length H)
  then Ok (map (fun j => np_sum (zip_with (fun ai row => ai * nth j row 0) a H))
               (seq 0 (match H with [] => 0%nat | r :: _ => length r end)))
  else Raise (ValueError "shapes not aligned").

(** ** The SVM estimator *)

(** What [SVM.__init__] stores in [self.kernel]: an instance of a kernel
    class, or the callable it was given.  A plain function has neither a
    [name] nor a [transform] attribute. *)
Inductive kernel_value : Type :=
| KernelObj (k : Kernel)
| KernelFun (f : vec -> vec -> R).

(** The estimator: its kernel, and the attributes that [fit] sets (absent
    until then).  [opt_result_] holds the [x] of the optimization result. *)
Record SVM : Type := mk_SVM {
  kernel : kernel_value;
  classes_ : option vec;
  opt_result_ : option vec;
  sup_X_ : option matrix;
  sup_y_ : option vec;
  sup_alphas_ : option vec;
  offset_ : option R
}.

(** Reading an attribute of [self]. *)
Definition attr {A} (a : option A) (attr_name : string) : result A :=
  match a with
  | Some x => Ok x
  | None => Raise (AttributeError attr_name)
  end.

Definition kernel_name (k : kernel_value) : result string :=
  match k with
  | KernelObj k => Ok (name k)
  | KernelFun _ => Raise (AttributeError "name")
  end.

Definition kernel_transform (k : kernel_value) (xi xj : vec) : result R :=
  match k with
  | KernelObj k => transform k xi xj
  | KernelFun _ => Raise (AttributeError "transform")
  end.

Definition kernel_transform_mat (k : kernel_value) (A : matrix) (B : transposed)
  : result gram :=
  match k with
  | KernelObj k => transform_mat k A B
  | KernelFun _ => Raise (AttributeError "transform")
  end.

(** The [kernel] argument of [SVM.__init__]: a string, a callable, or
    anything else. *)
Inductive kernel_arg : Type :=
| KStr (s : string)
| KCallable (f : vec -> vec -> R)
| KOther.

(** Calling what [KERNEL_MAP.get] returned. *)
Definition call_kernel_class (cls : option (kwargs -> result Kernel))
    (kernel_args : kwargs) : result (option kernel_value) :=
  match cls with
  | Some init => k <- init kernel_args ;; Ok (Some (KernelObj k))
  | None => Raise (TypeError "'NoneType' object is not callable")
  end.

(** [SVM.__init__(kernel='linear', **kernel_args)].  The local [kernel] is
    [None] or a kernel value when the second test is reached. *)
Definition SVM_init (kernel : kernel_arg) (kernel_args : kwargs) : result SVM :=
  kernel <- match kernel with
            | KStr s => call_kernel_class (KERNEL_MAP_get s) kernel_args
            | KCallable f => Ok (Some (KernelFun f))
            | KOther => Raise (ValueError "Kernel must be a string or callable.")
            end ;;
  match kernel with
  | None => Raise (ValueError "Invalid kernel. Must be in KERNEL_MAP.keys()")
  | Some k => Ok (mk_SVM k None None None None None None)
  end.

Fixpoint enumerate_from {A} (i : nat) (l : list A) : list (nat * A) :=
  match l with
  | [] => []
  | x :: l' => (i, x) :: enumerate_from (S i) l'
  end.

(** [enumerate(l)]. *)
Definition enumerate {A} (l : list A) : list (nat * A) := enumerate_from 0 l.

(** A [for] loop that updates an accumulator and may raise. *)
Fixpoint foldM {A S} (f : S -> A -> result S) (l : list A) (s : S) : result S :=
  match l with
  | [] => Ok s
  | a :: l' => s' <- f s a ;; foldM f l' s'
  end.

(** [_loss(self, alphas, _X, y)]: the list [terms] only feeds the [verbose]
    printing and is left out. *)
Definition _loss (self : SVM) (alphas : vec) (_X : matrix) (y : vec) : result R :=
  let X := _X in
  let left_sum := np_sum alphas in
  right_sum <-
    foldM (fun right_sum ixi =>
             let '(i, xi) := ixi in
             ai <- index alphas i ;;
             yi <- index y i ;;
             foldM (fun right_sum jxj =>
                      let '(j, xj) := jxj in
                      aj <- index alphas j ;;
                      yj <- index y j ;;
                      k <- kernel_transform (kernel self) xi xj ;;
                      let term := ai * aj * yi * yj * k in
                      Ok (right_sum + term))
                   (enumerate X) right_sum)
          (enumerate X) 0 ;;
  let total_loss := left_sum - 0.5 * right_sum in
  (* Use -1 since we need to minimize *)
  Ok (-1 * total_loss).

(** [_vectorized_loss(self, alphas, _X, y)]. *)
Definition _vectorized_loss (self : SVM) (alphas : vec) (_X : matrix) (y : vec)
  : result R :=
  let X := _X in
  let left_sum := np_sum alphas in
  let y_ := map (fun yi => [yi]) y in
  X_ <- bcast_mat Rmult y_ X ;;
  H <- kernel_transform_mat (kernel self) X_ (np_T X_) ;;
  right_sum <- match H with
               | GMatrix H => aH <- vec_dot_mat alphas H ;; dot aH alphas
               | GScalar s => dot (map (fun a => a * s) alphas) alphas
               end ;;
  let total_loss := left_sum - 0.5 * right_sum in
  Ok (-1 * total_loss).

(** [zip(a, b, c)]. *)
Definition zip3 {A B C} (a : list A) (b : list B) (c : list C)
  : list (A * B * C) :=
  zip (zip a b) c.

(** The loop both [_compute_offset] and [_compute_discriminant] run over the
    support vectors: [_sum += ai * yi * self.kernel.transform(xi, x)]. *)
Definition support_sum (self : SVM) (sup_X : matrix) (sup_y sup_alphas : vec)
    (x : vec) : result R :=
  foldM (fun _sum s =>
           let '(xi, yi, ai) := s in
           k <- kernel_transform (kernel self) xi x ;;
           Ok (_sum + ai * yi * k))
        (zip3 sup_X sup_y sup_alphas) 0.

(** [_compute_offset(self)]. *)
Definition _compute_offset (self : SVM) : result R :=
  sup_X <- attr (sup_X_ self) "sup_X_" ;;
  (* Uses first support vector, although any can be used. *)
  xk <- index sup_X 0 ;;
  sup_y <- attr (sup_y_ self) "sup_y_" ;;
  yk <- index sup_y 0 ;;
  sup_alphas <- attr (sup_alphas_ self) "sup_alphas_" ;;
  _sum <- support_sum self sup_X sup_y sup_alphas xk ;;
  let offset := yk - _sum in
  Ok offset.

(** [_compute_discriminant(self, X)]. *)
Definition _compute_discriminant (self : SVM) (X : matrix) : result vec :=
  mapM (fun x =>
          sup_X <- attr (sup_X_ self) "sup_X_" ;;
          sup_y <- attr (sup_y_ self) "sup_y_" ;;
          sup_alphas <- attr (sup_alphas_ self) "sup_alphas_" ;;
          _sum <- support_sum self sup_X sup_y sup_alphas x ;;
          offset <- attr (offset_ self) "offset_" ;;
          Ok (_sum + offset))
       X.

(** [check_is_fitted(self, ['opt_result_', 'sup_X_', 'sup_y_',
    'sup_alphas_', 'offset_'])]. *)
Definition check_is_fitted (self : SVM) : result unit :=
  match opt_result_ self, sup_X_ self, sup_y_ self, sup_alphas_ self,
        offset_ self with
  | Some _, Some _, Some _, Some _, Some _ => Ok tt
  | _, _, _, _, _ => Raise NotFittedError
  end.

(** [np.where(v > t)]: the indices of the entries above [t], in order. *)
Definition np_where_gt (v : vec) (t : R) : list nat :=
  map fst (List.filter (fun ix => Rgtb (snd ix) t) (enumerate v)).

(** [a[idx]] for a list of indices. *)
Definition take_idx {A} (a : list A) (idx : list nat) : result (list A) :=
  mapM (index a) idx.

(** [y[y == 0] = -1] on an array of numbers, which is what the labels are
    here.  (On an array of booleans, which the validation would keep, the
    assignment stores [True]: every label is then [True], which is [1].) *)
Definition remap_labels (y : vec) : vec :=
  map (fun yi => if Req_dec_T yi 0 then -1 else yi) y.

Section Estimator.

(** The collaborators from outside the repository: the input validation
    and [unique_labels] of scikit-learn, the random draws of
    [np.random.rand] for this call, and [scipy.optimize.minimize] (given the loss, the starting point and
    the vector of the linear constraint, it returns the [x] of the result,
    or raises). *)
Variable check_X_y : matrix -> vec -> result (matrix * vec).
Variable unique_labels : vec -> result vec.
Variable check_array : matrix -> result matrix.
Variable rand : nat -> vec.
Variable minimize : (vec -> result R) -> vec -> vec -> result vec.

(** The validation at the head of [fit], and the value of [vectorized]
    after it. *)
Definition resolve_vectorized (self : SVM) (vectorized : option bool)
  : result bool :=
  n <- kernel_name (kernel self) ;;
  if negb (String.eqb n "linear")
     && match vectorized with Some v => v | None => false end
  then Raise (ValueError "Vectorized loss only works with linear kernel right now.")
  else match vectorized with
       | Some v => Ok v
       | None => n <- kernel_name (kernel self) ;; Ok (String.eqb n "linear")
       end.

(** [fit(self, X, y, vectorized=None)].  The result is [self] after the
    call, with the attributes set before any exception, and how the call
    ended. *)
Definition fit (self : SVM) (X : matrix) (y : vec) (vectorized : option bool)
  : SVM * result unit :=
  (* My Input validation *)
  match resolve_vectorized self vectorized with
  | Raise e => (self, Raise e)
  | Ok vectorized =>
  (* Sklearn input validation *)
  match check_X_y X y with
  | Raise e => (self, Raise e)
  | Ok (X, y) =>
  match unique_labels y with
  | Raise e => (self, Raise e)
  | Ok classes =>
  let self := mk_SVM (kernel self) (Some classes) (opt_result_ self)
                     (sup_X_ self) (sup_y_ self) (sup_alphas_ self)
                     (offset_ self) in
  let loss := if vectorized then _vectorized_loss self else _loss self in
  (* SVM needs 1s and -1s *)
  let y := remap_labels y in
  let initial_alphas := rand (length X) in
  match minimize (fun alphas => loss alphas X y) initial_alphas y with
  | Raise e => (self, Raise e)
  | Ok x =>
  let self := mk_SVM (kernel self) (classes_ self) (Some x) (sup_X_ self)
                     (sup_y_ self) (sup_alphas_ self) (offset_ self) in
  (* Find indices of support vectors *)
  let sv_idx := np_where_gt x 0.001 in
  match take_idx X sv_idx with
  | Raise e => (self, Raise e)
  | Ok sX =>
  let self := mk_SVM (kernel self) (classes_ self) (opt_result_ self) (Some sX)
                     (sup_y_ self) (sup_alphas_ self) (offset_ self) in
  match take_idx y sv_idx with
  | Raise e => (self, Raise e)
  | Ok sy =>
  let self := mk_SVM (kernel self) (classes_ self) (opt_result_ self)
                     (sup_X_ self) (Some sy) (sup_alphas_ self) (offset_ self) in
  match take_idx x sv_idx with
  | Raise e => (self, Raise e)
  | Ok sa =>
  let self := mk_SVM (kernel self) (classes_ self) (opt_result_ self)
                     (sup_X_ self) (sup_y_ self) (Some sa) (offset_ self) in
  match _compute_offset self with
  | Raise e => (self, Raise e)
  | Ok offset =>
  (mk_SVM (kernel self) (classes_ self) (opt_result_ self) (sup_X_ self)
          (sup_y_ self) (sup_alphas_ self) (Some offset), Ok tt)
  end end end end end end end end.

(** [predict(self, X)]. *)
Definition predict (self : SVM) (X : matrix) : result (list Z) :=
  _ <- check_is_fitted self ;;
  X <- check_array X ;;
  g <- _compute_discriminant self X ;;
  let yhat := map (fun gi => if Rgtb gi 0.5 then 1%Z else 0%Z) g in
  Ok yhat.

End Estimator.

(** ** Specification-side definitions *)

(** Two 2-D arrays of one shape: as many rows, and rows of equal sizes. *)
Definition same_shape {A B} (X : list (list A)) (Y : list (list B)) : Prop :=
  Forall2 (fun r s => length r = length s) X Y.

(** The entry at row [r] and column [c]. *)
Definition entry (m : matrix) (r c : nat) : option R :=
  match m !! r with
  | Some row => row !! c
  | None => None
  end.

(** What the two clipping assignments make of one entry. *)
Definition clip_entry (t : threshold) (x : R) : R :=
  match t with
  | Thresh c =>
      let x' := if Rgtb x c then c else x in
      if Rltb x' (-1 * c) then -1 * c else x'
  | ThreshInf => x
  end.

Definition clip_row (t : threshold) (v : vec) : vec :=
  clip_below t (clip_above t v).

(** The AdaGrad rule on one entry, in the specification's words: a cache
    entry [c] after [k] calls with the gradient entry [g]
    ([cache += gradient^2] each time), and the update that the [k]-th of
    these calls returns ([lr * gradient / sqrt(cache + epsilon)]). *)
Definition cache_after (c g : R) (k : nat) : R := c + INR k * g ^ 2.

Definition update_at (lr epsilon c g : R) (k : nat) : R :=
  lr * (g / sqrt (cache_after c g k + epsilon)).

(** ** The AdaGrad rule in binary64

    Lines 186 and 190 of [optimizer.py] on one entry of a [float64] array,
    with the rounding of the source: [cache = cache + g**2] (numpy squares
    by one multiplication), then [lr * (g / np.sqrt(cache + epsilon))].  The
    result is the new cache entry and the update. *)
Definition adagrad_entry_f64 (lr epsilon c g : float) : float * float :=
  let c' := PrimFloat.add c (PrimFloat.mul g g) in
  (c', PrimFloat.mul lr
         (PrimFloat.div g (PrimFloat.sqrt (PrimFloat.add c' epsilon)))).


(** The sum of [f i] over [i < n]. *)
Definition big_sum (n : nat) (f : nat -> R) : R :=
  fold_right Rplus 0 (map f (seq 0 n)).

(** The inner product of two vectors, the linear kernel as a function. *)
Definition inner (xi xj : vec) : R :=
  big_sum (length xi) (fun k => nth k xi 0 * nth k xj 0).

(** The dual objective, in the specification's words:
    [sum_i alpha_i - 0.5 * sum_{i,j} alpha_i*alpha_j*y_i*y_j*K(x_i,x_j)]. *)
Definition dual_objective (K : vec -> vec -> R) (alphas : vec) (X : matrix)
    (y : vec) : R :=
  let n := length X in
  big_sum n (fun i => nth i alphas 0)
  - 0.5 * big_sum n (fun i => big_sum n (fun j =>
            nth i alphas 0 * nth j alphas 0 * nth i y 0 * nth j y 0
            * K (nth i X []) (nth j X []))).

(** The discriminant, in the specification's words:
    [g(x) = sum_i(alpha_i*y_i*K(x_i,x)) + offset] over the support
    vectors. *)
Definition discriminant (K : vec -> vec -> R) (sup_X : matrix)
    (sup_y sup_alphas : vec) (offset : R) (x : vec) : R :=
  big_sum (length sup_alphas)
          (fun i => nth i sup_alphas 0 * nth i sup_y 0 * K (nth i sup_X []) x)
  + offset.

(** The kernel as a function: what [transform] returns where it returns. *)
Definition kernel_fun (k : kernel_value) (xi xj : vec) : R :=
  match kernel_transform k xi xj with
  | Ok r => r
  | Raise _ => 0
  end.

(** The momentum rule on one entry, in closed form: the velocity that [k]
    steps [v = mu*v + lr*(g - reg*w)] make of [v], for a gradient entry [g]
    and a weight [w] that stay the same. *)
Definition velocity_after (mu lr reg v g w : R) (k : nat) : R :=
  mu ^ k * v + lr * (g - reg * w) * big_sum k (fun j => mu ^ j).

(** ** Repeated calls

    The call that follows [n] earlier calls of [layer_update] on the same
    layer with the same gradient arrays, each call given the running maximum
    that the one before returned. *)
Fixpoint momentum_repeat (n : nat) (self : MomentumOptimizer.t) (mlp : MLP)
    (i : nat) (dJdW_i dJdb_i : loc) (grad_max : R) (h : heap)
  : result (loc * loc * R * MomentumOptimizer.t * heap) :=
  match n with
  | O => MomentumOptimizer.layer_update self mlp i dJdW_i dJdb_i grad_max h
  | S n' =>
      r <- MomentumOptimizer.layer_update self mlp i dJdW_i dJdb_i grad_max h ;;
      let '(_, _, grad_max', self', h') := r in
      momentum_repeat n' self' mlp i dJdW_i dJdb_i grad_max' h'
  end.

Fixpoint adagrad_repeat (n : nat) (self : AdaGradOptimizer.t) (mlp : MLP)
    (i : nat) (dJdW_i dJdb_i : loc) (grad_max : R) (h : heap)
  : result (loc * loc * R * AdaGradOptimizer.t * heap) :=
  match n with
  | O => AdaGradOptimizer.layer_update self mlp i dJdW_i dJdb_i grad_max h
  | S n' =>
      r <- AdaGradOptimizer.layer_update self mlp i dJdW_i dJdb_i grad_max h ;;
      let '(_, _, grad_max', self', h') := r in
      adagrad_repeat n' self' mlp i dJdW_i dJdb_i grad_max' h'
  end.

(** ** Concrete inputs for the examples *)

(** A one-layer network with a 1x2 weight matrix and one bias: the store
    holds the weights, the optimizer's array and the gradient, in this
    order, for the 2-D and for the 1-D arrays. *)
Definition ex_mlp : MLP := mk_MLP [0%nat] [0%nat].

Definition ex_heap (gW : matrix) (gb : vec) : heap :=
  mk_heap [ [[0; 0]]; [[0; 0]]; gW ] [ [0]; [0]; gb ].

Definition ex_momentum (lr mu reg : R) (t : threshold) : MomentumOptimizer.t :=
  MomentumOptimizer.mk lr mu reg t [1%nat] [1%nat].

Definition ex_adagrad (lr epsilon : R) : AdaGradOptimizer.t :=
  AdaGradOptimizer.mk lr epsilon [1%nat] [1%nat].

(** Collaborators for the examples: a validation that accepts its input, the
    draws [0.5, 0.5, ...], and a minimizer that returns a given vector. *)
Definition ex_check_X_y (X : matrix) (y : vec) : result (matrix * vec) := Ok (X, y).
Definition ex_unique_labels (y : vec) : result vec := Ok y.
Definition ex_check_array (X : matrix) : result matrix := Ok X.
Definition ex_rand (n : nat) : vec := repeat 0.5 n.
Definition ex_minimize (x : vec) (loss : vec -> result R) (x0 constraint : vec)
  : result vec := Ok x.

Definition ex_svm (k : Kernel) : SVM :=
  mk_SVM (KernelObj k) None None None None None None.


(** A fitted linear estimator with the one support vector [[2]], of label
    [1] and alpha [1], and offset [-3]. *)
Definition ex_fitted : SVM :=
  mk_SVM (KernelObj LinearKernel) (Some [0; 1]) (Some [1]) (Some [[2]])
         (Some [1]) (Some [1]) (Some (-3)).

(** A training set of two points, for the examples. *)
Definition ex_X : matrix := [[1; 0]; [0; 1]].
Definition ex_y : vec := [1; -1].

(** ** The selections of [plot]

    [plot] draws random points [_X], computes their discriminant values [g]
    and hands three selections of the points to the plotting library: the
    decision boundary [H] and the two margins [Hpos] and [Hneg], with
    [TOL = .03].  The drawing itself is outside the model. *)

(** [np.where(mask)]: the indices at which the mask is true. *)
Definition np_where (mask : list bool) : list nat :=
  map fst (List.filter (fun ib => snd ib) (enumerate mask)).

Definition plot_selections (g : vec) (_X : matrix)
  : result (matrix * matrix * matrix) :=
  let TOL := 0.03 in
  H <- take_idx _X (np_where (map (fun gi => Rltb (Rabs gi) TOL) g)) ;;
  Hpos <- take_idx _X
            (np_where (map (fun gi => Rltb (Rabs gi) (1 + TOL)
                                      && Rgtb (Rabs gi) (1 - TOL)) g)) ;;
  Hneg <- take_idx _X
            (np_where (map (fun gi => Rgtb (Rabs gi) (- (1 + TOL))
                                      && Rltb (Rabs gi) (-1 + TOL)) g)) ;;
  Ok (H, Hpos, Hneg).

(** * Properties *)

(** ** The error monad *)

Lemma bind_Ok {A B} (m : result A) (k : A -> result B) (r : B) :
  bind m k = Ok r -> exists a, m = Ok a /\ k a = Ok r.
Proof.
  destruct m as [a|e]; simpl; intros H; [eauto | discriminate].
Qed.

(** Splits a hypothesis [x <- m ;; k = Ok r] into its two halves. *)
Ltac bind_inv H :=
  let a := fresh "a" in
  let Ha := fresh "Ha" in
  apply bind_Ok in H; destruct H as (a & Ha & H).

Lemma index_Ok {A} (l : list A) (i : nat) (a : A) :
  index l i = Ok a <-> l !! i = Some a.
Proof.
  unfold index. destruct (l !! i); split; intros H; congruence.
Qed.

Lemma map2M_pure {A B C} (f : A -> B -> C) (u : list A) (v : list B) :
  map2M (fun a b => Ok (f a b)) u v = Ok (zip_with f u v).
Proof.
  revert v. induction u as [|a u IH]; intros [|b v]; simpl; try reflexivity.
  rewrite IH. reflexivity.
Qed.

Lemma bcast_vec_same (f : R -> R -> R) (u v : vec) :
  length u = length v -> bcast_vec f u v = Ok (zip_with f u v).
Proof.
  intros H. unfold bcast_vec, bcast.
  rewrite H, Nat.eqb_refl. apply map2M_pure.
Qed.

Lemma map2M_bcast_vec_same (f : R -> R -> R) (X Y : matrix) :
  same_shape X Y -> map2M (bcast_vec f) X Y = Ok (zip_with (zip_with f) X Y).
Proof.
  induction 1 as [|r s X Y Hrs _ IH]; simpl; [reflexivity|].
  rewrite (bcast_vec_same f r s Hrs). simpl. rewrite IH. reflexivity.
Qed.

Lemma same_shape_length {A B} (X : list (list A)) (Y : list (list B)) :
  same_shape X Y -> length X = length Y.
Proof. apply Forall2_length. Qed.

Lemma bcast_mat_same (f : R -> R -> R) (X Y : matrix) :
  same_shape X Y -> bcast_mat f X Y = Ok (zip_with (zip_with f) X Y).
Proof.
  intros H. unfold bcast_mat, bcast.
  rewrite (same_shape_length _ _ H), Nat.eqb_refl.
  apply map2M_bcast_vec_same, H.
Qed.

Lemma same_shape_sym {A B} (X : list (list A)) (Y : list (list B)) :
  same_shape X Y -> same_shape Y X.
Proof. induction 1; constructor; auto. Qed.

Lemma same_shape_trans {A B C} (X : list (list A)) (Y : list (list B))
    (Z : list (list C)) :
  same_shape X Y -> same_shape Y Z -> same_shape X Z.
Proof.
  intros H. revert Z. induction H as [|r s X Y Hrs _ IH]; intros Z HZ.
  - inversion HZ; constructor.
  - inversion HZ as [|s' t' Y' Z' Hst HYZ]; subst.
    constructor; [congruence | apply IH, HYZ].
Qed.

Lemma same_shape_map_l {A B C} (g : list A -> list C) (X : list (list A))
    (Y : list (list B)) :
  (forall r, length (g r) = length r) ->
  same_shape X Y -> same_shape (map g X) Y.
Proof.
  intros Hg. induction 1; simpl; constructor; auto. rewrite Hg. assumption.
Qed.

Lemma same_shape_zip_with {A B C} (f : A -> B -> C) (X : list (list A))
    (Y : list (list B)) :
  same_shape X Y -> same_shape X (zip_with (zip_with f) X Y).
Proof.
  induction 1 as [|r s X Y Hrs _ IH]; simpl; constructor; auto.
  rewrite length_zip_with. lia.
Qed.

(** ** The store *)

Lemma index_lookup {A} (l : list A) (i : nat) (a : A) :
  l !! i = Some a -> index l i = Ok a.
Proof. apply index_Ok. Qed.

Lemma load_mat_Ok (h : heap) (l : loc) (m : matrix) :
  load_mat h l = Ok m <-> mats h !! l = Some m.
Proof.
  unfold load_mat. destruct (mats h !! l); split; intros H; congruence.
Qed.

Lemma load_vec_Ok (h : heap) (l : loc) (v : vec) :
  load_vec h l = Ok v <-> vecs h !! l = Some v.
Proof.
  unfold load_vec. destruct (vecs h !! l); split; intros H; congruence.
Qed.

Lemma clip_row_map (t : threshold) (v : vec) :
  clip_row t v = map (clip_entry t) v.
Proof.
  unfold clip_row, clip_below, clip_above, clip_entry.
  destruct t as [c|]; [|symmetry; apply map_id].
  rewrite map_map. reflexivity.
Qed.

Lemma clip_mat_inplace_lookup (t : threshold) (l : loc) (h : heap) (m : matrix) :
  mats h !! l = Some m ->
  clip_mat_inplace t l h = Ok (store_mat h l (map (clip_row t) m)).
Proof.
  intros Hl. unfold clip_mat_inplace.
  assert (Hlt : (l < length (mats h))%nat) by (eapply lookup_lt_Some; eauto).
  apply load_mat_Ok in Hl. rewrite Hl. simpl.
  unfold load_mat, store_mat. simpl.
  rewrite list_lookup_insert_eq by assumption. simpl.
  rewrite list_insert_insert_eq, map_map. reflexivity.
Qed.

Lemma clip_vec_inplace_lookup (t : threshold) (l : loc) (h : heap) (v : vec) :
  vecs h !! l = Some v ->
  clip_vec_inplace t l h = Ok (store_vec h l (clip_row t v)).
Proof.
  intros Hl. unfold clip_vec_inplace.
  assert (Hlt : (l < length (vecs h))%nat) by (eapply lookup_lt_Some; eauto).
  apply load_vec_Ok in Hl. rewrite Hl. simpl.
  unfold load_vec, store_vec. simpl.
  rewrite list_lookup_insert_eq by assumption. simpl.
  rewrite list_insert_insert_eq. reflexivity.
Qed.

Lemma clip_mat_inplace_inv (t : threshold) (l : loc) (h h' : heap) :
  clip_mat_inplace t l h = Ok h' ->
  exists m, mats h !! l = Some m /\ h' = store_mat h l (map (clip_row t) m).
Proof.
  intros H. destruct (mats h !! l) as [m|] eqn:Hl.
  - rewrite (clip_mat_inplace_lookup t l h m Hl) in H. inversion H. eauto.
  - unfold clip_mat_inplace, load_mat in H. rewrite Hl in H. discriminate.
Qed.

Lemma clip_vec_inplace_inv (t : threshold) (l : loc) (h h' : heap) :
  clip_vec_inplace t l h = Ok h' ->
  exists v, vecs h !! l = Some v /\ h' = store_vec h l (clip_row t v).
Proof.
  intros H. destruct (vecs h !! l) as [v|] eqn:Hl.
  - rewrite (clip_vec_inplace_lookup t l h v Hl) in H. inversion H. eauto.
  - unfold clip_vec_inplace, load_vec in H. rewrite Hl in H. discriminate.
Qed.

(** A call of the momentum optimizer that returns has clipped the two
    gradient arrays where they are, and has allocated the two velocities. *)
Lemma momentum_layer_update_inv (self : MomentumOptimizer.t) (mlp : MLP)
    (i : nat) (dJdW_i dJdb_i : loc) (grad_max : R) (h : heap)
    (w_update b_update : loc) (grad_max' : R) (self' : MomentumOptimizer.t)
    (h' : heap) :
  MomentumOptimizer.layer_update self mlp i dJdW_i dJdb_i grad_max h
    = Ok (w_update, b_update, grad_max', self', h') ->
  exists gW gb vW vb,
    mats h !! dJdW_i = Some gW /\
    vecs h !! dJdb_i = Some gb /\
    w_update = length (mats h) /\
    b_update = length (vecs h) /\
    update_grad_max grad_max
      (map (clip_row (MomentumOptimizer.clip_thresh self)) gW) = Ok grad_max' /\
    h' = mk_heap
           (<[dJdW_i := map (clip_row (MomentumOptimizer.clip_thresh self)) gW]>
              (mats h) ++ [vW])
           (<[dJdb_i := clip_row (MomentumOptimizer.clip_thresh self) gb]>
              (vecs h) ++ [vb]).
Proof.
  unfold MomentumOptimizer.layer_update. intros H.
  bind_inv H. bind_inv H.
  bind_inv H. apply clip_mat_inplace_inv in Ha1 as (gW & HgW & ->).
  bind_inv H. apply clip_vec_inplace_inv in Ha1 as (gb & Hgb & ->).
  simpl in Hgb.
  assert (HdW : (dJdW_i < length (mats h))%nat) by (eapply lookup_lt_Some; eauto).
  assert (Hdb : (dJdb_i < length (vecs h))%nat) by (eapply lookup_lt_Some; eauto).
  bind_inv H. apply load_mat_Ok in Ha1. simpl in Ha1.
  rewrite list_lookup_insert_eq in Ha1 by assumption. inversion Ha1; subst a1.
  bind_inv H. rename Ha2 into Hgm.
  do 8 bind_inv H.
  simpl in H. do 3 bind_inv H. simpl in H.
  inversion H; subst. simpl.
  eexists gW, gb, _, _.
  rewrite !length_insert. repeat split; try assumption; reflexivity.
Qed.

(** A call of the AdaGrad optimizer that returns has only allocated: the two
    caches and the two updates. *)
Lemma adagrad_layer_update_inv (self : AdaGradOptimizer.t) (mlp : MLP)
    (i : nat) (dJdW_i dJdb_i : loc) (grad_max : R) (h : heap)
    (w_update b_update : loc) (grad_max' : R) (self' : AdaGradOptimizer.t)
    (h' : heap) :
  AdaGradOptimizer.layer_update self mlp i dJdW_i dJdb_i grad_max h
    = Ok (w_update, b_update, grad_max', self', h') ->
  exists gW cW wu cb bu,
    mats h !! dJdW_i = Some gW /\
    update_grad_max grad_max gW = Ok grad_max' /\
    h' = mk_heap (mats h ++ [cW; wu]) (vecs h ++ [cb; bu]).
Proof.
  unfold AdaGradOptimizer.layer_update. intros H.
  bind_inv H. apply load_mat_Ok in Ha. rename a into gW.
  bind_inv H. rename Ha0 into Hgm.
  do 3 bind_inv H. rename a2 into cW. simpl in H.
  do 4 bind_inv H. rename a5 into cb. simpl in H.
  do 4 bind_inv H. rename a8 into wu. simpl in H.
  do 4 bind_inv H. rename a11 into bu. simpl in H.
  inversion H; subst.
  exists gW, cW, (scale_mat (AdaGradOptimizer.lr self) wu), cb,
    (scale_vec (AdaGradOptimizer.lr self) bu).
  rewrite <- !app_assoc. simpl. auto.
Qed.

Lemma heap_eta (h : heap) : mk_heap (mats h) (vecs h) = h.
Proof. destruct h; reflexivity. Qed.

Lemma clip_row_inf (v : vec) : clip_row ThreshInf v = v.
Proof. reflexivity. Qed.

Lemma map_clip_row_inf (m : matrix) : map (clip_row ThreshInf) m = m.
Proof. apply map_id. Qed.

(** With the default threshold nothing is clipped: the momentum update on
    arrays of one shape, written out. *)
Lemma momentum_layer_update_noclip (self : MomentumOptimizer.t) (mlp : MLP)
    (i : nat) (dJdW_i dJdb_i : loc) (grad_max grad_max' : R) (h : heap)
    (lW lb lvW lvb : loc) (gW Wv vW : matrix) (gb bv vb : vec) :
  MomentumOptimizer.clip_thresh self = ThreshInf ->
  W mlp !! i = Some lW -> b mlp !! i = Some lb ->
  MomentumOptimizer.vW_ self !! i = Some lvW ->
  MomentumOptimizer.vb_ self !! i = Some lvb ->
  mats h !! dJdW_i = Some gW -> vecs h !! dJdb_i = Some gb ->
  mats h !! lW = Some Wv -> vecs h !! lb = Some bv ->
  mats h !! lvW = Some vW -> vecs h !! lvb = Some vb ->
  same_shape gW Wv -> same_shape vW gW ->
  length gb = length bv -> length vb = length gb ->
  update_grad_max grad_max gW = Ok grad_max' ->
  MomentumOptimizer.layer_update self mlp i dJdW_i dJdb_i grad_max h =
  Ok (length (mats h), length (vecs h), grad_max',
      MomentumOptimizer.mk
        (MomentumOptimizer.lr self) (MomentumOptimizer.mu self)
        (MomentumOptimizer.reg self) (MomentumOptimizer.clip_thresh self)
        (<[i := length (mats h)]> (MomentumOptimizer.vW_ self))
        (<[i := length (vecs h)]> (MomentumOptimizer.vb_ self)),
      mk_heap
        (mats h ++
         [zip_with (zip_with Rplus)
            (scale_mat (MomentumOptimizer.mu self) vW)
            (scale_mat (MomentumOptimizer.lr self)
               (zip_with (zip_with Rminus) gW
                  (scale_mat (MomentumOptimizer.reg self) Wv)))])
        (vecs h ++
         [zip_with Rplus
            (scale_vec (MomentumOptimizer.mu self) vb)
            (scale_vec (MomentumOptimizer.lr self)
               (zip_with Rminus gb
                  (scale_vec (MomentumOptimizer.reg self) bv)))])).
Proof.
  intros Hclip HW Hb HvW Hvb HgW Hgb HWv Hbv HvWv Hvbv SW SvW Sb Svb Hgm.
  unfold MomentumOptimizer.layer_update.
  rewrite (index_lookup _ _ _ HW), (index_lookup _ _ _ Hb). simpl.
  rewrite Hclip.
  rewrite (clip_mat_inplace_lookup _ _ _ _ HgW). simpl.
  rewrite map_clip_row_inf.
  unfold store_mat at 1. rewrite (list_insert_id _ _ _ HgW), heap_eta.
  rewrite (clip_vec_inplace_lookup _ _ _ _ Hgb). simpl.
  rewrite ?clip_row_inf.
  unfold store_vec. rewrite (list_insert_id _ _ _ Hgb), heap_eta.
  rewrite (proj2 (load_mat_Ok _ _ _) HgW). simpl.
  rewrite Hgm. simpl.
  rewrite (proj2 (load_mat_Ok _ _ _) HWv). simpl.
  rewrite bcast_mat_same.
  2:{ apply same_shape_sym, same_shape_map_l.
      - intros r. apply length_map.
      - apply same_shape_sym, SW. }
  simpl.
  rewrite (proj2 (load_vec_Ok _ _ _) Hgb). simpl.
  rewrite (proj2 (load_vec_Ok _ _ _) Hbv). simpl.
  rewrite bcast_vec_same by (unfold scale_vec; rewrite length_map; exact Sb).
  simpl.
  rewrite (index_lookup _ _ _ HvW). simpl.
  rewrite (proj2 (load_mat_Ok _ _ _) HvWv). simpl.
  rewrite bcast_mat_same.
  2:{ apply same_shape_map_l; [intros r; apply length_map|].
      apply same_shape_sym, same_shape_map_l; [intros r; apply length_map|].
      apply same_shape_sym.
      eapply same_shape_trans; [exact SvW|].
      apply same_shape_zip_with.
      apply same_shape_sym, same_shape_map_l; [intros r; apply length_map|].
      apply same_shape_sym, SW. }
  simpl.
  rewrite (index_lookup _ _ _ Hvb). simpl.
  unfold load_vec. simpl. rewrite Hvbv. simpl.
  rewrite bcast_vec_same.
  2:{ unfold scale_vec. rewrite !length_map, length_zip_with, length_map. lia. }
  simpl. reflexivity.
Qed.

(** ** Comparisons *)

Lemma Rltb_true (x y : R) : x < y -> Rltb x y = true.
Proof. intros H. unfold Rltb. destruct (Rlt_dec x y); [reflexivity | contradiction]. Qed.

Lemma Rltb_false (x y : R) : ~ x < y -> Rltb x y = false.
Proof. intros H. unfold Rltb. destruct (Rlt_dec x y); [contradiction | reflexivity]. Qed.

Lemma Rgtb_true (x y : R) : x > y -> Rgtb x y = true.
Proof. intros H. apply Rltb_true, H. Qed.

Lemma Rgtb_false (x y : R) : ~ x > y -> Rgtb x y = false.
Proof. intros H. apply Rltb_false, H. Qed.

Lemma clip_entry_within (c x : R) : Rabs x <= c -> clip_entry (Thresh c) x = x.
Proof.
  intros H. unfold clip_entry.
  assert (Hx : - c <= x <= c).
  { unfold Rabs in H. destruct (Rcase_abs x); lra. }
  rewrite Rgtb_false by lra. rewrite Rltb_false by lra. reflexivity.
Qed.

Lemma clip_entry_above (c x : R) : 0 <= c -> c < x -> clip_entry (Thresh c) x = c.
Proof.
  intros Hc H. unfold clip_entry.
  rewrite Rgtb_true by lra. rewrite Rltb_false by lra. reflexivity.
Qed.

Lemma clip_entry_below (c x : R) :
  0 <= c -> x < - c -> clip_entry (Thresh c) x = - c.
Proof.
  intros Hc H. unfold clip_entry.
  rewrite Rgtb_false by lra. rewrite Rltb_true by lra. lra.
Qed.

Lemma clip_entry_outside (c x : R) :
  c < Rabs x -> clip_entry (Thresh c) x = c \/ clip_entry (Thresh c) x = - c.
Proof.
  intros H. unfold clip_entry.
  destruct (Rlt_dec c x) as [Hgt|Hle].
  - rewrite Rgtb_true by lra.
    destruct (Rlt_dec c (-1 * c)) as [Hn|Hn].
    + rewrite Rltb_true by lra. right. lra.
    + rewrite Rltb_false by lra. left. reflexivity.
  - rewrite Rgtb_false by lra.
    assert (Hx : x < - c).
    { unfold Rabs in H. destruct (Rcase_abs x); lra. }
    rewrite Rltb_true by lra. right. lra.
Qed.

(** ** The gradient arrays of the caller *)

(** C10.  A call of [MomentumOptimizer.layer_update] that returns has
    written into the caller's two gradient arrays: each holds, at its own
    location, its former entries clipped ([clip_entry]: an entry within the
    threshold is kept, one beyond it is replaced by plus or minus the
    threshold), and the regularization and velocity steps have changed no
    array that existed before the call.  A call of
    [AdaGradOptimizer.layer_update] that returns has changed no array that
    existed before the call, its gradient arguments included. *)
Theorem layer_update_gradient_arrays (mlp : MLP) (i : nat)
    (dJdW_i dJdb_i : loc) (grad_max : R) (h : heap) :
  (forall self w_update b_update grad_max' self' h',
      MomentumOptimizer.layer_update self mlp i dJdW_i dJdb_i grad_max h
        = Ok (w_update, b_update, grad_max', self', h') ->
      let t := MomentumOptimizer.clip_thresh self in
      exists gW gb,
        mats h !! dJdW_i = Some gW /\
        vecs h !! dJdb_i = Some gb /\
        mats h' !! dJdW_i = Some (map (map (clip_entry t)) gW) /\
        vecs h' !! dJdb_i = Some (map (clip_entry t) gb) /\
        (forall l, l <> dJdW_i -> (l < length (mats h))%nat ->
                   mats h' !! l = mats h !! l) /\
        (forall l, l <> dJdb_i -> (l < length (vecs h))%nat ->
                   vecs h' !! l = vecs h !! l) /\
        (forall x, match t with
                   | ThreshInf => clip_entry t x = x
                   | Thresh c =>
                       (Rabs x <= c -> clip_entry t x = x) /\
                       (c < Rabs x -> clip_entry t x = c \/ clip_entry t x = - c) /\
                       (0 <= c -> c < x -> clip_entry t x = c) /\
                       (0 <= c -> x < - c -> clip_entry t x = - c)
                   end)) /\
  (forall self w_update b_update grad_max' self' h',
      AdaGradOptimizer.layer_update self mlp i dJdW_i dJdb_i grad_max h
        = Ok (w_update, b_update, grad_max', self', h') ->
      (forall l, (l < length (mats h))%nat -> mats h' !! l = mats h !! l) /\
      (forall l, (l < length (vecs h))%nat -> vecs h' !! l = vecs h !! l)).
Proof.
  split.
  - intros self w_update b_update grad_max' self' h' H t.
    apply momentum_layer_update_inv in H
      as (gW & gb & vW & vb & HgW & Hgb & -> & -> & _ & ->).
    assert (HdW : (dJdW_i < length (mats h))%nat) by (eapply lookup_lt_Some; eauto).
    assert (Hdb : (dJdb_i < length (vecs h))%nat) by (eapply lookup_lt_Some; eauto).
    exists gW, gb. simpl. repeat split; try assumption.
    + rewrite lookup_app_l by (rewrite length_insert; assumption).
      rewrite list_lookup_insert_eq by assumption.
      f_equal. apply map_ext. intros v. apply clip_row_map.
    + rewrite lookup_app_l by (rewrite length_insert; assumption).
      rewrite list_lookup_insert_eq by assumption.
      f_equal. apply clip_row_map.
    + intros l Hne Hl.
      rewrite lookup_app_l by (rewrite length_insert; assumption).
      apply list_lookup_insert_ne. congruence.
    + intros l Hne Hl.
      rewrite lookup_app_l by (rewrite length_insert; assumption).
      apply list_lookup_insert_ne. congruence.
    + intros x. subst t. destruct (MomentumOptimizer.clip_thresh self) as [c|].
      * repeat split.
        -- apply clip_entry_within.
        -- apply clip_entry_outside.
        -- apply clip_entry_above.
        -- apply clip_entry_below.
      * reflexivity.
  - intros self w_update b_update grad_max' self' h' H.
    apply adagrad_layer_update_inv in H
      as (gW & cW & wu & cb & bu & _ & _ & ->).
    simpl. split; intros l Hl; apply lookup_app_l; assumption.
Qed.

Lemma layer_update_gradient_arrays_witness :
  (exists r,
      MomentumOptimizer.layer_update (ex_momentum 1 0 0 (Thresh 1)) ex_mlp 0
        2 2 0 (ex_heap [[2; -3]] [5]) = Ok r /\
      mats (snd r) !! 2%nat = Some (map (map (clip_entry (Thresh 1))) [[2; -3]]) /\
      vecs (snd r) !! 2%nat = Some (map (clip_entry (Thresh 1)) [5])) /\
  (exists r,
      AdaGradOptimizer.layer_update (ex_adagrad 1 1) ex_mlp 0
        2 2 0 (ex_heap [[2; -3]] [5]) = Ok r /\
      mats (snd r) !! 2%nat = Some [[2; -3]] /\
      vecs (snd r) !! 2%nat = Some [5]).
Proof.
  split.
  - eexists (_, _, _, _, _). split; [reflexivity|].
    destruct (proj1 (layer_update_gradient_arrays ex_mlp 0 2 2 0
                       (ex_heap [[2; -3]] [5]))
                (ex_momentum 1 0 0 (Thresh 1)) _ _ _ _ _ eq_refl)
      as (gW & gb & HgW & Hgb & HW & Hb & _).
    simpl in HgW, Hgb. inversion HgW; inversion Hgb; subst.
    split; [exact HW | exact Hb].
  - eexists (_, _, _, _, _). split; [reflexivity|].
    destruct (proj2 (layer_update_gradient_arrays ex_mlp 0 2 2 0
                       (ex_heap [[2; -3]] [5]))
                (ex_adagrad 1 1) _ _ _ _ _ eq_refl)
      as (HW & Hb).
    split; [apply (HW 2%nat) | apply (Hb 2%nat)]; simpl; lia.
Defined.

(** The AdaGrad update on arrays of one shape, written out: the caches
    [cW'] and [cb'] are allocated first, the two updates after them. *)
Lemma adagrad_layer_update_eq (self : AdaGradOptimizer.t) (mlp : MLP)
    (i : nat) (dJdW_i dJdb_i : loc) (grad_max grad_max' : R) (h : heap)
    (lcW lcb : loc) (gW cW : matrix) (gb cb : vec) :
  AdaGradOptimizer.cW_ self !! i = Some lcW ->
  AdaGradOptimizer.cb_ self !! i = Some lcb ->
  mats h !! dJdW_i = Some gW -> vecs h !! dJdb_i = Some gb ->
  mats h !! lcW = Some cW -> vecs h !! lcb = Some cb ->
  same_shape cW gW -> length cb = length gb ->
  update_grad_max grad_max gW = Ok grad_max' ->
  let cW' := zip_with (zip_with Rplus) cW (map (map (fun x => x ^ 2)) gW) in
  let cb' := zip_with Rplus cb (map (fun x => x ^ 2) gb) in
  let lr := AdaGradOptimizer.lr self in
  let epsilon := AdaGradOptimizer.epsilon self in
  AdaGradOptimizer.layer_update self mlp i dJdW_i dJdb_i grad_max h =
  Ok (S (length (mats h)), S (length (vecs h)), grad_max',
      AdaGradOptimizer.mk lr epsilon
        (<[i := length (mats h)]> (AdaGradOptimizer.cW_ self))
        (<[i := length (vecs h)]> (AdaGradOptimizer.cb_ self)),
      mk_heap
        (mats h ++
         [cW';
          scale_mat lr
            (zip_with (zip_with Rdiv) gW
               (map (AdaGradOptimizer.sqrt_plus epsilon) cW'))])
        (vecs h ++
         [cb';
          scale_vec lr
            (zip_with Rdiv gb (AdaGradOptimizer.sqrt_plus epsilon cb'))])).
Proof.
  intros HcW Hcb HgW Hgb HcWv Hcbv SW Sb Hgm cW' cb' lr epsilon.
  assert (HiW : (i < length (AdaGradOptimizer.cW_ self))%nat)
    by (eapply lookup_lt_Some; eauto).
  assert (Hib : (i < length (AdaGradOptimizer.cb_ self))%nat)
    by (eapply lookup_lt_Some; eauto).
  assert (HdW : (dJdW_i < length (mats h))%nat) by (eapply lookup_lt_Some; eauto).
  assert (Hdb : (dJdb_i < length (vecs h))%nat) by (eapply lookup_lt_Some; eauto).
  assert (SW' : same_shape gW cW').
  { apply same_shape_sym. eapply same_shape_trans; [|exact SW].
    apply same_shape_sym. subst cW'. apply same_shape_zip_with.
    apply same_shape_sym, same_shape_map_l; [intros r; apply length_map|].
    apply same_shape_sym, SW. }
  unfold AdaGradOptimizer.layer_update.
  rewrite (proj2 (load_mat_Ok _ _ _) HgW). simpl.
  rewrite Hgm. simpl.
  rewrite (index_lookup _ _ _ HcW). simpl.
  rewrite (proj2 (load_mat_Ok _ _ _) HcWv). simpl.
  rewrite bcast_mat_same.
  2:{ apply same_shape_sym, same_shape_map_l; [intros r; apply length_map|].
      apply same_shape_sym, SW. }
  simpl.
  unfold load_vec at 1. simpl. rewrite Hgb. simpl.
  rewrite (index_lookup _ _ _ Hcb). simpl.
  unfold load_vec at 1. simpl. rewrite Hcbv. simpl.
  rewrite bcast_vec_same by (rewrite length_map; exact Sb).
  simpl.
  unfold load_mat at 1. simpl.
  rewrite (lookup_app_l_Some _ _ _ _ HgW). simpl.
  unfold index at 1. rewrite list_lookup_insert_eq by assumption. simpl.
  unfold load_mat at 1. simpl.
  rewrite list_lookup_middle by reflexivity. simpl.
  rewrite bcast_mat_same.
  2:{ apply same_shape_sym, same_shape_map_l.
      - intros r. unfold AdaGradOptimizer.sqrt_plus. apply length_map.
      - apply same_shape_sym, SW'. }
  simpl.
  unfold load_vec at 1. simpl.
  rewrite (lookup_app_l_Some _ _ _ _ Hgb). simpl.
  unfold index at 1. rewrite list_lookup_insert_eq by assumption. simpl.
  unfold load_vec at 1. simpl.
  rewrite list_lookup_middle by reflexivity. simpl.
  rewrite bcast_vec_same.
  2:{ unfold AdaGradOptimizer.sqrt_plus. rewrite length_map.
      subst cb'. rewrite length_zip_with, length_map. lia. }
  simpl. rewrite !length_app. simpl. rewrite !Nat.add_1_r.
  rewrite <- !app_assoc. reflexivity.
Qed.

(** ** The running maximum of the gradient *)

Lemma update_grad_max_negative_entry : update_grad_max 0 [[-5; 1]] = Ok 0.
Proof.
  unfold update_grad_max. simpl.
  assert (Hhi : Rmax (-5) 1 = 1) by (apply Rmax_right; lra).
  assert (Hlo : Rmin (-5) 1 = -5) by (apply Rmin_left; lra).
  rewrite Hhi, Hlo.
  unfold py_max_key_abs.
  rewrite Rltb_true.
  2:{ rewrite Rabs_right by lra. rewrite Rabs_left by lra. lra. }
  unfold py_max. rewrite Rltb_false by lra. reflexivity.
Qed.

(** C3 (the code departs from it).  With a running maximum of [0] and the
    weight gradient [[-5, 1]], whose entry of largest magnitude is [-5],
    [layer_update] of both optimizers returns [0] as its third value, not
    [5]: [max(..., key=abs)] selects [-5] with its sign, and the outer [max]
    then keeps [0]. *)
Theorem grad_max_misses_negative_entry :
  (exists w_update b_update self' h',
      MomentumOptimizer.layer_update (ex_momentum 1 0 0 ThreshInf) ex_mlp 0
        2 2 0 (ex_heap [[-5; 1]] [0])
      = Ok (w_update, b_update, 0, self', h')) /\
  (exists w_update b_update self' h',
      AdaGradOptimizer.layer_update (ex_adagrad 1 1) ex_mlp 0
        2 2 0 (ex_heap [[-5; 1]] [0])
      = Ok (w_update, b_update, 0, self', h')) /\
  Rmax 0 (Rabs (-5)) = 5.
Proof.
  split; [|split].
  - do 4 eexists.
    eapply (momentum_layer_update_noclip (ex_momentum 1 0 0 ThreshInf) ex_mlp
              0 2 2 0 0 (ex_heap [[-5; 1]] [0]) 0 0 1 1);
      try reflexivity.
    + repeat constructor.
    + repeat constructor.
    + apply update_grad_max_negative_entry.
  - do 4 eexists.
    eapply (adagrad_layer_update_eq (ex_adagrad 1 1) ex_mlp
              0 2 2 0 0 (ex_heap [[-5; 1]] [0]) 1 1);
      try reflexivity.
    + repeat constructor.
    + apply update_grad_max_negative_entry.
  - rewrite Rabs_left by lra. rewrite Rmax_right by lra. lra.
Qed.

(** ** Momentum without momentum *)

Lemma zip_with_minus_zero (g w : vec) :
  length g = length w -> zip_with Rminus g (scale_vec 0 w) = g.
Proof.
  revert w. induction g as [|x g IH]; intros [|y w] Hl; simpl in *;
    try reflexivity; try discriminate.
  f_equal; [lra | apply IH; lia].
Qed.

Lemma zip_with_plus_zero (v u : vec) :
  length v = length u -> zip_with Rplus (scale_vec 0 v) u = u.
Proof.
  revert u. induction v as [|x v IH]; intros [|y u] Hl; simpl in *;
    try reflexivity; try discriminate.
  f_equal; [lra | apply IH; lia].
Qed.

Lemma zip_with_minus_zero_mat (G Wv : matrix) :
  same_shape G Wv -> zip_with (zip_with Rminus) G (scale_mat 0 Wv) = G.
Proof.
  induction 1 as [|r s G Wv Hrs _ IH]; simpl; [reflexivity|].
  rewrite zip_with_minus_zero by assumption. f_equal. exact IH.
Qed.

Lemma zip_with_plus_zero_mat (V U : matrix) :
  same_shape V U -> zip_with (zip_with Rplus) (scale_mat 0 V) U = U.
Proof.
  induction 1 as [|r s V U Hrs _ IH]; simpl; [reflexivity|].
  rewrite zip_with_plus_zero by assumption. f_equal. exact IH.
Qed.

Lemma update_grad_max_total (grad_max : R) (gW : matrix) :
  concat gW <> [] -> exists grad_max', update_grad_max grad_max gW = Ok grad_max'.
Proof.
  intros H. unfold update_grad_max.
  destruct (concat gW) as [|x t]; [contradiction|]. simpl. eauto.
Qed.

(** One call with [mu = 0], [reg = 0] and no clipping, in any state of the
    optimizer: the two updates are [lr] times the gradients, the gradients
    are as they were, and the optimizer is ready for the next call. *)
Lemma momentum_plain_step (self : MomentumOptimizer.t) (mlp : MLP)
    (i : nat) (dJdW_i dJdb_i : loc) (grad_max : R) (h : heap)
    (lW lb lvW lvb : loc) (gW Wv vW : matrix) (gb bv vb : vec) :
  MomentumOptimizer.mu self = 0 ->
  MomentumOptimizer.reg self = 0 ->
  MomentumOptimizer.clip_thresh self = ThreshInf ->
  W mlp !! i = Some lW -> b mlp !! i = Some lb ->
  MomentumOptimizer.vW_ self !! i = Some lvW ->
  MomentumOptimizer.vb_ self !! i = Some lvb ->
  mats h !! dJdW_i = Some gW -> vecs h !! dJdb_i = Some gb ->
  mats h !! lW = Some Wv -> vecs h !! lb = Some bv ->
  mats h !! lvW = Some vW -> vecs h !! lvb = Some vb ->
  same_shape gW Wv -> same_shape vW gW ->
  length gb = length bv -> length vb = length gb ->
  concat gW <> [] ->
  exists w_update b_update grad_max' self' h',
    MomentumOptimizer.layer_update self mlp i dJdW_i dJdb_i grad_max h
      = Ok (w_update, b_update, grad_max', self', h') /\
    mats h' !! w_update = Some (scale_mat (MomentumOptimizer.lr self) gW) /\
    vecs h' !! b_update = Some (scale_vec (MomentumOptimizer.lr self) gb) /\
    (forall l, (l < length (mats h))%nat -> mats h' !! l = mats h !! l) /\
    (forall l, (l < length (vecs h))%nat -> vecs h' !! l = vecs h !! l) /\
    MomentumOptimizer.lr self' = MomentumOptimizer.lr self /\
    MomentumOptimizer.mu self' = 0 /\
    MomentumOptimizer.reg self' = 0 /\
    MomentumOptimizer.clip_thresh self' = ThreshInf /\
    MomentumOptimizer.vW_ self' !! i = Some w_update /\
    MomentumOptimizer.vb_ self' !! i = Some b_update.
Proof.
  intros Hmu Hreg Hclip HW Hb HvW Hvb HgW Hgb HWv Hbv HvWv Hvbv SW SvW Sb Svb Hne.
  destruct (update_grad_max_total grad_max gW Hne) as (grad_max' & Hgm).
  eexists _, _, grad_max', _, _. split.
  { eapply momentum_layer_update_noclip; eassumption. }
  rewrite Hmu, Hreg, Hclip. simpl.
  rewrite zip_with_minus_zero_mat by assumption.
  rewrite zip_with_minus_zero by assumption.
  rewrite zip_with_plus_zero_mat.
  2:{ apply same_shape_sym, same_shape_map_l; [intros r; apply length_map|].
      apply same_shape_sym, SvW. }
  rewrite zip_with_plus_zero by (unfold scale_vec; rewrite length_map; exact Svb).
  repeat split.
  - apply list_lookup_middle. reflexivity.
  - apply list_lookup_middle. reflexivity.
  - intros l Hl. apply lookup_app_l. assumption.
  - intros l Hl. apply lookup_app_l. assumption.
  - apply list_lookup_insert_eq. eapply lookup_lt_Some; eauto.
  - apply list_lookup_insert_eq. eapply lookup_lt_Some; eauto.
Qed.

Lemma same_shape_scale_mat (k : R) (X Y : matrix) :
  same_shape X Y -> same_shape (scale_mat k X) Y.
Proof.
  apply same_shape_map_l. intros r. apply length_map.
Qed.

Lemma same_shape_refl {A} (X : list (list A)) : same_shape X X.
Proof. induction X; constructor; auto. Qed.

(** C6.  A momentum optimizer with [mu = 0], [reg = 0] and
    [clip_thresh = inf], in any state, is called again and again on a layer
    with gradient arrays shaped like the layer's weights, biases and
    velocities: every one of the calls returns, and its weight and bias
    updates are [lr] times the gradients, entry by entry. *)
Theorem momentum_plain_gradient_descent (n : nat) (self : MomentumOptimizer.t)
    (mlp : MLP) (i : nat) (dJdW_i dJdb_i : loc) (grad_max : R) (h : heap)
    (lW lb lvW lvb : loc) (gW Wv vW : matrix) (gb bv vb : vec) :
  MomentumOptimizer.mu self = 0 ->
  MomentumOptimizer.reg self = 0 ->
  MomentumOptimizer.clip_thresh self = ThreshInf ->
  W mlp !! i = Some lW -> b mlp !! i = Some lb ->
  MomentumOptimizer.vW_ self !! i = Some lvW ->
  MomentumOptimizer.vb_ self !! i = Some lvb ->
  mats h !! dJdW_i = Some gW -> vecs h !! dJdb_i = Some gb ->
  mats h !! lW = Some Wv -> vecs h !! lb = Some bv ->
  mats h !! lvW = Some vW -> vecs h !! lvb = Some vb ->
  same_shape gW Wv -> same_shape vW gW ->
  length gb = length bv -> length vb = length gb ->
  concat gW <> [] ->
  exists w_update b_update grad_max' self' h',
    momentum_repeat n self mlp i dJdW_i dJdb_i grad_max h
      = Ok (w_update, b_update, grad_max', self', h') /\
    mats h' !! w_update = Some (map (map (Rmult (MomentumOptimizer.lr self))) gW) /\
    vecs h' !! b_update = Some (map (Rmult (MomentumOptimizer.lr self)) gb).
Proof.
  revert self grad_max h lvW lvb vW vb.
  induction n as [|n IH];
    intros self grad_max h lvW lvb vW vb
           Hmu Hreg Hclip HW Hb HvW Hvb HgW Hgb HWv Hbv HvWv Hvbv SW SvW Sb Svb Hne;
    destruct (momentum_plain_step self mlp i dJdW_i dJdb_i grad_max h
                lW lb lvW lvb gW Wv vW gb bv vb)
      as (w1 & b1 & gm1 & self1 & h1 & Hcall & Hw & Hbu & HfW & Hfb
          & Hlr & Hmu1 & Hreg1 & Hclip1 & HvW1 & Hvb1); try assumption.
  - exists w1, b1, gm1, self1, h1. simpl. auto.
  - simpl. rewrite Hcall. simpl.
    rewrite <- Hlr.
    apply (IH self1 gm1 h1 w1 b1
             (scale_mat (MomentumOptimizer.lr self) gW)
             (scale_vec (MomentumOptimizer.lr self) gb)); try assumption.
    + rewrite HfW by (eapply lookup_lt_Some; eauto). assumption.
    + rewrite Hfb by (eapply lookup_lt_Some; eauto). assumption.
    + rewrite HfW by (eapply lookup_lt_Some; eauto). assumption.
    + rewrite Hfb by (eapply lookup_lt_Some; eauto). assumption.
    + apply same_shape_scale_mat, same_shape_refl.
    + unfold scale_vec. apply length_map.
Qed.

Lemma momentum_plain_gradient_descent_witness :
  exists w_update b_update grad_max' self' h',
    momentum_repeat 2 (ex_momentum (/ 2) 0 0 ThreshInf) ex_mlp 0 2 2 0
      (ex_heap [[3; -4]] [7])
      = Ok (w_update, b_update, grad_max', self', h') /\
    mats h' !! w_update = Some (map (map (Rmult (/ 2))) [[3; -4]]) /\
    vecs h' !! b_update = Some (map (Rmult (/ 2)) [7]).
Proof.
  apply (momentum_plain_gradient_descent 2 (ex_momentum (/ 2) 0 0 ThreshInf)
           ex_mlp 0 2 2 0 (ex_heap [[3; -4]] [7]) 0 0 1 1
           [[3; -4]] [[0; 0]] [[0; 0]] [7] [0] [0]);
    try reflexivity.
  - repeat constructor.
  - repeat constructor.
  - simpl. discriminate.
Defined.

(** ** AdaGrad *)

Lemma lookup_map {A B} (f : A -> B) (l : list A) (i : nat) :
  map f l !! i = option_map f (l !! i).
Proof.
  revert i. induction l as [|a l IH]; intros [|i]; simpl; auto.
Qed.

Lemma entry_map (f : R -> R) (m : matrix) (r c : nat) :
  entry (map (map f) m) r c = option_map f (entry m r c).
Proof.
  unfold entry. rewrite lookup_map.
  destruct (m !! r) as [row|]; simpl; [apply lookup_map | reflexivity].
Qed.

Lemma lookup_zip_with_same {A B C} (f : A -> B -> C) (u : list A) (v : list B)
    (i : nat) (y : B) :
  length u = length v -> v !! i = Some y ->
  exists x, u !! i = Some x /\ zip_with f u v !! i = Some (f x y).
Proof.
  intros Hl Hy.
  destruct (lookup_lt_is_Some_2 u i) as [x Hx].
  { rewrite Hl. eapply lookup_lt_Some; eauto. }
  exists x. split; [assumption|].
  rewrite lookup_zip_with, Hx, Hy. reflexivity.
Qed.

Lemma entry_zip_with_same (f : R -> R -> R) (X Y : matrix) (r c : nat) (y : R) :
  same_shape X Y -> entry Y r c = Some y ->
  exists x, entry X r c = Some x /\
            entry (zip_with (zip_with f) X Y) r c = Some (f x y).
Proof.
  intros HS Hy. unfold entry in *.
  destruct (Y !! r) as [s|] eqn:Hs; [|discriminate].
  destruct (Forall2_lookup_r _ _ _ _ _ HS Hs) as (t & Ht & Hlen).
  destruct (lookup_zip_with_same f t s c y Hlen Hy) as (x & Hx & Hz).
  exists x. rewrite Ht. split; [assumption|].
  rewrite lookup_zip_with, Ht, Hs. simpl. assumption.
Qed.

Lemma cache_after_0 (c g : R) : cache_after c g 0 = c.
Proof. unfold cache_after. simpl. lra. Qed.

Lemma cache_after_S (c g : R) (k : nat) :
  cache_after c g (S k) = cache_after c g k + g ^ 2.
Proof. unfold cache_after. rewrite S_INR. lra. Qed.

Lemma cache_after_shift (c g : R) (k : nat) :
  cache_after (c + g ^ 2) g k = cache_after c g (S k).
Proof. unfold cache_after. rewrite S_INR. lra. Qed.

Lemma cache_after_le (c g : R) (k : nat) :
  cache_after c g k <= cache_after c g (S k).
Proof. rewrite cache_after_S. pose proof (pow2_ge_0 g). lra. Qed.

Lemma cache_after_lt (c g : R) (k : nat) :
  g <> 0 -> cache_after c g k < cache_after c g (S k).
Proof.
  intros Hg. rewrite cache_after_S.
  assert (0 < g ^ 2) by nra. lra.
Qed.

Lemma cache_after_nonneg (c g : R) (k : nat) : 0 <= c -> 0 <= cache_after c g k.
Proof.
  intros Hc. unfold cache_after.
  pose proof (pow2_ge_0 g). pose proof (pos_INR k). nra.
Qed.

(** The adaptive shrinkage, on one entry. *)
Lemma update_at_shrinks (lr epsilon c g : R) (k : nat) :
  g <> 0 -> lr <> 0 -> 0 < epsilon -> 0 <= c ->
  Rabs (update_at lr epsilon c g (S k)) < Rabs (update_at lr epsilon c g k).
Proof.
  intros Hg Hlr He Hc. unfold update_at.
  pose proof (cache_after_nonneg c g k Hc) as H0.
  pose proof (cache_after_lt c g k Hg) as H1.
  set (A := cache_after c g k + epsilon).
  set (B := cache_after c g (S k) + epsilon).
  assert (HA : 0 < A) by (subst A; lra).
  assert (HAB : A < B) by (subst A B; lra).
  assert (HsA : 0 < sqrt A) by (apply sqrt_lt_R0, HA).
  assert (HsAB : sqrt A < sqrt B) by (apply sqrt_lt_1; lra).
  unfold Rdiv. rewrite !Rabs_mult.
  rewrite (Rabs_right (/ sqrt A)).
  2:{ apply Rle_ge, Rlt_le, Rinv_0_lt_compat, HsA. }
  rewrite (Rabs_right (/ sqrt B)).
  2:{ apply Rle_ge, Rlt_le, Rinv_0_lt_compat. lra. }
  assert (Hl : 0 < Rabs lr) by (apply Rabs_pos_lt, Hlr).
  assert (Hgg : 0 < Rabs g) by (apply Rabs_pos_lt, Hg).
  assert (Hinv : / sqrt B < / sqrt A).
  { apply Rinv_lt_contravar; [nra | assumption]. }
  apply Rmult_lt_compat_l; [assumption|].
  apply Rmult_lt_compat_l; assumption.
Qed.

(** Without the strictness: where the cache plus [epsilon] is positive, the
    magnitude of the update does not grow from one call to the next. *)
Lemma update_at_does_not_grow (lr epsilon c g : R) (k : nat) :
  0 < cache_after c g k + epsilon ->
  Rabs (update_at lr epsilon c g (S k)) <= Rabs (update_at lr epsilon c g k).
Proof.
  intros HA. unfold update_at.
  pose proof (cache_after_le c g k) as H1.
  set (A := cache_after c g k + epsilon) in *.
  set (B := cache_after c g (S k) + epsilon).
  assert (HAB : A <= B) by (subst A B; lra).
  assert (HsA : 0 < sqrt A) by (apply sqrt_lt_R0, HA).
  assert (HsAB : sqrt A <= sqrt B) by (apply sqrt_le_1_alt, HAB).
  unfold Rdiv. rewrite !Rabs_mult.
  rewrite (Rabs_right (/ sqrt A)).
  2:{ apply Rle_ge, Rlt_le, Rinv_0_lt_compat, HsA. }
  rewrite (Rabs_right (/ sqrt B)).
  2:{ apply Rle_ge, Rlt_le, Rinv_0_lt_compat. lra. }
  apply Rmult_le_compat_l; [apply Rabs_pos|].
  apply Rmult_le_compat_l; [apply Rabs_pos|].
  apply Rinv_le_contravar; assumption.
Qed.

Lemma lookup_snoc2_snd {A} (l : list A) (a b : A) :
  (l ++ [a; b]) !! S (length l) = Some b.
Proof.
  change (l ++ [a; b]) with (l ++ [a] ++ [b]).
  rewrite app_assoc. apply list_lookup_middle.
  rewrite length_app. simpl. lia.
Qed.

(** One call of the AdaGrad optimizer on arrays of one shape: where the new
    caches and the updates are, and that nothing else has changed. *)
Lemma adagrad_step (self : AdaGradOptimizer.t) (mlp : MLP)
    (i : nat) (dJdW_i dJdb_i : loc) (grad_max : R) (h : heap)
    (lcW lcb : loc) (gW cW : matrix) (gb cb : vec) :
  AdaGradOptimizer.cW_ self !! i = Some lcW ->
  AdaGradOptimizer.cb_ self !! i = Some lcb ->
  mats h !! dJdW_i = Some gW -> vecs h !! dJdb_i = Some gb ->
  mats h !! lcW = Some cW -> vecs h !! lcb = Some cb ->
  same_shape cW gW -> length cb = length gb ->
  concat gW <> [] ->
  let cW' := zip_with (zip_with Rplus) cW (map (map (fun x => x ^ 2)) gW) in
  let cb' := zip_with Rplus cb (map (fun x => x ^ 2) gb) in
  let lr := AdaGradOptimizer.lr self in
  let epsilon := AdaGradOptimizer.epsilon self in
  exists w_update b_update grad_max' self' h' lcW' lcb',
    AdaGradOptimizer.layer_update self mlp i dJdW_i dJdb_i grad_max h
      = Ok (w_update, b_update, grad_max', self', h') /\
    AdaGradOptimizer.cW_ self' !! i = Some lcW' /\
    AdaGradOptimizer.cb_ self' !! i = Some lcb' /\
    mats h' !! lcW' = Some cW' /\
    vecs h' !! lcb' = Some cb' /\
    mats h' !! w_update
      = Some (scale_mat lr (zip_with (zip_with Rdiv) gW
                              (map (AdaGradOptimizer.sqrt_plus epsilon) cW'))) /\
    vecs h' !! b_update
      = Some (scale_vec lr (zip_with Rdiv gb
                              (AdaGradOptimizer.sqrt_plus epsilon cb'))) /\
    (forall l, (l < length (mats h))%nat -> mats h' !! l = mats h !! l) /\
    (forall l, (l < length (vecs h))%nat -> vecs h' !! l = vecs h !! l) /\
    AdaGradOptimizer.lr self' = lr /\
    AdaGradOptimizer.epsilon self' = epsilon.
Proof.
  intros HcW Hcb HgW Hgb HcWv Hcbv SW Sb Hne cW' cb' lr epsilon.
  destruct (update_grad_max_total grad_max gW Hne) as (grad_max' & Hgm).
  eexists _, _, grad_max', _, _, _, _. split.
  { eapply adagrad_layer_update_eq; eassumption. }
  simpl. repeat split.
  - apply list_lookup_insert_eq. eapply lookup_lt_Some; eauto.
  - apply list_lookup_insert_eq. eapply lookup_lt_Some; eauto.
  - apply list_lookup_middle. reflexivity.
  - apply list_lookup_middle. reflexivity.
  - apply lookup_snoc2_snd.
  - apply lookup_snoc2_snd.
  - intros l Hl. apply lookup_app_l. assumption.
  - intros l Hl. apply lookup_app_l. assumption.
Qed.

(** The entries of the caches and of the updates at the call that follows
    [n] calls with the same gradient arrays. *)
Lemma adagrad_repeat_entries (n : nat) (self : AdaGradOptimizer.t) (mlp : MLP)
    (i : nat) (dJdW_i dJdb_i : loc) (grad_max : R) (h : heap)
    (lcW lcb : loc) (gW cW : matrix) (gb cb : vec) :
  AdaGradOptimizer.cW_ self !! i = Some lcW ->
  AdaGradOptimizer.cb_ self !! i = Some lcb ->
  mats h !! dJdW_i = Some gW -> vecs h !! dJdb_i = Some gb ->
  mats h !! lcW = Some cW -> vecs h !! lcb = Some cb ->
  same_shape cW gW -> length cb = length gb ->
  concat gW <> [] ->
  let lr := AdaGradOptimizer.lr self in
  let epsilon := AdaGradOptimizer.epsilon self in
  exists w_update b_update grad_max' self' h' lcW' lcb' cW' cb' uW ub,
    adagrad_repeat n self mlp i dJdW_i dJdb_i grad_max h
      = Ok (w_update, b_update, grad_max', self', h') /\
    AdaGradOptimizer.cW_ self' !! i = Some lcW' /\
    AdaGradOptimizer.cb_ self' !! i = Some lcb' /\
    mats h' !! lcW' = Some cW' /\
    vecs h' !! lcb' = Some cb' /\
    mats h' !! w_update = Some uW /\
    vecs h' !! b_update = Some ub /\
    (forall r c g, entry gW r c = Some g ->
       exists c0, entry cW r c = Some c0 /\
                  entry cW' r c = Some (cache_after c0 g (S n)) /\
                  entry uW r c = Some (update_at lr epsilon c0 g (S n))) /\
    (forall k g, gb !! k = Some g ->
       exists c0, cb !! k = Some c0 /\
                  cb' !! k = Some (cache_after c0 g (S n)) /\
                  ub !! k = Some (update_at lr epsilon c0 g (S n))).
Proof.
  revert self grad_max h lcW lcb cW cb.
  induction n as [|n IH];
    intros self grad_max h lcW lcb cW cb HcW Hcb HgW Hgb HcWv Hcbv SW Sb Hne
           lr epsilon;
    destruct (adagrad_step self mlp i dJdW_i dJdb_i grad_max h lcW lcb
                gW cW gb cb)
      as (w1 & b1 & gm1 & self1 & h1 & lcW1 & lcb1 & Hcall & HcW1 & Hcb1
          & HcWv1 & Hcbv1 & HuW & Hub & HfW & Hfb & Hlr & Heps);
    try assumption.
  - eexists w1, b1, gm1, self1, h1, lcW1, lcb1, _, _, _, _.
    split; [exact Hcall|].
    repeat (split; [eassumption|]).
    split.
    + intros r c g Hg.
      destruct (entry_zip_with_same Rplus cW (map (map (fun x => x ^ 2)) gW)
                  r c (g ^ 2)) as (c0 & Hc0 & Hc1).
      { apply same_shape_sym, same_shape_map_l; [intros v; apply length_map|].
        apply same_shape_sym, SW. }
      { rewrite entry_map, Hg. reflexivity. }
      exists c0. split; [assumption|].
      rewrite cache_after_S, cache_after_0. split; [assumption|].
      unfold scale_mat, scale_vec. rewrite entry_map.
      destruct (entry_zip_with_same Rdiv gW
                  (map (AdaGradOptimizer.sqrt_plus (AdaGradOptimizer.epsilon self))
                     (zip_with (zip_with Rplus) cW
                        (map (map (fun x => x ^ 2)) gW)))
                  r c (sqrt (c0 + g ^ 2 + AdaGradOptimizer.epsilon self)))
        as (g' & Hg' & Hdiv).
      { apply same_shape_sym, same_shape_map_l.
        - intros v. unfold AdaGradOptimizer.sqrt_plus. apply length_map.
        - apply same_shape_sym. eapply same_shape_trans.
          + apply same_shape_sym, SW.
          + apply same_shape_zip_with.
            apply same_shape_sym, same_shape_map_l;
              [intros v; apply length_map|].
            apply same_shape_sym, SW. }
      { unfold AdaGradOptimizer.sqrt_plus. rewrite entry_map, Hc1. reflexivity. }
      rewrite Hg in Hg'. inversion Hg'; subst g'.
      rewrite Hdiv. unfold update_at. rewrite cache_after_S, cache_after_0.
      reflexivity.
    + intros k g Hg.
      destruct (lookup_zip_with_same Rplus cb (map (fun x => x ^ 2) gb)
                  k (g ^ 2)) as (c0 & Hc0 & Hc1).
      { rewrite length_map. exact Sb. }
      { rewrite lookup_map, Hg. reflexivity. }
      exists c0. split; [assumption|].
      rewrite cache_after_S, cache_after_0. split; [assumption|].
      unfold scale_vec. rewrite lookup_map.
      destruct (lookup_zip_with_same Rdiv gb
                  (AdaGradOptimizer.sqrt_plus (AdaGradOptimizer.epsilon self)
                     (zip_with Rplus cb (map (fun x => x ^ 2) gb)))
                  k (sqrt (c0 + g ^ 2 + AdaGradOptimizer.epsilon self)))
        as (g' & Hg' & Hdiv).
      { unfold AdaGradOptimizer.sqrt_plus.
        rewrite length_map, length_zip_with, length_map. lia. }
      { unfold AdaGradOptimizer.sqrt_plus. rewrite lookup_map, Hc1. reflexivity. }
      rewrite Hg in Hg'. inversion Hg'; subst g'.
      rewrite Hdiv. unfold update_at. rewrite cache_after_S, cache_after_0.
      reflexivity.
  - simpl. rewrite Hcall. simpl.
    assert (SW1 : same_shape
                    (zip_with (zip_with Rplus) cW (map (map (fun x => x ^ 2)) gW))
                    gW).
    { apply same_shape_sym. eapply same_shape_trans.
      - apply same_shape_sym, SW.
      - apply same_shape_zip_with.
        apply same_shape_sym, same_shape_map_l; [intros v; apply length_map|].
        apply same_shape_sym, SW. }
    destruct (IH self1 gm1 h1 lcW1 lcb1
                (zip_with (zip_with Rplus) cW (map (map (fun x => x ^ 2)) gW))
                (zip_with Rplus cb (map (fun x => x ^ 2) gb)))
      as (w2 & b2 & gm2 & self2 & h2 & lcW2 & lcb2 & cW2 & cb2 & uW2 & ub2
          & Hcall2 & HcW2 & Hcb2 & HcWv2 & Hcbv2 & HuW2 & Hub2 & HeW & Heb);
      try assumption.
    { rewrite HfW by (eapply lookup_lt_Some; eauto). assumption. }
    { rewrite Hfb by (eapply lookup_lt_Some; eauto). assumption. }
    { rewrite length_zip_with, length_map. lia. }
    exists w2, b2, gm2, self2, h2, lcW2, lcb2, cW2, cb2, uW2, ub2.
    split; [exact Hcall2|].
    repeat (split; [assumption|]).
    rewrite Hlr, Heps in *.
    split.
    + intros r c g Hg.
      destruct (HeW r c g Hg) as (c1 & Hc1 & Hcn & Hun).
      destruct (entry_zip_with_same Rplus cW (map (map (fun x => x ^ 2)) gW)
                  r c (g ^ 2)) as (c0 & Hc0 & Hc01).
      { apply same_shape_sym, same_shape_map_l; [intros v; apply length_map|].
        apply same_shape_sym, SW. }
      { rewrite entry_map, Hg. reflexivity. }
      rewrite Hc01 in Hc1. inversion Hc1; subst c1.
      exists c0. split; [assumption|].
      unfold update_at in *. rewrite cache_after_shift in *. auto.
    + intros k g Hg.
      destruct (Heb k g Hg) as (c1 & Hc1 & Hcn & Hun).
      destruct (lookup_zip_with_same Rplus cb (map (fun x => x ^ 2) gb)
                  k (g ^ 2)) as (c0 & Hc0 & Hc01).
      { rewrite length_map. exact Sb. }
      { rewrite lookup_map, Hg. reflexivity. }
      rewrite Hc01 in Hc1. inversion Hc1; subst c1.
      exists c0. split; [assumption|].
      unfold update_at in *. rewrite cache_after_shift in *. auto.
Qed.

(** C7, as amended.  An AdaGrad optimizer is called again and again on a
    layer with the same gradient arrays, shaped like its caches; the first
    of the calls finds the optimizer in any state.  Every call returns.  At
    the call that follows [n] others, every cache entry [c0] has become
    [c0 + (n+1) * g^2] for its gradient entry [g], and it has not decreased
    at this call.  The update of the entry is
    [lr * g / sqrt(cache + epsilon)] for the cache after the accumulation.
    Where that cache plus [epsilon] is positive (so that the quotient is a
    number), the update of the next call is not larger in magnitude.
    Neither statement is strict: see the lemma that follows. *)
Theorem adagrad_cache_and_updates (n : nat) (self : AdaGradOptimizer.t)
    (mlp : MLP) (i : nat) (dJdW_i dJdb_i : loc) (grad_max : R) (h : heap)
    (lcW lcb : loc) (gW cW : matrix) (gb cb : vec) :
  AdaGradOptimizer.cW_ self !! i = Some lcW ->
  AdaGradOptimizer.cb_ self !! i = Some lcb ->
  mats h !! dJdW_i = Some gW -> vecs h !! dJdb_i = Some gb ->
  mats h !! lcW = Some cW -> vecs h !! lcb = Some cb ->
  same_shape cW gW -> length cb = length gb ->
  concat gW <> [] ->
  let lr := AdaGradOptimizer.lr self in
  let epsilon := AdaGradOptimizer.epsilon self in
  exists w_update b_update grad_max' self' h' lcW' lcb' cW' cb' uW ub,
    adagrad_repeat n self mlp i dJdW_i dJdb_i grad_max h
      = Ok (w_update, b_update, grad_max', self', h') /\
    AdaGradOptimizer.cW_ self' !! i = Some lcW' /\
    AdaGradOptimizer.cb_ self' !! i = Some lcb' /\
    mats h' !! lcW' = Some cW' /\
    vecs h' !! lcb' = Some cb' /\
    mats h' !! w_update = Some uW /\
    vecs h' !! b_update = Some ub /\
    (forall r c g, entry gW r c = Some g ->
       exists c0,
         entry cW r c = Some c0 /\
         entry cW' r c = Some (cache_after c0 g (S n)) /\
         cache_after c0 g n <= cache_after c0 g (S n) /\
         entry uW r c = Some (lr * (g / sqrt (cache_after c0 g (S n) + epsilon))) /\
         (0 < cache_after c0 g (S n) + epsilon ->
          Rabs (update_at lr epsilon c0 g (S (S n)))
          <= Rabs (update_at lr epsilon c0 g (S n)))) /\
    (forall k g, gb !! k = Some g ->
       exists c0,
         cb !! k = Some c0 /\
         cb' !! k = Some (cache_after c0 g (S n)) /\
         cache_after c0 g n <= cache_after c0 g (S n) /\
         ub !! k = Some (lr * (g / sqrt (cache_after c0 g (S n) + epsilon))) /\
         (0 < cache_after c0 g (S n) + epsilon ->
          Rabs (update_at lr epsilon c0 g (S (S n)))
          <= Rabs (update_at lr epsilon c0 g (S n)))).
Proof.
  intros HcW Hcb HgW Hgb HcWv Hcbv SW Sb Hne lr epsilon.
  destruct (adagrad_repeat_entries n self mlp i dJdW_i dJdb_i grad_max h
              lcW lcb gW cW gb cb)
    as (w & bu & gm & self' & h' & lcW' & lcb' & cW' & cb' & uW & ub
        & Hcall & H1 & H2 & H3 & H4 & H5 & H6 & HeW & Heb);
    try assumption.
  exists w, bu, gm, self', h', lcW', lcb', cW', cb', uW, ub.
  split; [exact Hcall|].
  repeat (split; [assumption|]).
  split.
  - intros r c g Hg. destruct (HeW r c g Hg) as (c0 & Hc0 & Hcn & Hun).
    exists c0. repeat split; try assumption.
    + apply cache_after_le.
    + apply update_at_does_not_grow.
  - intros k g Hg. destruct (Heb k g Hg) as (c0 & Hc0 & Hcn & Hun).
    exists c0. repeat split; try assumption.
    + apply cache_after_le.
    + apply update_at_does_not_grow.
Qed.

Lemma adagrad_cache_and_updates_witness :
  exists w_update b_update grad_max' self' h' lcW' cW' uW,
    adagrad_repeat 1 (ex_adagrad (/ 2) 1) ex_mlp 0 2 2 0 (ex_heap [[3; 0]] [2])
      = Ok (w_update, b_update, grad_max', self', h') /\
    AdaGradOptimizer.cW_ self' !! 0%nat = Some lcW' /\
    mats h' !! lcW' = Some cW' /\
    mats h' !! w_update = Some uW /\
    entry cW' 0 0 = Some (cache_after 0 3 2) /\
    entry uW 0 0 = Some (/ 2 * (3 / sqrt (cache_after 0 3 2 + 1))) /\
    Rabs (update_at (/ 2) 1 0 3 3) <= Rabs (update_at (/ 2) 1 0 3 2).
Proof.
  destruct (adagrad_cache_and_updates 1 (ex_adagrad (/ 2) 1) ex_mlp 0 2 2 0
              (ex_heap [[3; 0]] [2]) 1 1 [[3; 0]] [[0; 0]] [2] [0])
    as (w & bu & gm & self' & h' & lcW' & lcb' & cW' & cb' & uW & ub
        & Hcall & H1 & H2 & H3 & H4 & H5 & H6 & HeW & Heb);
    try reflexivity.
  - repeat constructor.
  - simpl. discriminate.
  - destruct (HeW 0%nat 0%nat 3 eq_refl)
      as (c0 & Hc0 & Hcn & _ & Hun & Hshrink).
    inversion Hc0; subst c0.
    exists w, bu, gm, self', h', lcW', cW', uW.
    repeat split; try assumption.
    apply Hshrink. simpl.
    pose proof (cache_after_nonneg 0 3 2 (Rle_refl 0)). lra.
Defined.

(** With a learning rate of zero the updates of two successive calls with
    the gradient entry [1] are both [0]: the second is not smaller in
    magnitude than the first.  (In exact arithmetic, with a positive
    [epsilon] and a cache that started non-negative, a nonzero gradient and
    a nonzero learning rate do give a strict decrease:
    [update_at_shrinks].) *)
Lemma adagrad_zero_lr_updates :
  exists w1 b1 gm1 self1 h1 uW1 w2 b2 gm2 self2 h2 uW2 u1 u2,
    adagrad_repeat 0 (ex_adagrad 0 1) ex_mlp 0 2 2 0 (ex_heap [[1; 1]] [1])
      = Ok (w1, b1, gm1, self1, h1) /\
    adagrad_repeat 1 (ex_adagrad 0 1) ex_mlp 0 2 2 0 (ex_heap [[1; 1]] [1])
      = Ok (w2, b2, gm2, self2, h2) /\
    mats h1 !! w1 = Some uW1 /\ entry uW1 0 0 = Some u1 /\
    mats h2 !! w2 = Some uW2 /\ entry uW2 0 0 = Some u2 /\
    entry [[1; 1]] 0 0 = Some 1 /\ 1 <> 0 /\
    ~ Rabs u2 < Rabs u1.
Proof.
  destruct (adagrad_repeat_entries 0 (ex_adagrad 0 1) ex_mlp 0 2 2 0
              (ex_heap [[1; 1]] [1]) 1 1 [[1; 1]] [[0; 0]] [1] [0])
    as (w1 & b1 & gm1 & self1 & h1 & lcW1 & lcb1 & cW1 & cb1 & uW1 & ub1
        & Hcall1 & _ & _ & _ & _ & HuW1 & _ & HeW1 & _);
    try reflexivity; [repeat constructor | simpl; discriminate |].
  destruct (adagrad_repeat_entries 1 (ex_adagrad 0 1) ex_mlp 0 2 2 0
              (ex_heap [[1; 1]] [1]) 1 1 [[1; 1]] [[0; 0]] [1] [0])
    as (w2 & b2 & gm2 & self2 & h2 & lcW2 & lcb2 & cW2 & cb2 & uW2 & ub2
        & Hcall2 & _ & _ & _ & _ & HuW2 & _ & HeW2 & _);
    try reflexivity; [repeat constructor | simpl; discriminate |].
  destruct (HeW1 0%nat 0%nat 1 eq_refl) as (c1 & Hc1 & _ & Hu1).
  destruct (HeW2 0%nat 0%nat 1 eq_refl) as (c2 & Hc2 & _ & Hu2).
  exists w1, b1, gm1, self1, h1, uW1, w2, b2, gm2, self2, h2, uW2.
  eexists _, _.
  repeat (split; [eassumption || reflexivity|]).
  split; [lra|].
  unfold update_at. simpl. rewrite !Rmult_0_l. lra.
Qed.

(** C7 as it was stated fails, in three ways.  With a learning rate of
    zero, two successive updates for the gradient entry [1] are equal.  In
    binary64, as the source computes: a new optimizer with [lr = 0.5] and
    [epsilon = 1] returns the update [2^-31] at each of two successive calls
    with the gradient entry [2^-30], because [1 + 2^-60] and [1 + 2^-59]
    both round to [1]; and a cache entry of [2^60] (left by a call with the
    gradient entry [2^30]) is still [2^60] after a call with the gradient
    entry [1], which is not zero. *)
Lemma adagrad_strictness_fails :
  (exists w1 b1 gm1 self1 h1 uW1 w2 b2 gm2 self2 h2 uW2 u1 u2,
    adagrad_repeat 0 (ex_adagrad 0 1) ex_mlp 0 2 2 0 (ex_heap [[1; 1]] [1])
      = Ok (w1, b1, gm1, self1, h1) /\
    adagrad_repeat 1 (ex_adagrad 0 1) ex_mlp 0 2 2 0 (ex_heap [[1; 1]] [1])
      = Ok (w2, b2, gm2, self2, h2) /\
    mats h1 !! w1 = Some uW1 /\ entry uW1 0 0 = Some u1 /\
    mats h2 !! w2 = Some uW2 /\ entry uW2 0 0 = Some u2 /\
    entry [[1; 1]] 0 0 = Some 1 /\ 1 <> 0 /\
    ~ Rabs u2 < Rabs u1) /\
  (let g := 0x1p-30%float in
   let call1 := adagrad_entry_f64 0.5%float 1%float 0%float g in
   let call2 := adagrad_entry_f64 0.5%float 1%float (fst call1) g in
   PrimFloat.eqb g 0%float = false /\
   snd call1 = 0x1p-31%float /\ snd call2 = 0x1p-31%float /\
   PrimFloat.ltb (PrimFloat.abs (snd call2)) (PrimFloat.abs (snd call1)) = false) /\
  (let call1 := adagrad_entry_f64 0.5%float 1%float 0%float 0x1p30%float in
   let call2 := adagrad_entry_f64 0.5%float 1%float (fst call1) 1%float in
   PrimFloat.eqb 1%float 0%float = false /\
   fst call1 = 0x1p60%float /\ fst call2 = 0x1p60%float /\
   PrimFloat.ltb (fst call1) (fst call2) = false).
Proof.
  split; [exact adagrad_zero_lr_updates|].
  split; vm_compute; repeat split; reflexivity.
Qed.


(** ** Constructing the estimator *)

Lemma KERNEL_MAP_get_invalid (s : string) :
  ~ In s (map fst KERNEL_MAP) -> KERNEL_MAP_get s = None.
Proof.
  intros H. unfold KERNEL_MAP_get, KERNEL_MAP in *.
  cbn -[String.eqb] in *.
  repeat match goal with
         | |- context [String.eqb ?a s] =>
             destruct (String.eqb_spec a s); [exfalso; apply H; tauto|]
         end.
  reflexivity.
Qed.

(** A string that is no key of [KERNEL_MAP] never reaches the test that
    raises the [ValueError] written for it: calling the [None] that
    [KERNEL_MAP.get] returned raises [TypeError] first. *)
Lemma SVM_init_invalid_key (s : string) (kernel_args : kwargs) :
  ~ In s (map fst KERNEL_MAP) ->
  SVM_init (KStr s) kernel_args
  = Raise (TypeError "'NoneType' object is not callable").
Proof.
  intros H. unfold SVM_init. rewrite (KERNEL_MAP_get_invalid s H). reflexivity.
Qed.

(** No call of the constructor raises the [ValueError] for an invalid
    kernel. *)
Lemma SVM_init_never_invalid_kernel (kernel : kernel_arg) (kernel_args : kwargs) :
  SVM_init kernel kernel_args
  <> Raise (ValueError "Invalid kernel. Must be in KERNEL_MAP.keys()").
Proof.
  unfold SVM_init. destruct kernel as [s|f|]; simpl; try discriminate.
  unfold call_kernel_class.
  destruct (KERNEL_MAP_get s) as [init|] eqn:Hget; simpl; [|discriminate].
  destruct (init kernel_args) as [k|e] eqn:Hk; simpl; [discriminate|].
  intros Heq. inversion Heq; subst e. clear Heq.
  assert (Hin : In init [GaussianKernel_init; LinearKernel_init;
                         PolynomialKernel_init; SigmoidKernel_init;
                         TanHKernel_init]).
  { unfold KERNEL_MAP_get, KERNEL_MAP in Hget. cbn -[String.eqb] in Hget.
    repeat match type of Hget with
           | context [String.eqb ?a s] =>
               destruct (String.eqb a s); cbn -[String.eqb] in Hget
           end;
      try discriminate; inversion Hget; simpl; tauto. }
  simpl in Hin.
  destruct Hin as [<-|[<-|[<-|[<-|[<-|[]]]]]];
    unfold GaussianKernel_init, LinearKernel_init, PolynomialKernel_init,
           SigmoidKernel_init, TanHKernel_init, bind_kwargs in Hk;
    repeat match type of Hk with
           | context [if ?c then _ else _] => destruct c; simpl in Hk
           end;
    discriminate.
Qed.

(** C8 (the code departs from it).  [SVM(kernel='rbf')] raises
    [TypeError], from calling [None], and not the [ValueError] that
    [__init__] has for an invalid kernel; with each of the five keys and no
    further argument the construction succeeds. *)
Theorem SVM_init_invalid_key_raises_TypeError :
  SVM_init (KStr "rbf") []
  = Raise (TypeError "'NoneType' object is not callable") /\
  SVM_init (KStr "gaussian") []
  = Ok (mk_SVM (KernelObj (GaussianKernel 0.5)) None None None None None None) /\
  SVM_init (KStr "linear") []
  = Ok (mk_SVM (KernelObj LinearKernel) None None None None None None) /\
  SVM_init (KStr "polynomial") []
  = Ok (mk_SVM (KernelObj (PolynomialKernel (PyInt 2))) None None None None None None) /\
  SVM_init (KStr "sigmoid") []
  = Ok (mk_SVM (KernelObj SigmoidKernel) None None None None None None) /\
  SVM_init (KStr "tanh") []
  = Ok (mk_SVM (KernelObj TanHKernel) None None None None None None).
Proof.
  repeat split; try reflexivity.
  unfold SVM_init, KERNEL_MAP_get. simpl.
  unfold GaussianKernel_init. simpl.
  destruct (Rle_dec 0.5 0) as [H|H]; [lra | reflexivity].
Qed.

(** ** The validation at the head of [fit] *)




(** ** Sums *)

Lemma big_sum_0 (f : nat -> R) : big_sum 0 f = 0.
Proof. reflexivity. Qed.

Lemma big_sum_S_l (n : nat) (f : nat -> R) :
  big_sum (S n) f = f 0%nat + big_sum n (fun i => f (S i)).
Proof.
  unfold big_sum. simpl. rewrite <- seq_shift, map_map. reflexivity.
Qed.

Lemma big_sum_ext (n : nat) (f g : nat -> R) :
  (forall i, (i < n)%nat -> f i = g i) -> big_sum n f = big_sum n g.
Proof.
  revert f g. induction n as [|n IH]; intros f g H; [reflexivity|].
  rewrite !big_sum_S_l. rewrite (H 0%nat) by lia. f_equal.
  apply IH. intros i Hi. apply H. lia.
Qed.

Lemma big_sum_plus (n : nat) (f g : nat -> R) :
  big_sum n (fun i => f i + g i) = big_sum n f + big_sum n g.
Proof.
  revert f g. induction n as [|n IH]; intros f g.
  - rewrite !big_sum_0. lra.
  - rewrite !big_sum_S_l, IH. lra.
Qed.

Lemma big_sum_scal_l (n : nat) (c : R) (f : nat -> R) :
  big_sum n (fun i => c * f i) = c * big_sum n f.
Proof.
  revert f. induction n as [|n IH]; intros f.
  - rewrite !big_sum_0. lra.
  - rewrite !big_sum_S_l, IH. lra.
Qed.

Lemma big_sum_scal_r (n : nat) (c : R) (f : nat -> R) :
  big_sum n (fun i => f i * c) = big_sum n f * c.
Proof.
  revert f. induction n as [|n IH]; intros f.
  - rewrite !big_sum_0. lra.
  - rewrite !big_sum_S_l, IH. lra.
Qed.

Lemma big_sum_zero (n : nat) : big_sum n (fun _ => 0) = 0.
Proof.
  induction n as [|n IH]; [reflexivity|]. rewrite big_sum_S_l, IH. lra.
Qed.

Lemma big_sum_exchange (n m : nat) (f : nat -> nat -> R) :
  big_sum n (fun i => big_sum m (fun j => f i j))
  = big_sum m (fun j => big_sum n (fun i => f i j)).
Proof.
  revert f. induction n as [|n IH]; intros f.
  - rewrite big_sum_0. symmetry. apply big_sum_zero.
  - rewrite big_sum_S_l, IH.
    rewrite <- big_sum_plus. apply big_sum_ext. intros j _.
    rewrite big_sum_S_l. reflexivity.
Qed.

Lemma fold_left_Rplus (l : vec) (a : R) :
  fold_left Rplus l a = a + fold_right Rplus 0 l.
Proof.
  revert a. induction l as [|x l IH]; intros a; simpl; [lra|].
  rewrite IH. lra.
Qed.

Lemma fold_right_big_sum (l : vec) :
  fold_right Rplus 0 l = big_sum (length l) (fun i => nth i l 0).
Proof.
  induction l as [|x l IH]; [reflexivity|].
  simpl length. rewrite big_sum_S_l. simpl. rewrite IH. reflexivity.
Qed.

Lemma np_sum_big_sum (l : vec) :
  np_sum l = big_sum (length l) (fun i => nth i l 0).
Proof.
  unfold np_sum. rewrite fold_left_Rplus, fold_right_big_sum. lra.
Qed.

Lemma nth_zip_with {A B C} (f : A -> B -> C) (u : list A) (v : list B)
    (i : nat) (da : A) (db : B) (dc : C) :
  (i < length u)%nat -> (i < length v)%nat ->
  nth i (zip_with f u v) dc = f (nth i u da) (nth i v db).
Proof.
  revert v i. induction u as [|a u IH]; intros [|b0 v] [|i] Hu Hv;
    simpl in *; try lia; try reflexivity.
  apply IH; lia.
Qed.

Lemma np_sum_zip_with {A B} (f : A -> B -> R) (u : list A) (v : list B)
    (da : A) (db : B) :
  length u = length v ->
  np_sum (zip_with f u v)
  = big_sum (length u) (fun i => f (nth i u da) (nth i v db)).
Proof.
  intros Hl. rewrite np_sum_big_sum, length_zip_with.
  replace (length u `min` length v)%nat with (length u) by lia.
  apply big_sum_ext. intros i Hi. apply nth_zip_with; lia.
Qed.

Lemma dot_inner (xi xj : vec) :
  length xi = length xj -> dot xi xj = Ok (inner xi xj).
Proof.
  intros Hl. unfold dot, inner. rewrite Hl, Nat.eqb_refl.
  rewrite (np_sum_zip_with Rmult xi xj 0 0 Hl), Hl. reflexivity.
Qed.

Lemma inner_scale (a c : R) (u v : vec) :
  length u = length v ->
  inner (map (Rmult a) u) (map (Rmult c) v) = a * c * inner u v.
Proof.
  intros Hl. unfold inner. rewrite length_map, <- big_sum_scal_l.
  apply big_sum_ext. intros k Hk.
  rewrite (nth_indep _ 0 (a * 0)) by (rewrite length_map; lia).
  rewrite (nth_indep (map (Rmult c) v) 0 (c * 0)) by (rewrite length_map; lia).
  rewrite !map_nth. lra.
Qed.

(** ** Loops that accumulate a sum *)

Lemma foldM_sum {A} (f : R -> A -> result R) (F : A -> R) (l : list A) (acc : R) :
  (forall a acc', In a l -> f acc' a = Ok (acc' + F a)) ->
  foldM f l acc = Ok (acc + fold_right Rplus 0 (map F l)).
Proof.
  revert acc. induction l as [|a l IH]; intros acc H; simpl.
  - f_equal. lra.
  - rewrite (H a acc) by (left; reflexivity). simpl.
    rewrite IH by (intros a' acc' Hin; apply H; right; exact Hin).
    f_equal. lra.
Qed.

Lemma foldM_enumerate_sum {A} (f : R -> nat * A -> result R) (G : nat -> A -> R)
    (d : A) (l : list A) (s : nat) (acc : R) :
  (forall k x acc', l !! k = Some x ->
     f acc' ((s + k)%nat, x) = Ok (acc' + G (s + k)%nat x)) ->
  foldM f (enumerate_from s l) acc
  = Ok (acc + big_sum (length l) (fun k => G (s + k)%nat (nth k l d))).
Proof.
  revert s acc. induction l as [|x l IH]; intros s acc H; simpl.
  - rewrite big_sum_0. f_equal. lra.
  - pose proof (H 0%nat x acc eq_refl) as H0. rewrite Nat.add_0_r in H0.
    rewrite H0. simpl.
    rewrite (IH (S s)).
    + rewrite big_sum_S_l. rewrite Nat.add_0_r. f_equal.
      rewrite Rplus_assoc. f_equal. f_equal.
      apply big_sum_ext. intros k _. rewrite Nat.add_succ_r. reflexivity.
    + intros k x' acc' Hk.
      replace (S s + k)%nat with (s + S k)%nat by lia.
      apply H. exact Hk.
Qed.

Lemma index_nth {A} (l : list A) (i : nat) (d : A) :
  (i < length l)%nat -> index l i = Ok (nth i l d).
Proof.
  intros Hi. apply index_lookup.
  revert i Hi. induction l as [|a l IH]; intros [|i] Hi; simpl in *;
    try lia; [reflexivity|]. apply IH. lia.
Qed.

Lemma mapM_pure_on {A B} (f : A -> result B) (g : A -> B) (l : list A) :
  (forall a, In a l -> f a = Ok (g a)) -> mapM f l = Ok (map g l).
Proof.
  induction l as [|a l IH]; intros H; simpl; [reflexivity|].
  rewrite (H a) by (left; reflexivity). simpl.
  rewrite IH by (intros a' Hin; apply H; right; exact Hin). reflexivity.
Qed.

Lemma fold_right_map_big_sum {A} (F : A -> R) (d : A) (l : list A) :
  fold_right Rplus 0 (map F l) = big_sum (length l) (fun i => F (nth i l d)).
Proof.
  rewrite fold_right_big_sum, length_map.
  apply big_sum_ext. intros i Hi.
  rewrite (nth_indep _ 0 (F d)) by (rewrite length_map; exact Hi).
  apply map_nth.
Qed.

(** ** Prediction *)

(** The loop over the support vectors computes the sum of the
    specification, when the kernel computes [K] on them. *)
Lemma support_sum_spec (self : SVM) (K : vec -> vec -> R) (sup_X : matrix)
    (sup_y sup_alphas : vec) (x : vec) :
  length sup_X = length sup_alphas -> length sup_y = length sup_alphas ->
  (forall xi, In xi sup_X -> kernel_transform (kernel self) xi x = Ok (K xi x)) ->
  support_sum self sup_X sup_y sup_alphas x
  = Ok (big_sum (length sup_alphas)
          (fun i => nth i sup_alphas 0 * nth i sup_y 0 * K (nth i sup_X []) x)).
Proof.
  intros HlX Hly HK. unfold support_sum.
  rewrite (foldM_sum _ (fun s : list R * R * R =>
                          let '(xi, yi, ai) := s in ai * yi * K xi x)).
  - rewrite (fold_right_map_big_sum _ ([], 0, 0)).
    unfold zip3. rewrite !length_zip_with.
    replace (((length sup_X `min` length sup_y) `min` length sup_alphas))%nat
      with (length sup_alphas) by lia.
    f_equal. rewrite Rplus_0_l. apply big_sum_ext. intros i Hi.
    rewrite (nth_zip_with pair _ _ i ([], 0) 0)
      by (rewrite ?length_zip_with; lia).
    rewrite (nth_zip_with pair _ _ i [] 0) by lia.
    reflexivity.
  - intros [[xi yi] ai] acc' Hin.
    rewrite HK; [reflexivity|].
    unfold zip3 in Hin.
    apply list_elem_of_In in Hin.
    apply elem_of_zip_l in Hin. apply elem_of_zip_l in Hin.
    apply list_elem_of_In. exact Hin.
Qed.

Lemma compute_discriminant_spec (self : SVM) (K : vec -> vec -> R)
    (X : matrix) (sX : matrix) (sy sa : vec) (off : R) :
  sup_X_ self = Some sX -> sup_y_ self = Some sy ->
  sup_alphas_ self = Some sa -> offset_ self = Some off ->
  length sX = length sa -> length sy = length sa ->
  (forall xi x, In xi sX -> In x X ->
     kernel_transform (kernel self) xi x = Ok (K xi x)) ->
  _compute_discriminant self X = Ok (map (discriminant K sX sy sa off) X).
Proof.
  intros HsX Hsy Hsa Hoff HlX Hly HK. unfold _compute_discriminant.
  apply mapM_pure_on. intros x Hx.
  rewrite HsX, Hsy, Hsa, Hoff. simpl.
  rewrite (support_sum_spec self K sX sy sa x HlX Hly)
    by (intros xi Hxi; apply HK; assumption).
  reflexivity.
Qed.

(** C2.  On a fitted estimator whose three support arrays have one length,
    and whose kernel computes [K] on the support vectors and the rows of the
    validated input, [predict] returns one label per row: the label is [1]
    exactly when the discriminant
    [g(x) = sum_i(alpha_i*y_i*K(x_i,x)) + offset] of the row is above [0.5],
    and [0] otherwise. *)
Theorem predict_thresholds_discriminant
    (check_array : matrix -> result matrix) (self : SVM)
    (K : vec -> vec -> R) (X X' : matrix) (x_opt : vec)
    (sX : matrix) (sy sa : vec) (off : R) :
  opt_result_ self = Some x_opt ->
  sup_X_ self = Some sX -> sup_y_ self = Some sy ->
  sup_alphas_ self = Some sa -> offset_ self = Some off ->
  length sX = length sa -> length sy = length sa ->
  check_array X = Ok X' ->
  (forall xi x, In xi sX -> In x X' ->
     kernel_transform (kernel self) xi x = Ok (K xi x)) ->
  exists yhat,
    predict check_array self X = Ok yhat /\
    length yhat = length X' /\
    forall j x, X' !! j = Some x ->
      exists label,
        yhat !! j = Some label /\
        (label = 1%Z <-> discriminant K sX sy sa off x > 0.5) /\
        (label = 0%Z <-> ~ discriminant K sX sy sa off x > 0.5).
Proof.
  intros Hopt HsX Hsy Hsa Hoff HlX Hly Hchk HK.
  exists (map (fun gi => if Rgtb gi 0.5 then 1%Z else 0%Z)
              (map (discriminant K sX sy sa off) X')).
  split; [|split].
  - unfold predict, check_is_fitted.
    rewrite Hopt, HsX, Hsy, Hsa, Hoff. simpl. rewrite Hchk. simpl.
    rewrite (compute_discriminant_spec self K X' sX sy sa off); auto.
  - rewrite !length_map. reflexivity.
  - intros j x Hj.
    rewrite !lookup_map, Hj. simpl.
    eexists. split; [reflexivity|].
    unfold Rgtb, Rltb.
    destruct (Rlt_dec 0.5 (discriminant K sX sy sa off x)) as [Hgt|Hle].
    + split; split; intros H; try reflexivity; try discriminate;
        try assumption. contradiction.
    + split; split; intros H; try reflexivity; try discriminate;
        try assumption. contradiction.
Qed.

Lemma predict_thresholds_discriminant_witness :
  exists yhat,
    predict ex_check_array ex_fitted [[2]; [1]] = Ok yhat /\
    yhat !! 0%nat = Some 1%Z /\ yhat !! 1%nat = Some 0%Z.
Proof.
  destruct (predict_thresholds_discriminant ex_check_array ex_fitted inner
              [[2]; [1]] [[2]; [1]] [1] [[2]] [1] [1] (-3))
    as (yhat & Hp & _ & Hl); try reflexivity.
  - intros xi x [<-|[]] [<-|[<-|[]]]; simpl; apply dot_inner; reflexivity.
  - exists yhat. split; [exact Hp|]. split.
    + destruct (Hl 0%nat [2] eq_refl) as (l & Hl0 & H1 & _).
      rewrite Hl0. f_equal. apply H1.
      unfold discriminant, inner, big_sum. simpl. lra.
    + destruct (Hl 1%nat [1] eq_refl) as (l & Hl1 & _ & H0).
      rewrite Hl1. f_equal. apply H0.
      unfold discriminant, inner, big_sum. simpl. lra.
Defined.

(** ** The two losses *)

Lemma Forall_lookup_length (X : matrix) (m k : nat) (x : list R) :
  Forall (fun r => length r = m) X -> X !! k = Some x -> length x = m.
Proof.
  intros HF Hk. exact (Forall_lookup_1 _ _ _ _ HF Hk).
Qed.

(** The doubly-nested loop computes the negated dual objective. *)
Lemma loss_spec (self : SVM) (alphas : vec) (X : matrix) (y : vec) (m : nat) :
  kernel self = KernelObj LinearKernel ->
  length alphas = length X -> length y = length X ->
  Forall (fun r => length r = m) X ->
  _loss self alphas X y = Ok (-1 * dual_objective inner alphas X y).
Proof.
  intros Hker Hla Hly Hrect. unfold _loss, enumerate.
  rewrite (foldM_enumerate_sum _
             (fun i xi => big_sum (length X) (fun j =>
                nth i alphas 0 * nth j alphas 0 * nth i y 0 * nth j y 0
                * inner xi (nth j X []))) []).
  - simpl. f_equal. unfold dual_objective.
    rewrite np_sum_big_sum, Hla. lra.
  - intros k x acc' Hk. simpl.
    assert (Hlt : (k < length X)%nat) by (eapply lookup_lt_Some; eauto).
    rewrite (index_nth alphas k 0) by lia. simpl.
    rewrite (index_nth y k 0) by lia. simpl.
    rewrite (foldM_enumerate_sum _
               (fun j xj => nth k alphas 0 * nth j alphas 0 * nth k y 0
                            * nth j y 0 * inner x xj) []).
    + reflexivity.
    + intros j xj acc'' Hj. simpl.
      assert (Hjlt : (j < length X)%nat) by (eapply lookup_lt_Some; eauto).
      rewrite (index_nth alphas j 0) by lia. simpl.
      rewrite (index_nth y j 0) by lia. simpl.
      rewrite Hker. simpl.
      rewrite dot_inner; [reflexivity|].
      rewrite (Forall_lookup_length X m k x Hrect Hk).
      rewrite (Forall_lookup_length X m j xj Hrect Hj). reflexivity.
Qed.

Lemma bcast_vec_singleton (f : R -> R -> R) (a : R) (v : vec) :
  bcast_vec f [a] v = Ok (map (f a) v).
Proof.
  unfold bcast_vec, bcast. simpl length.
  destruct (Nat.eqb 1 (length v)) eqn:Hl.
  - apply Nat.eqb_eq in Hl. destruct v as [|x [|x' v]]; try discriminate.
    reflexivity.
  - apply mapM_pure_on. reflexivity.
Qed.

(** [y.reshape(-1, 1) * X] scales row [i] of [X] by [y[i]]. *)
Lemma scale_rows (y : vec) (X : matrix) :
  length y = length X ->
  bcast_mat Rmult (map (fun yi => [yi]) y) X
  = Ok (zip_with (fun yi xi => map (Rmult yi) xi) y X).
Proof.
  intros Hl. unfold bcast_mat, bcast.
  rewrite length_map, Hl, Nat.eqb_refl.
  clear Hl. revert X. induction y as [|yi y IH]; intros [|xi X]; simpl;
    try reflexivity.
  rewrite bcast_vec_singleton. simpl. rewrite IH. reflexivity.
Qed.

Lemma seq_map_nth (n : nat) (g : nat -> R) (j : nat) :
  (j < n)%nat -> nth j (map g (seq 0 n)) 0 = g j.
Proof.
  intros Hj.
  rewrite (nth_indep _ 0 (g 0%nat)) by (rewrite length_map, length_seq; exact Hj).
  rewrite map_nth, seq_nth by exact Hj. reflexivity.
Qed.

(** The matrix form computes the negated dual objective. *)
Lemma vectorized_loss_spec (self : SVM) (alphas : vec) (X : matrix) (y : vec)
    (m : nat) :
  kernel self = KernelObj LinearKernel ->
  length alphas = length X -> length y = length X ->
  Forall (fun r => length r = m) X ->
  _vectorized_loss self alphas X y = Ok (-1 * dual_objective inner alphas X y).
Proof.
  intros Hker Hla Hly Hrect. unfold _vectorized_loss.
  rewrite (scale_rows y X Hly). simpl.
  set (X_ := zip_with (fun yi xi => map (Rmult yi) xi) y X).
  assert (HlX_ : length X_ = length X).
  { subst X_. rewrite length_zip_with. lia. }
  assert (HnthX_ : forall i, (i < length X)%nat ->
            nth i X_ [] = map (Rmult (nth i y 0)) (nth i X [])).
  { intros i Hi. subst X_.
    apply (nth_zip_with (fun yi xi => map (Rmult yi) xi) y X i 0 [] []); lia. }
  assert (Hrect_ : forall a, In a X_ -> length a = m).
  { intros a Ha. apply (In_nth _ _ []) in Ha as (i & Hi & <-).
    rewrite HnthX_ by lia. rewrite length_map.
    rewrite Forall_forall in Hrect. apply Hrect.
    apply list_elem_of_In, nth_In. lia. }
  rewrite Hker. simpl. unfold dot_mat. simpl.
  rewrite (mapM_pure_on _ (fun a => map (inner a) X_)).
  2:{ intros a Ha. apply mapM_pure_on. intros c Hc.
      apply dot_inner. rewrite (Hrect_ a Ha), (Hrect_ c Hc). reflexivity. }
  simpl.
  set (H := map (fun a => map (inner a) X_) X_).
  assert (HlH : length H = length X) by (subst H; rewrite length_map; exact HlX_).
  assert (Hcols : match H with [] => 0%nat | r :: _ => length r end = length X).
  { subst H. destruct X_ as [|a X_'] eqn:HX_; simpl in *; [lia|].
    rewrite length_map. simpl. exact HlX_. }
  unfold vec_dot_mat. rewrite Hla, HlH, Nat.eqb_refl, Hcols. simpl.
  unfold dot. rewrite length_map, length_seq, Hla, Nat.eqb_refl.
  unfold dual_objective.
  rewrite (np_sum_big_sum alphas), Hla.
  rewrite (np_sum_zip_with Rmult _ alphas 0 0)
    by (rewrite length_map, length_seq; lia).
  rewrite length_map, length_seq.
  assert (Hrs :
    big_sum (length X)
      (fun i => nth i (map (fun j => np_sum (zip_with
                   (fun ai row => ai * nth j row 0) alphas H))
                   (seq 0 (length X))) 0 * nth i alphas 0)
    = big_sum (length X) (fun i => big_sum (length X) (fun j =>
        nth i alphas 0 * nth j alphas 0 * nth i y 0 * nth j y 0
        * inner (nth i X []) (nth j X [])))).
  { rewrite big_sum_exchange. apply big_sum_ext. intros j Hj.
    rewrite seq_map_nth by exact Hj.
    rewrite (np_sum_zip_with _ alphas H 0 []) by lia.
    rewrite Hla, <- big_sum_scal_r. apply big_sum_ext. intros i Hi.
    assert (Hij : nth j (nth i H []) 0 = inner (nth i X_ []) (nth j X_ [])).
    { subst H.
      rewrite (nth_indep _ [] (map (inner []) X_)) by (rewrite length_map; lia).
      rewrite (map_nth (fun a => map (inner a) X_) X_ [] i).
      rewrite (nth_indep _ 0 (inner (nth i X_ []) [])) by (rewrite length_map; lia).
      rewrite (map_nth (inner (nth i X_ [])) X_ [] j). reflexivity. }
    rewrite Hij, !HnthX_ by lia.
    rewrite inner_scale.
    - lra.
    - rewrite Forall_forall in Hrect.
      rewrite (Hrect (nth i X [])) by (apply list_elem_of_In, nth_In; lia).
      rewrite (Hrect (nth j X [])) by (apply list_elem_of_In, nth_In; lia).
      reflexivity. }
  rewrite Hrs. reflexivity.
Qed.

(** C1.  With the linear kernel, for dual variables, inputs and labels of
    matching sizes (any labels, [-1] and [+1] among them), the
    doubly-nested loss and the vectorized loss both return, and return the
    same number: the negated dual objective
    [-(sum_i alpha_i - 0.5 * sum_{i,j} alpha_i*alpha_j*y_i*y_j*<x_i,x_j>)].
    Over the reals the two are equal, with no tolerance. *)
Theorem losses_agree (self : SVM) (alphas : vec) (X : matrix) (y : vec) (m : nat) :
  kernel self = KernelObj LinearKernel ->
  length alphas = length X -> length y = length X ->
  Forall (fun r => length r = m) X ->
  exists v,
    _loss self alphas X y = Ok v /\
    _vectorized_loss self alphas X y = Ok v /\
    v = - dual_objective inner alphas X y.
Proof.
  intros Hker Hla Hly Hrect.
  exists (-1 * dual_objective inner alphas X y).
  split; [|split].
  - eapply loss_spec; eassumption.
  - eapply vectorized_loss_spec; eassumption.
  - lra.
Qed.

Lemma losses_agree_witness :
  exists v,
    _loss (ex_svm LinearKernel) [1; 2] ex_X ex_y = Ok v /\
    _vectorized_loss (ex_svm LinearKernel) [1; 2] ex_X ex_y = Ok v /\
    v = - dual_objective inner [1; 2] ex_X ex_y.
Proof.
  apply (losses_agree (ex_svm LinearKernel) [1; 2] ex_X ex_y 2); try reflexivity.
  repeat constructor.
Defined.

Lemma dual_objective_example : dual_objective inner [1; 2] ex_X ex_y = 0.5.
Proof.
  unfold dual_objective, inner, big_sum, ex_X, ex_y. simpl. lra.
Qed.

(** ** Extracting the support vectors *)

Lemma In_enumerate_from {A} (l : list A) (s i : nat) (a : A) :
  In (i, a) (enumerate_from s l) <->
  exists k, i = (s + k)%nat /\ l !! k = Some a.
Proof.
  revert s. induction l as [|x l IH]; intros s; simpl.
  - split; [tauto | intros (k & _ & H); discriminate].
  - rewrite IH. split.
    + intros [H|(k & -> & Hk)].
      * inversion H; subst. exists 0%nat. split; [lia | reflexivity].
      * exists (S k). split; [lia | exact Hk].
    + intros ([|k] & -> & Hk).
      * left. simpl in Hk. inversion Hk. f_equal. lia.
      * right. exists k. split; [lia | exact Hk].
Qed.

Lemma np_where_gt_In (v : vec) (t : R) (i : nat) :
  In i (np_where_gt v t) <-> exists a, v !! i = Some a /\ a > t.
Proof.
  unfold np_where_gt, enumerate. rewrite in_map_iff. split.
  - intros ([i' a] & <- & Hin). apply filter_In in Hin as (Hin & Hp).
    apply In_enumerate_from in Hin as (k & -> & Hk). simpl in *.
    exists a. split; [exact Hk|].
    unfold Rgtb, Rltb in Hp. destruct (Rlt_dec t a); [lra | discriminate].
  - intros (a & Ha & Hgt). exists (i, a). split; [reflexivity|].
    apply filter_In. split.
    + apply In_enumerate_from. exists i. auto.
    + simpl. apply Rgtb_true, Hgt.
Qed.

Lemma where_from_sorted (p : nat * R -> bool) (v : vec) (s : nat) :
  StronglySorted lt (map fst (List.filter p (enumerate_from s v))) /\
  Forall (le s) (map fst (List.filter p (enumerate_from s v))).
Proof.
  revert s. induction v as [|x v IH]; intros s; simpl.
  - split; constructor.
  - destruct (IH (S s)) as (Hs & Hge).
    assert (Hge' : Forall (le s) (map fst (List.filter p (enumerate_from (S s) v)))).
    { eapply Forall_impl; [exact Hge|]. simpl. intros; lia. }
    destruct (p (s, x)); simpl.
    + split.
      * constructor; [exact Hs|].
        eapply Forall_impl; [exact Hge|]. simpl. intros; lia.
      * constructor; [lia | exact Hge'].
    + split; assumption.
Qed.

Lemma np_where_gt_sorted (v : vec) (t : R) : StronglySorted lt (np_where_gt v t).
Proof. apply where_from_sorted. Qed.

Lemma take_idx_Ok {A} (a : list A) (idx : list nat) (r : list A) :
  take_idx a idx = Ok r ->
  length r = length idx /\
  forall k i, idx !! k = Some i ->
    exists v, a !! i = Some v /\ r !! k = Some v.
Proof.
  unfold take_idx. revert r. induction idx as [|i idx IH]; intros r H; simpl in H.
  - inversion H; subst. split; [reflexivity|]. intros k i Hk. discriminate.
  - bind_inv H. bind_inv H. inversion H; subst r. clear H.
    apply index_Ok in Ha. destruct (IH a1 Ha0) as (Hlen & Hall).
    split; [simpl; congruence|].
    intros [|k] i' Hk; simpl in *.
    + inversion Hk; subst i'. exists a0. auto.
    + apply Hall, Hk.
Qed.

Lemma take_idx_total {A} (a : list A) (idx : list nat) :
  (forall i, In i idx -> (i < length a)%nat) ->
  exists r, take_idx a idx = Ok r.
Proof.
  unfold take_idx. induction idx as [|i idx IH]; intros H; simpl.
  - eauto.
  - destruct (lookup_lt_is_Some_2 a i) as [v Hv]; [apply H; left; reflexivity|].
    rewrite (index_lookup _ _ _ Hv). simpl.
    destruct IH as (r & Hr); [intros j Hj; apply H; right; exact Hj|].
    rewrite Hr. simpl. eauto.
Qed.

Lemma take_idx_nil {A} (a : list A) : take_idx a [] = Ok [].
Proof. reflexivity. Qed.

Lemma np_where_gt_nil (v : vec) (t : R) :
  Forall (fun a => ~ a > t) v -> np_where_gt v t = [].
Proof.
  intros H. destruct (np_where_gt v t) as [|i idx] eqn:Heq; [reflexivity|].
  assert (Hin : In i (np_where_gt v t)) by (rewrite Heq; left; reflexivity).
  apply np_where_gt_In in Hin as (a & Ha & Hgt).
  exfalso. exact (Forall_lookup_1 _ _ _ _ H Ha Hgt).
Qed.

Lemma np_where_gt_cons (v : vec) (t : R) :
  Exists (fun a => a > t) v -> exists i idx, np_where_gt v t = i :: idx.
Proof.
  intros H. apply Exists_exists in H as (a & Hin & Hgt).
  apply list_elem_of_lookup_1 in Hin as (i & Hi).
  assert (Hi' : In i (np_where_gt v t)) by (apply np_where_gt_In; eauto).
  destruct (np_where_gt v t) as [|j idx]; [contradiction | eauto].
Qed.

(** ** [fit] *)

(** [fit] from the minimizer's result on: the three selections, then the
    offset. *)
Lemma fit_after_minimize
    (check_X_y : matrix -> vec -> result (matrix * vec))
    (unique_labels : vec -> result vec) (rand : nat -> vec)
    (minimize : (vec -> result R) -> vec -> vec -> result vec)
    (self : SVM) (X : matrix) (y : vec) (vectorized : option bool)
    (vec : bool) (X' : matrix) (y' classes x : list R) :
  resolve_vectorized self vectorized = Ok vec ->
  check_X_y X y = Ok (X', y') ->
  unique_labels y' = Ok classes ->
  minimize (fun alphas => (if vec then _vectorized_loss self else _loss self)
                            alphas X' (remap_labels y'))
           (rand (length X')) (remap_labels y') = Ok x ->
  fit check_X_y unique_labels rand minimize self X y vectorized =
  let self1 := mk_SVM (kernel self) (Some classes) (Some x) (sup_X_ self)
                      (sup_y_ self) (sup_alphas_ self) (offset_ self) in
  let sv_idx := np_where_gt x 0.001 in
  match take_idx X' sv_idx with
  | Raise e => (self1, Raise e)
  | Ok sX =>
      let self2 := mk_SVM (kernel self) (Some classes) (Some x) (Some sX)
                          (sup_y_ self) (sup_alphas_ self) (offset_ self) in
      match take_idx (remap_labels y') sv_idx with
      | Raise e => (self2, Raise e)
      | Ok sy =>
          let self3 := mk_SVM (kernel self) (Some classes) (Some x) (Some sX)
                              (Some sy) (sup_alphas_ self) (offset_ self) in
          match take_idx x sv_idx with
          | Raise e => (self3, Raise e)
          | Ok sa =>
              let self4 := mk_SVM (kernel self) (Some classes) (Some x)
                                  (Some sX) (Some sy) (Some sa) (offset_ self) in
              match _compute_offset self4 with
              | Raise e => (self4, Raise e)
              | Ok offset =>
                  (mk_SVM (kernel self) (Some classes) (Some x) (Some sX)
                          (Some sy) (Some sa) (Some offset), Ok tt)
              end
          end
      end
  end.
Proof.
  intros Hres Hchk Hcls Hmin. unfold fit. rewrite Hres, Hchk, Hcls. cbv zeta.
  change (minimize
            (fun alphas =>
               (if vec
                then _vectorized_loss
                       (mk_SVM (kernel self) (Some classes) (opt_result_ self)
                          (sup_X_ self) (sup_y_ self) (sup_alphas_ self)
                          (offset_ self))
                else _loss
                       (mk_SVM (kernel self) (Some classes) (opt_result_ self)
                          (sup_X_ self) (sup_y_ self) (sup_alphas_ self)
                          (offset_ self)))
                 alphas X' (remap_labels y'))
            (rand (length X')) (remap_labels y'))
    with (minimize
            (fun alphas => (if vec then _vectorized_loss self else _loss self)
                             alphas X' (remap_labels y'))
            (rand (length X')) (remap_labels y')).
  rewrite Hmin. simpl. reflexivity.
Qed.

(** A call of [fit] that returns went through every stage. *)
Lemma fit_Ok_inv
    (check_X_y : matrix -> vec -> result (matrix * vec))
    (unique_labels : vec -> result vec) (rand : nat -> vec)
    (minimize : (vec -> result R) -> vec -> vec -> result vec)
    (self : SVM) (X : matrix) (y : vec) (vectorized : option bool) :
  snd (fit check_X_y unique_labels rand minimize self X y vectorized) = Ok tt ->
  exists vec X' y' classes x sX sy sa off,
    resolve_vectorized self vectorized = Ok vec /\
    check_X_y X y = Ok (X', y') /\
    unique_labels y' = Ok classes /\
    minimize (fun alphas => (if vec then _vectorized_loss self else _loss self)
                              alphas X' (remap_labels y'))
             (rand (length X')) (remap_labels y') = Ok x /\
    take_idx X' (np_where_gt x 0.001) = Ok sX /\
    take_idx (remap_labels y') (np_where_gt x 0.001) = Ok sy /\
    take_idx x (np_where_gt x 0.001) = Ok sa /\
    _compute_offset (mk_SVM (kernel self) (Some classes) (Some x) (Some sX)
                            (Some sy) (Some sa) (offset_ self)) = Ok off /\
    fst (fit check_X_y unique_labels rand minimize self X y vectorized)
    = mk_SVM (kernel self) (Some classes) (Some x) (Some sX) (Some sy) (Some sa)
             (Some off).
Proof.
  intros H.
  destruct (resolve_vectorized self vectorized) as [vec|e] eqn:Hres.
  2:{ unfold fit in H. rewrite Hres in H. discriminate. }
  destruct (check_X_y X y) as [[X' y']|e] eqn:Hchk.
  2:{ unfold fit in H. rewrite Hres, Hchk in H. discriminate. }
  destruct (unique_labels y') as [classes|e] eqn:Hcls.
  2:{ unfold fit in H. rewrite Hres, Hchk, Hcls in H. discriminate. }
  destruct (minimize (fun alphas => (if vec then _vectorized_loss self
                                     else _loss self) alphas X' (remap_labels y'))
              (rand (length X')) (remap_labels y')) as [x|e] eqn:Hmin.
  2:{ unfold fit in H. rewrite Hres, Hchk, Hcls in H. cbv zeta in H.
      change (minimize
                (fun alphas =>
                   (if vec
                    then _vectorized_loss
                           (mk_SVM (kernel self) (Some classes)
                              (opt_result_ self) (sup_X_ self) (sup_y_ self)
                              (sup_alphas_ self) (offset_ self))
                    else _loss
                           (mk_SVM (kernel self) (Some classes)
                              (opt_result_ self) (sup_X_ self) (sup_y_ self)
                              (sup_alphas_ self) (offset_ self)))
                     alphas X' (remap_labels y'))
                (rand (length X')) (remap_labels y'))
        with (minimize
                (fun alphas => (if vec then _vectorized_loss self
                                else _loss self) alphas X' (remap_labels y'))
                (rand (length X')) (remap_labels y')) in H.
      rewrite Hmin in H. discriminate. }
  rewrite (fit_after_minimize check_X_y unique_labels rand minimize self X y
             vectorized vec X' y' classes x Hres Hchk Hcls Hmin) in *.
  cbv zeta in *.
  destruct (take_idx X' (np_where_gt x 0.001)) as [sX|e] eqn:HsX;
    [|discriminate].
  destruct (take_idx (remap_labels y') (np_where_gt x 0.001)) as [sy|e] eqn:Hsy;
    [|discriminate].
  destruct (take_idx x (np_where_gt x 0.001)) as [sa|e] eqn:Hsa;
    [|discriminate].
  destruct (_compute_offset _) as [off|e] eqn:Hoff; [|discriminate].
  exists vec, X', y', classes, x, sX, sy, sa, off. simpl. auto 10.
Qed.

(** C5.  A call of [fit] that returns has validated its input into [X'] and
    [y'] and has got the vector [x] from the minimizer, called with the loss
    on [X'] and the remapped labels; it has stored that [x] as the
    optimization result.  After it, [sup_X_], [sup_y_] and [sup_alphas_]
    have one length, the number of indices [i] at which the optimized
    [alpha_i = x[i]] is above [0.001]; entry [k] of the three arrays is the
    training example, its remapped label and its alpha at the [k]-th of
    these indices, taken in increasing order; and every entry of
    [sup_alphas_] is above [0.001]. *)
Theorem fit_support_vectors
    (check_X_y : matrix -> vec -> result (matrix * vec))
    (unique_labels : vec -> result vec) (rand : nat -> vec)
    (minimize : (vec -> result R) -> vec -> vec -> result vec)
    (self : SVM) (X : matrix) (y : vec) (vectorized : option bool) :
  snd (fit check_X_y unique_labels rand minimize self X y vectorized) = Ok tt ->
  let self' := fst (fit check_X_y unique_labels rand minimize self X y vectorized) in
  exists vec X' y' x sX sy sa off,
    resolve_vectorized self vectorized = Ok vec /\
    check_X_y X y = Ok (X', y') /\
    minimize (fun alphas => (if vec then _vectorized_loss self else _loss self)
                              alphas X' (remap_labels y'))
             (rand (length X')) (remap_labels y') = Ok x /\
    opt_result_ self' = Some x /\
    sup_X_ self' = Some sX /\ sup_y_ self' = Some sy /\
    sup_alphas_ self' = Some sa /\ offset_ self' = Some off /\
    let sv_idx := np_where_gt x 0.001 in
    length sX = length sv_idx /\ length sy = length sv_idx /\
    length sa = length sv_idx /\
    Forall (fun a => a > 0.001) sa /\
    (forall i, In i sv_idx <-> exists a, x !! i = Some a /\ a > 0.001) /\
    StronglySorted lt sv_idx /\
    (forall k i, sv_idx !! k = Some i ->
       exists xi yi ai,
         X' !! i = Some xi /\ remap_labels y' !! i = Some yi /\
         x !! i = Some ai /\
         sX !! k = Some xi /\ sy !! k = Some yi /\ sa !! k = Some ai).
Proof.
  intros H self'.
  destruct (fit_Ok_inv check_X_y unique_labels rand minimize self X y vectorized H)
    as (vec & X' & y' & classes & x & sX & sy & sa & off
        & Hres & Hchk & Hcls & Hmin & HsX & Hsy & Hsa & Hoff & Hfst).
  subst self'. rewrite Hfst. simpl.
  destruct (take_idx_Ok _ _ _ HsX) as (HlX & HX).
  destruct (take_idx_Ok _ _ _ Hsy) as (Hly & Hy).
  destruct (take_idx_Ok _ _ _ Hsa) as (Hla & Ha).
  exists vec, X', y', x, sX, sy, sa, off.
  repeat (split; [assumption || reflexivity|]).
  split; [|split; [|split]].
  - apply Forall_lookup_2. intros k a Hk.
    destruct (lookup_lt_is_Some_2 (np_where_gt x 0.001) k) as [i Hi].
    { rewrite <- Hla. eapply lookup_lt_Some; eauto. }
    destruct (Ha k i Hi) as (a' & Hxi & Hak).
    rewrite Hk in Hak. inversion Hak; subst a'.
    assert (Hin : In i (np_where_gt x 0.001)).
    { apply list_elem_of_In. eapply list_elem_of_lookup_2; eauto. }
    apply np_where_gt_In in Hin as (a'' & Hxi' & Hgt).
    congruence.
  - apply np_where_gt_In.
  - apply np_where_gt_sorted.
  - intros k i Hk.
    destruct (HX k i Hk) as (xi & HXi & HsXk).
    destruct (Hy k i Hk) as (yi & Hyi & Hsyk).
    destruct (Ha k i Hk) as (ai & Hai & Hsak).
    exists xi, yi, ai. auto 10.
Qed.

Lemma np_where_gt_example : np_where_gt [1; 0] 0.001 = [0%nat].
Proof.
  unfold np_where_gt, enumerate. simpl.
  rewrite Rgtb_true by lra. rewrite Rgtb_false by lra. reflexivity.
Qed.

(** A run of [fit] on two points in which the minimizer returns the dual
    variables [[1, 0]]: the first point is the one support vector. *)
Lemma fit_example_returns :
  snd (fit ex_check_X_y ex_unique_labels ex_rand (ex_minimize [1; 0]) (ex_svm LinearKernel)
           ex_X [1; 0] None) = Ok tt.
Proof.
  rewrite (fit_after_minimize ex_check_X_y ex_unique_labels ex_rand (ex_minimize [1; 0])
             (ex_svm LinearKernel) ex_X [1; 0] None true ex_X [1; 0] [1; 0]
             [1; 0])
    by reflexivity.
  cbv zeta. rewrite np_where_gt_example. reflexivity.
Qed.

(** On the two points [[1, 0]] and [[0, 1]] with the labels [1] and [0],
    when the minimizer returns the alphas [[1, 0]]: the stored result is
    that vector, and the first point, with its label and its alpha, is the
    one support vector. *)
Lemma fit_support_vectors_witness :
  snd (fit ex_check_X_y ex_unique_labels ex_rand (ex_minimize [1; 0])
           (ex_svm LinearKernel) ex_X [1; 0] None) = Ok tt /\
  opt_result_ (fst (fit ex_check_X_y ex_unique_labels ex_rand (ex_minimize [1; 0])
                  (ex_svm LinearKernel) ex_X [1; 0] None)) = Some [1; 0] /\
  sup_X_ (fst (fit ex_check_X_y ex_unique_labels ex_rand (ex_minimize [1; 0])
                  (ex_svm LinearKernel) ex_X [1; 0] None)) = Some [[1; 0]] /\
  sup_y_ (fst (fit ex_check_X_y ex_unique_labels ex_rand (ex_minimize [1; 0])
                  (ex_svm LinearKernel) ex_X [1; 0] None)) = Some [1] /\
  sup_alphas_ (fst (fit ex_check_X_y ex_unique_labels ex_rand (ex_minimize [1; 0])
                  (ex_svm LinearKernel) ex_X [1; 0] None)) = Some [1] /\
  Forall (fun a => a > 0.001) [1].
Proof.
  destruct (fit_support_vectors ex_check_X_y ex_unique_labels ex_rand (ex_minimize [1; 0])
              (ex_svm LinearKernel) ex_X [1; 0] None fit_example_returns)
    as (vec & X' & y' & x & sX & sy & sa & off & _ & Hchk & Hmin & Hx & HsX & Hsy
        & Hsa & _ & HlX & Hly & Hla & Hgt & _ & _ & Hk).
  unfold ex_check_X_y in Hchk. inversion Hchk; subst X' y'.
  unfold ex_minimize in Hmin. inversion Hmin; subst x.
  rewrite np_where_gt_example in HlX, Hly, Hla, Hk.
  destruct (Hk 0%nat 0%nat eq_refl)
    as (xi & yi & ai & HXi & Hyi & Hai & HsXk & Hsyk & Hsak).
  assert (Hy1 : remap_labels [1; 0] !! 0%nat = Some 1).
  { simpl. destruct (Req_dec_T 1 0); [lra | reflexivity]. }
  rewrite Hy1 in Hyi.
  inversion HXi; inversion Hyi; inversion Hai; subst xi yi ai.
  destruct sX as [|x0 [|? ?]]; try discriminate HlX.
  destruct sy as [|y0 [|? ?]]; try discriminate Hly.
  destruct sa as [|a0 [|? ?]]; try discriminate Hla.
  inversion HsXk; inversion Hsyk; inversion Hsak; subst x0 y0 a0.
  split; [exact fit_example_returns|].
  repeat (split; [assumption|]). exact Hgt.
Defined.

Lemma transform_total (k : Kernel) (xi xj : vec) :
  length xi = length xj -> exists r, transform k xi xj = Ok r.
Proof.
  intros Hl. destruct k; simpl.
  - rewrite (bcast_vec_same Rminus xi xj Hl). simpl. eauto.
  - rewrite (dot_inner xi xj Hl). eauto.
  - rewrite (dot_inner xi xj Hl). simpl. eauto.
  - rewrite (dot_inner xi xj Hl). simpl. eauto.
  - rewrite (dot_inner xi xj Hl). simpl. eauto.
Qed.

Lemma kernel_fun_Ok (k : Kernel) (xi xj : vec) :
  length xi = length xj ->
  kernel_transform (KernelObj k) xi xj = Ok (kernel_fun (KernelObj k) xi xj).
Proof.
  intros Hl. unfold kernel_fun. simpl.
  destruct (transform_total k xi xj Hl) as (r & ->). reflexivity.
Qed.

Lemma resolve_vectorized_Ok_kernel (self : SVM) (vectorized : option bool)
    (vec : bool) :
  resolve_vectorized self vectorized = Ok vec ->
  exists k, kernel self = KernelObj k.
Proof.
  unfold resolve_vectorized. destruct (kernel self) as [k|f]; simpl.
  - eauto.
  - discriminate.
Qed.

(** C9.  In a call of [fit] that has reached the optimization and got the
    vector [x] from it: if no entry of [x] is above [0.001], the three
    support arrays are empty, the offset computation indexes the first
    element of the empty [sup_X_] and the call raises [IndexError] without
    setting [offset_], so that a new estimator is still not fitted; if some
    entry of [x] is above [0.001] (and [x], the validated inputs and labels
    have one length, the inputs being rows of one size), [sup_X_] and
    [sup_y_] have a first element, the call returns, and the offset is
    [y_k - sum_i(alpha_i*y_i*K(x_i, x_k))] for the first support vector
    [k]. *)
Theorem fit_needs_a_support_vector
    (check_X_y : matrix -> vec -> result (matrix * vec))
    (unique_labels : vec -> result vec)
    (check_array : matrix -> result matrix) (rand : nat -> vec)
    (minimize : (vec -> result R) -> vec -> vec -> result vec)
    (self : SVM) (X : matrix) (y : vec) (vectorized : option bool)
    (vec : bool) (X' : matrix) (y' classes x : list R) :
  resolve_vectorized self vectorized = Ok vec ->
  check_X_y X y = Ok (X', y') ->
  unique_labels y' = Ok classes ->
  minimize (fun alphas => (if vec then _vectorized_loss self else _loss self)
                            alphas X' (remap_labels y'))
           (rand (length X')) (remap_labels y') = Ok x ->
  let r := fit check_X_y unique_labels rand minimize self X y vectorized in
  (Forall (fun a => ~ a > 0.001) x ->
     snd r = Raise IndexError /\
     sup_X_ (fst r) = Some [] /\
     offset_ (fst r) = offset_ self /\
     (offset_ self = None ->
      forall Xn, predict check_array (fst r) Xn = Raise NotFittedError)) /\
  (Exists (fun a => a > 0.001) x ->
   length x = length X' -> length y' = length X' ->
   (exists m, Forall (fun row => length row = m) X') ->
     exists xk yk sX sy sa off,
       snd r = Ok tt /\
       sup_X_ (fst r) = Some sX /\ sup_y_ (fst r) = Some sy /\
       sup_alphas_ (fst r) = Some sa /\ offset_ (fst r) = Some off /\
       sX !! 0%nat = Some xk /\ sy !! 0%nat = Some yk /\
       off = yk - big_sum (length sa)
                    (fun i => nth i sa 0 * nth i sy 0
                              * kernel_fun (kernel self) (nth i sX []) xk)).
Proof.
  intros Hres Hchk Hcls Hmin r. subst r.
  rewrite (fit_after_minimize check_X_y unique_labels rand minimize self X y
             vectorized vec X' y' classes x Hres Hchk Hcls Hmin).
  cbv zeta. split.
  - intros Hnone. rewrite (np_where_gt_nil x 0.001 Hnone).
    rewrite !take_idx_nil. simpl.
    repeat split.
    intros Hoff Xn. unfold predict, check_is_fitted. simpl. rewrite Hoff.
    reflexivity.
  - intros Hsome Hlx Hly (m & Hrect).
    destruct (resolve_vectorized_Ok_kernel self vectorized vec Hres) as (k & Hk).
    destruct (np_where_gt_cons x 0.001 Hsome) as (i0 & idx & Hidx).
    assert (Hlt : forall i, In i (np_where_gt x 0.001) -> (i < length x)%nat).
    { intros i Hi. apply np_where_gt_In in Hi as (a & Ha & _).
      eapply lookup_lt_Some; eauto. }
    destruct (take_idx_total X' (np_where_gt x 0.001)) as (sX & HsX).
    { intros i Hi. rewrite <- Hlx. apply Hlt, Hi. }
    destruct (take_idx_total (remap_labels y') (np_where_gt x 0.001))
      as (sy & Hsy).
    { intros i Hi. unfold remap_labels. rewrite length_map, Hly, <- Hlx.
      apply Hlt, Hi. }
    destruct (take_idx_total x (np_where_gt x 0.001)) as (sa & Hsa).
    { exact Hlt. }
    rewrite HsX, Hsy, Hsa.
    destruct (take_idx_Ok _ _ _ HsX) as (HlX & HX).
    destruct (take_idx_Ok _ _ _ Hsy) as (Hlsy & Hy).
    destruct (take_idx_Ok _ _ _ Hsa) as (Hlsa & Ha).
    rewrite Hidx in *. simpl in HlX, Hlsy, Hlsa.
    destruct (HX 0%nat i0 eq_refl) as (xk & HXk & Hxk).
    destruct (Hy 0%nat i0 eq_refl) as (yk & _ & Hyk).
    assert (Hrows : forall xi, In xi sX -> length xi = m).
    { intros xi Hxi. apply list_elem_of_In in Hxi.
      apply list_elem_of_lookup_1 in Hxi as (j & Hj).
      destruct (lookup_lt_is_Some_2 (i0 :: idx) j) as [i Hi].
      { simpl. rewrite <- HlX. eapply lookup_lt_Some; eauto. }
      destruct (HX j i Hi) as (xi' & HXi & Hj').
      rewrite Hj in Hj'. inversion Hj'; subst xi'.
      exact (Forall_lookup_1 _ _ _ _ Hrect HXi). }
    assert (Hoff : _compute_offset
                     (mk_SVM (kernel self) (Some classes) (Some x) (Some sX)
                        (Some sy) (Some sa) (offset_ self))
                   = Ok (yk - big_sum (length sa)
                           (fun i => nth i sa 0 * nth i sy 0
                              * kernel_fun (kernel self) (nth i sX []) xk))).
    { unfold _compute_offset. simpl.
      rewrite (index_lookup _ _ _ Hxk). simpl.
      rewrite (index_lookup _ _ _ Hyk). simpl.
      rewrite (support_sum_spec _ (kernel_fun (kernel self)) sX sy sa xk).
      - reflexivity.
      - lia.
      - lia.
      - intros xi Hxi. simpl. rewrite Hk. apply kernel_fun_Ok.
        rewrite (Hrows xi Hxi).
        symmetry. exact (Forall_lookup_1 _ _ _ _ Hrect HXk). }
    rewrite Hoff. simpl.
    exists xk, yk, sX, sy, sa. eexists. repeat split; try assumption.
Qed.

Lemma fit_needs_a_support_vector_witness :
  snd (fit ex_check_X_y ex_unique_labels ex_rand (ex_minimize [0; 0]) (ex_svm LinearKernel)
           ex_X [1; 0] None) = Raise IndexError /\
  (forall Xn,
      predict ex_check_array
        (fst (fit ex_check_X_y ex_unique_labels ex_rand (ex_minimize [0; 0])
                  (ex_svm LinearKernel) ex_X [1; 0] None)) Xn
      = Raise NotFittedError) /\
  exists off,
    snd (fit ex_check_X_y ex_unique_labels ex_rand (ex_minimize [1; 0]) (ex_svm LinearKernel)
             ex_X [1; 0] None) = Ok tt /\
    offset_ (fst (fit ex_check_X_y ex_unique_labels ex_rand (ex_minimize [1; 0])
                      (ex_svm LinearKernel) ex_X [1; 0] None)) = Some off.
Proof.
  destruct (fit_needs_a_support_vector ex_check_X_y ex_unique_labels ex_check_array ex_rand
              (ex_minimize [0; 0]) (ex_svm LinearKernel) ex_X [1; 0] None
              true ex_X [1; 0] [1; 0] [0; 0] eq_refl eq_refl eq_refl eq_refl)
    as (Hnone & _).
  destruct (fit_needs_a_support_vector ex_check_X_y ex_unique_labels ex_check_array ex_rand
              (ex_minimize [1; 0]) (ex_svm LinearKernel) ex_X [1; 0] None
              true ex_X [1; 0] [1; 0] [1; 0] eq_refl eq_refl eq_refl eq_refl)
    as (_ & Hsome).
  destruct Hnone as (Hraise & _ & _ & Hpred).
  { repeat constructor; lra. }
  destruct Hsome as (xk & yk & sX & sy & sa & off & Hok & _ & _ & _ & Hoff & _).
  { apply Exists_cons_hd. lra. }
  { reflexivity. }
  { reflexivity. }
  { exists 2%nat. repeat constructor. }
  split; [exact Hraise|]. split; [apply Hpred; reflexivity|].
  exists off. auto.
Defined.

(** ** The constructors of the optimizers *)

Lemma alloc_layers_cons (m0 m1 : nat) (M : list nat) (h : heap) :
  alloc_layers (m0 :: m1 :: M) h =
  let '(lWs, lbs, h') :=
    alloc_layers (m1 :: M)
      (mk_heap (mats h ++ [zeros2 m0 m1]) (vecs h ++ [zeros m1])) in
  (length (mats h) :: lWs, length (vecs h) :: lbs, h').
Proof. reflexivity. Qed.

(** The arrays that the constructors allocate: for every layer transition
    [(M[i], M[i+1])] a zero matrix and a zero vector of the layer's shape,
    after the arrays that were in the store. *)
Lemma alloc_layers_spec (M : list nat) (h : heap) (lWs lbs : list loc) (h' : heap) :
  alloc_layers M h = (lWs, lbs, h') ->
  (exists newW newb, h' = mk_heap (mats h ++ newW) (vecs h ++ newb)) /\
  forall i m0 m1, M !! i = Some m0 -> M !! S i = Some m1 ->
    exists lW lb,
      lWs !! i = Some lW /\ lbs !! i = Some lb /\
      mats h' !! lW = Some (zeros2 m0 m1) /\
      vecs h' !! lb = Some (zeros m1).
Proof.
  revert h lWs lbs h'. induction M as [|m0 M IH]; intros h lWs lbs h' H.
  - simpl in H. inversion H; subst. split.
    + exists [], []. rewrite !app_nil_r. symmetry. apply heap_eta.
    + intros i m0 m1 Hi. discriminate.
  - destruct M as [|m1 M'].
    + simpl in H. inversion H; subst. split.
      * exists [], []. rewrite !app_nil_r. symmetry. apply heap_eta.
      * intros [|i] a c Hi HSi; discriminate.
    + rewrite alloc_layers_cons in H.
      destruct (alloc_layers (m1 :: M')
                  (mk_heap (mats h ++ [zeros2 m0 m1]) (vecs h ++ [zeros m1])))
        as [[lWs' lbs'] h1] eqn:Hrec.
      inversion H; subst. clear H.
      destruct (IH _ _ _ _ Hrec) as ((newW & newb & Hh') & Hall).
      cbn [mats vecs] in Hh'. split.
      * exists (zeros2 m0 m1 :: newW), (zeros m1 :: newb).
        rewrite Hh', <- !app_assoc. reflexivity.
      * intros [|i] a c Hi HSi.
        -- simpl in Hi, HSi. inversion Hi; inversion HSi; subst.
           exists (length (mats h)), (length (vecs h)).
           repeat split.
           ++ cbn [mats]. rewrite <- app_assoc.
              apply list_lookup_middle. reflexivity.
           ++ cbn [vecs]. rewrite <- app_assoc.
              apply list_lookup_middle. reflexivity.
        -- destruct (Hall i a c Hi HSi) as (lW & lb & H1 & H2 & H3 & H4).
           exists lW, lb. auto.
Qed.

(** A new AdaGrad optimizer has a cache of zeros for every layer: the
    caches start non-negative, and [cache_after] keeps them so. *)
Lemma adagrad_init_caches (D K : nat) (hidden_layer_sizes : list nat)
    (lr epsilon : R) (h : heap) (self : AdaGradOptimizer.t) (h' : heap) :
  AdaGradOptimizer.init D K hidden_layer_sizes lr epsilon h = (self, h') ->
  AdaGradOptimizer.lr self = lr /\
  AdaGradOptimizer.epsilon self = epsilon /\
  forall i m0 m1,
    layer_sizes D K hidden_layer_sizes !! i = Some m0 ->
    layer_sizes D K hidden_layer_sizes !! S i = Some m1 ->
    exists lcW lcb,
      AdaGradOptimizer.cW_ self !! i = Some lcW /\
      AdaGradOptimizer.cb_ self !! i = Some lcb /\
      mats h' !! lcW = Some (zeros2 m0 m1) /\
      vecs h' !! lcb = Some (zeros m1).
Proof.
  unfold AdaGradOptimizer.init. intros H.
  destruct (alloc_layers (layer_sizes D K hidden_layer_sizes) h)
    as [[cW cb] h1] eqn:Hal.
  inversion H; subst. simpl.
  repeat split. apply (alloc_layers_spec _ _ _ _ _ Hal).
Qed.

(** A new momentum optimizer has a velocity of zeros for every layer. *)
Lemma momentum_init_velocities (D K : nat) (hidden_layer_sizes : list nat)
    (lr mu reg : R) (clip_thresh : threshold) (h : heap)
    (self : MomentumOptimizer.t) (h' : heap) :
  MomentumOptimizer.init D K hidden_layer_sizes lr mu reg clip_thresh h
    = (self, h') ->
  MomentumOptimizer.lr self = lr /\
  MomentumOptimizer.mu self = mu /\
  MomentumOptimizer.reg self = reg /\
  MomentumOptimizer.clip_thresh self = clip_thresh /\
  forall i m0 m1,
    layer_sizes D K hidden_layer_sizes !! i = Some m0 ->
    layer_sizes D K hidden_layer_sizes !! S i = Some m1 ->
    exists lvW lvb,
      MomentumOptimizer.vW_ self !! i = Some lvW /\
      MomentumOptimizer.vb_ self !! i = Some lvb /\
      mats h' !! lvW = Some (zeros2 m0 m1) /\
      vecs h' !! lvb = Some (zeros m1).
Proof.
  unfold MomentumOptimizer.init. intros H.
  destruct (alloc_layers (layer_sizes D K hidden_layer_sizes) h)
    as [[vW vb] h1] eqn:Hal.
  inversion H; subst. simpl.
  repeat split. apply (alloc_layers_spec _ _ _ _ _ Hal).
Qed.

(** Every entry of a new cache is zero, hence not negative. *)
Lemma zeros2_entry (r c i j : nat) (x : R) :
  entry (zeros2 r c) i j = Some x -> x = 0.
Proof.
  unfold entry, zeros2, zeros. intros H.
  destruct (repeat (repeat 0 c) r !! i) as [row|] eqn:Hrow; [|discriminate].
  apply list_elem_of_lookup_2 in Hrow. apply list_elem_of_In, repeat_spec in Hrow.
  subst row. apply list_elem_of_lookup_2 in H.
  apply list_elem_of_In, repeat_spec in H. exact H.
Qed.

(** * Further properties of the code *)

(** ** The kernel classes *)

Lemma bind_kwargs_Raise (params : list string) (kw : kwargs) (e : exn) :
  bind_kwargs params kw = Raise e ->
  e = TypeError "__init__() got an unexpected keyword argument".
Proof.
  unfold bind_kwargs. destruct (forallb _ kw); intros H; inversion H; reflexivity.
Qed.

(** X1.  The constructor of [GaussianKernel], given keywords that it
    accepts, raises its
    [ValueError] exactly when the radius (given, or the default [0.5]) is not
    positive; a kernel that it returns stores that radius, which is
    positive. *)
Theorem GaussianKernel_init_radius (kw : kwargs) :
  bind_kwargs ["radius"%string] kw = Ok tt ->
  let radius := num_val (kw_get kw "radius" (PyFloat 0.5)) in
  (radius <= 0 ->
   GaussianKernel_init kw = Raise (ValueError "radius must be greater than zero.")) /\
  (0 < radius -> GaussianKernel_init kw = Ok (GaussianKernel radius)) /\
  (forall k, GaussianKernel_init kw = Ok k ->
             k = GaussianKernel radius /\ 0 < radius).
Proof.
  intros Hkw radius. unfold GaussianKernel_init. rewrite Hkw. simpl.
  fold radius. destruct (Rle_dec radius 0) as [Hle|Hgt].
  - split; [reflexivity|]. split; [intros; lra|]. intros k Hk. discriminate.
  - split; [intros; lra|]. split; [reflexivity|].
    intros k Hk. inversion Hk. split; [reflexivity | lra].
Qed.

Lemma GaussianKernel_init_radius_witness :
  GaussianKernel_init [("radius"%string, PyInt 0)]
  = Raise (ValueError "radius must be greater than zero.") /\
  GaussianKernel_init [("radius"%string, PyInt 2)] = Ok (GaussianKernel (INR 2)).
Proof.
  split.
  - apply (GaussianKernel_init_radius [("radius"%string, PyInt 0)] eq_refl).
    simpl. lra.
  - apply (GaussianKernel_init_radius [("radius"%string, PyInt 2)] eq_refl).
    simpl. lra.
Defined.

Lemma zip_with_Rmult_comm (u v : vec) : zip_with Rmult u v = zip_with Rmult v u.
Proof.
  revert v. induction u as [|a u IH]; intros [|c v]; simpl; try reflexivity.
  f_equal; [lra | apply IH].
Qed.

Lemma dot_comm (xi xj : vec) : dot xi xj = dot xj xi.
Proof.
  unfold dot. rewrite (Nat.eqb_sym (length xj)), zip_with_Rmult_comm.
  reflexivity.
Qed.

Lemma mapM_pure {A B} (g : A -> B) (l : list A) :
  mapM (fun a => Ok (g a)) l = Ok (map g l).
Proof. apply mapM_pure_on. reflexivity. Qed.

Lemma zip_with_Rminus_opp (u v : vec) :
  zip_with Rminus v u = map Ropp (zip_with Rminus u v).
Proof.
  revert v. induction u as [|a u IH]; intros [|c v]; simpl; try reflexivity.
  f_equal; [lra | apply IH].
Qed.

(** Swapping the operands of a broadcast subtraction negates every entry,
    and raises when the first order raises. *)
Lemma bcast_vec_Rminus_swap (u v : vec) :
  bcast_vec Rminus v u
  = match bcast_vec Rminus u v with
    | Ok d => Ok (map Ropp d)
    | Raise e => Raise e
    end.
Proof.
  unfold bcast_vec, bcast. rewrite (Nat.eqb_sym (length v)).
  destruct (Nat.eqb (length u) (length v)) eqn:Hl.
  - rewrite !map2M_pure. f_equal. apply zip_with_Rminus_opp.
  - apply Nat.eqb_neq in Hl.
    destruct u as [|a [|a' u]]; destruct v as [|c [|c' v]]; simpl in Hl;
      try lia; try reflexivity;
      rewrite ?mapM_pure; simpl; f_equal; rewrite ?map_map;
      repeat match goal with
             | |- _ :: _ = _ :: _ => f_equal; [lra|]
             end;
      try reflexivity; apply map_ext; intros; lra.
Qed.

Lemma np_sum_squares_opp (d : vec) :
  np_sum (map (fun x => x ^ 2) (map Ropp d)) = np_sum (map (fun x => x ^ 2) d).
Proof.
  rewrite map_map. f_equal. apply map_ext. intros x. lra.
Qed.

(** X2.  Every kernel is symmetric: [transform(xi, xj)] and
    [transform(xj, xi)] return the same number, or raise the same error. *)
Theorem transform_symmetric (k : Kernel) (xi xj : vec) :
  transform k xi xj = transform k xj xi.
Proof.
  destruct k; simpl; rewrite ?(dot_comm xi xj); try reflexivity.
  rewrite (bcast_vec_Rminus_swap xi xj).
  destruct (bcast_vec Rminus xi xj) as [d|e]; simpl; [|reflexivity].
  rewrite np_sum_squares_opp. reflexivity.
Qed.

Lemma np_sum_zeros {A} (l : list A) : np_sum (map (fun _ => 0) l) = 0.
Proof.
  unfold np_sum. rewrite fold_left_Rplus.
  induction l as [|a l IH]; simpl; [lra|]. simpl in IH. lra.
Qed.

Lemma squares_of_self_difference (x : vec) :
  map (fun v => v ^ 2) (zip_with Rminus x x) = map (fun _ => 0) x.
Proof.
  induction x as [|a x IH]; simpl; [reflexivity|].
  f_equal; [ring | exact IH].
Qed.

Lemma inner_self (x : vec) :
  inner x x = big_sum (length x) (fun i => nth i x 0 ^ 2).
Proof.
  unfold inner. apply big_sum_ext. intros i _. ring.
Qed.

(** X3.  A vector against itself: the linear kernel returns the sum of its
    squared entries, the polynomial, sigmoid and tanh kernels return their
    function of that sum, and the Gaussian kernel (of a nonzero radius)
    returns [1]. *)
Theorem transform_of_a_vector_with_itself (x : vec) :
  let n2 := big_sum (length x) (fun i => nth i x 0 ^ 2) in
  transform LinearKernel x x = Ok n2 /\
  (forall degree,
      transform (PolynomialKernel degree) x x = Ok (py_pow (1 + n2) degree)) /\
  transform SigmoidKernel x x = Ok (1 / (1 + exp (- n2))) /\
  transform TanHKernel x x = Ok (tanh n2) /\
  (forall radius, radius <> 0 -> transform (GaussianKernel radius) x x = Ok 1).
Proof.
  intros n2. subst n2. simpl.
  rewrite (dot_inner x x eq_refl), inner_self. simpl.
  repeat split; try reflexivity.
  intros radius Hr.
  rewrite (bcast_vec_same Rminus x x eq_refl). simpl.
  rewrite squares_of_self_difference, np_sum_zeros, sqrt_0.
  replace (- 0 ^ 2 / radius ^ 2) with 0 by (unfold Rdiv; ring).
  rewrite exp_0. reflexivity.
Qed.

Lemma transform_of_a_vector_with_itself_witness :
  transform (GaussianKernel 0.5) [3; 4] [3; 4] = Ok 1.
Proof.
  apply (transform_of_a_vector_with_itself [3; 4]). lra.
Defined.

Lemma exp_nonpos_le_1 (e : R) : e <= 0 -> exp e <= 1.
Proof.
  intros [Hlt|Heq].
  - left. rewrite <- exp_0. apply exp_increasing, Hlt.
  - subst e. rewrite exp_0. lra.
Qed.

Lemma tanh_bounds (d : R) : -1 < tanh d < 1.
Proof.
  unfold tanh, sinh, cosh.
  pose proof (exp_pos d) as Ha. pose proof (exp_pos (- d)) as Hb.
  set (a := exp d) in *. set (c := exp (- d)) in *.
  assert (Hden : 0 < (a + c) / 2) by lra.
  split.
  - apply (Rmult_lt_reg_r ((a + c) / 2)); [exact Hden|].
    unfold Rdiv at 2. rewrite Rmult_assoc, Rinv_l by lra. lra.
  - apply (Rmult_lt_reg_r ((a + c) / 2)); [exact Hden|].
    unfold Rdiv at 1. rewrite Rmult_assoc, Rinv_l by lra. lra.
Qed.

(** X4.  The values of three kernels are bounded: a Gaussian kernel of a
    nonzero radius returns a number in [[0, 1]], the sigmoid kernel one in
    [[0, 1]], the tanh kernel one in [[-1, 1]].  The intervals are closed:
    the rounded [exp] and [tanh] of the source reach their ends. *)
Theorem transform_bounded (xi xj : vec) (v : R) :
  (forall radius, radius <> 0 ->
     transform (GaussianKernel radius) xi xj = Ok v -> 0 <= v <= 1) /\
  (transform SigmoidKernel xi xj = Ok v -> 0 <= v <= 1) /\
  (transform TanHKernel xi xj = Ok v -> -1 <= v <= 1).
Proof.
  split; [|split].
  - intros radius Hr H. simpl in H. bind_inv H. inversion H; subst v.
    split; [left; apply exp_pos|]. apply exp_nonpos_le_1.
    set (n := sqrt (np_sum (map (fun x => x ^ 2) a))).
    assert (Hr2 : 0 < radius ^ 2) by nra.
    assert (Hn2 : 0 <= n ^ 2) by nra.
    unfold Rdiv.
    assert (Hinv : 0 < / radius ^ 2) by (apply Rinv_0_lt_compat, Hr2).
    nra.
  - intros H. simpl in H. bind_inv H. inversion H; subst v.
    pose proof (exp_pos (- a)) as He.
    unfold Rdiv. rewrite Rmult_1_l.
    assert (Hinv : 0 < / (1 + exp (- a))) by (apply Rinv_0_lt_compat; lra).
    split; [left; exact Hinv|].
    left. rewrite <- Rinv_1 at 2. apply Rinv_lt_contravar; lra.
  - intros H. simpl in H. bind_inv H. inversion H; subst v.
    pose proof (tanh_bounds a). lra.
Qed.

Lemma transform_bounded_witness :
  exists v, transform (GaussianKernel 0.5) [1; 2] [0; 0] = Ok v /\ 0 <= v <= 1.
Proof.
  eexists. split; [reflexivity|].
  apply (proj1 (transform_bounded [1; 2] [0; 0] _) 0.5); [lra | reflexivity].
Defined.

Lemma dot_Ok_iff (xi xj : vec) :
  (exists v, dot xi xj = Ok v) <-> length xi = length xj.
Proof.
  unfold dot. destruct (Nat.eqb_spec (length xi) (length xj)) as [Heq|Hne].
  - split; [auto | eauto].
  - split; [intros (v & H); discriminate | contradiction].
Qed.

Lemma bcast_vec_Ok_iff (f : R -> R -> R) (u v : vec) :
  (exists d, bcast_vec f u v = Ok d) <->
  length u = length v \/ length u = 1%nat \/ length v = 1%nat.
Proof.
  unfold bcast_vec, bcast.
  destruct (Nat.eqb_spec (length u) (length v)) as [Heq|Hne].
  - rewrite map2M_pure. split; [auto | eauto].
  - destruct u as [|a [|a' u]]; destruct v as [|c [|c' v]]; simpl in *;
      rewrite ?mapM_pure;
      (split; [intros (d & H); try discriminate; auto
              | intros [H|[H|H]]; try lia; eauto]).
Qed.

(** X5.  A kernel returns a number exactly when the sizes of its two
    arguments are compatible: equal, or (for the Gaussian kernel only, whose
    subtraction broadcasts) one of them of size one.  Otherwise it raises a
    [ValueError]. *)
Theorem transform_returns_iff_sizes_compatible (k : Kernel) (xi xj : vec) :
  ((exists v, transform k xi xj = Ok v) <->
   length xi = length xj \/
   (exists radius, k = GaussianKernel radius) /\
   (length xi = 1%nat \/ length xj = 1%nat)) /\
  (forall e, transform k xi xj = Raise e -> exists msg, e = ValueError msg).
Proof.
  split.
  - destruct k; simpl.
    1:{ split.
        - intros (v & H). bind_inv H.
          destruct (proj1 (bcast_vec_Ok_iff Rminus xi xj)) as [H1|H1]; eauto.
        - intros H.
          destruct (proj2 (bcast_vec_Ok_iff Rminus xi xj)) as (d & Hd).
          { destruct H as [H|(_ & H)]; auto. }
          rewrite Hd. simpl. eauto. }
    all: split;
      [ intros (v & H); left; apply dot_Ok_iff;
        destruct (dot xi xj) as [d|e]; [eauto | discriminate]
      | intros [H|((r & Hr) & _)]; [|discriminate];
        destruct (proj2 (dot_Ok_iff xi xj) H) as (d & Hd);
        rewrite Hd; simpl; eauto ].
  - intros e H.
    assert (Hdot : forall e', dot xi xj = Raise e' -> exists msg, e' = ValueError msg).
    { unfold dot. intros e'. destruct (Nat.eqb _ _); intros He'; inversion He'.
      eauto. }
    assert (Hb : forall e', bcast_vec Rminus xi xj = Raise e' ->
                            exists msg, e' = ValueError msg).
    { unfold bcast_vec, bcast. intros e'. rewrite map2M_pure.
      destruct (Nat.eqb _ _); [discriminate|].
      destruct xi as [|a [|a' u]]; destruct xj as [|c [|c' v]];
        rewrite ?mapM_pure; intros He'; inversion He'; eauto. }
    destruct k; simpl in H.
    1:{ destruct (bcast_vec Rminus xi xj) as [d|e'] eqn:Hd; simpl in H;
          [discriminate|]. inversion H; subst. eauto. }
    all: destruct (dot xi xj) as [d|e'] eqn:Hd; simpl in H;
      try discriminate; inversion H; subst; eauto.
Qed.

Lemma transform_returns_iff_sizes_compatible_witness :
  (exists v, transform (GaussianKernel 0.5) [1] [1; 2; 3] = Ok v) /\
  exists msg, transform LinearKernel [1] [1; 2; 3] = Raise (ValueError msg).
Proof.
  split.
  - apply (proj1 (transform_returns_iff_sizes_compatible
                    (GaussianKernel 0.5) [1] [1; 2; 3])).
    right. split; [eauto | left; reflexivity].
  - destruct (proj2 (transform_returns_iff_sizes_compatible
                       LinearKernel [1] [1; 2; 3]) _ eq_refl) as (msg & Hmsg).
    exists msg. simpl. unfold dot. simpl. f_equal. exact Hmsg.
Defined.

(** ** Constructing the estimator, and using it before it is fitted *)

Lemma KERNEL_MAP_get_Some (s : string) (init : kwargs -> result Kernel) :
  KERNEL_MAP_get s = Some init ->
  In (s, init) KERNEL_MAP.
Proof.
  unfold KERNEL_MAP_get, KERNEL_MAP. cbn -[String.eqb]. intros H.
  repeat match type of H with
         | context [String.eqb ?a s] =>
             destruct (String.eqb_spec a s); cbn -[String.eqb] in H
         end;
    try discriminate; inversion H; subst; simpl; tauto.
Qed.

Lemma kernel_init_name (s : string) (init : kwargs -> result Kernel)
    (kw : kwargs) (k : Kernel) :
  In (s, init) KERNEL_MAP -> init kw = Ok k -> name k = s.
Proof.
  unfold KERNEL_MAP. simpl.
  intros [H|[H|[H|[H|[H|[]]]]]] Hk; inversion H; subst; clear H;
    unfold GaussianKernel_init, LinearKernel_init, PolynomialKernel_init,
           SigmoidKernel_init, TanHKernel_init in Hk;
    bind_inv Hk;
    repeat match type of Hk with
           | context [if ?c then _ else _] => destruct c
           end;
    inversion Hk; reflexivity.
Qed.

(** X6.  An estimator constructed from a key string holds a kernel whose
    [name] is that key, one of the five of [KERNEL_MAP], and none of the
    attributes that [fit] sets. *)
Theorem SVM_init_kernel_has_the_name_of_its_key (s : string) (kw : kwargs)
    (svm : SVM) :
  SVM_init (KStr s) kw = Ok svm ->
  kernel_name (kernel svm) = Ok s /\
  In s (map fst KERNEL_MAP) /\
  classes_ svm = None /\ opt_result_ svm = None /\ sup_X_ svm = None /\
  sup_y_ svm = None /\ sup_alphas_ svm = None /\ offset_ svm = None.
Proof.
  unfold SVM_init, call_kernel_class. intros H.
  destruct (KERNEL_MAP_get s) as [init|] eqn:Hget; simpl in H; [|discriminate].
  destruct (init kw) as [k|e] eqn:Hk; simpl in H; [|discriminate].
  inversion H; subst svm. simpl.
  pose proof (KERNEL_MAP_get_Some s init Hget) as Hin.
  rewrite (kernel_init_name s init kw k Hin Hk).
  repeat split.
  apply (in_map fst) in Hin. exact Hin.
Qed.

Lemma SVM_init_kernel_has_the_name_of_its_key_witness :
  kernel_name (kernel (ex_svm (PolynomialKernel (PyInt 3)))) = Ok "polynomial"%string.
Proof.
  apply (SVM_init_kernel_has_the_name_of_its_key "polynomial"
           [("degree"%string, PyInt 3)] (ex_svm (PolynomialKernel (PyInt 3)))).
  reflexivity.
Defined.

(** X7.  What the constructor rejects and what it lets through: any string
    that is no key of [KERNEL_MAP] raises [TypeError], whatever the keyword
    arguments; a value that is neither a string nor callable raises the
    [ValueError] written for it; a callable is stored as it is, unfitted,
    and the keyword arguments are not looked at. *)
Theorem SVM_init_rejects (kernel_args : kwargs) :
  (forall s, ~ In s (map fst KERNEL_MAP) ->
     SVM_init (KStr s) kernel_args
     = Raise (TypeError "'NoneType' object is not callable")) /\
  SVM_init KOther kernel_args
  = Raise (ValueError "Kernel must be a string or callable.") /\
  (forall f, SVM_init (KCallable f) kernel_args
             = Ok (mk_SVM (KernelFun f) None None None None None None)).
Proof.
  split; [|split].
  - intros s Hs. apply SVM_init_invalid_key, Hs.
  - reflexivity.
  - reflexivity.
Qed.

Lemma SVM_init_rejects_witness :
  SVM_init (KStr "Linear") [("degree"%string, PyInt 2)]
  = Raise (TypeError "'NoneType' object is not callable").
Proof.
  apply (proj1 (SVM_init_rejects [("degree"%string, PyInt 2)]) "Linear"%string).
  simpl. intros [H|[H|[H|[H|[H|[]]]]]]; discriminate.
Defined.

(** X8.  [predict] on an estimator as the constructor returns it raises
    [NotFittedError], whatever the input and the validation of it. *)
Theorem predict_before_fit_raises_NotFittedError
    (check_array : matrix -> result matrix) (kernel : kernel_arg)
    (kernel_args : kwargs) (svm : SVM) (X : matrix) :
  SVM_init kernel kernel_args = Ok svm ->
  predict check_array svm X = Raise NotFittedError.
Proof.
  unfold SVM_init. intros H.
  bind_inv H. destruct a as [k|]; [|discriminate].
  inversion H; subst svm. reflexivity.
Qed.

Lemma predict_before_fit_raises_NotFittedError_witness :
  predict ex_check_array (ex_svm LinearKernel) [[1; 2]] = Raise NotFittedError.
Proof.
  apply (predict_before_fit_raises_NotFittedError ex_check_array
           (KStr "linear") [] (ex_svm LinearKernel) [[1; 2]]).
  reflexivity.
Defined.

Lemma mapM_length {A B} (f : A -> result B) (l : list A) (r : list B) :
  mapM f l = Ok r -> length r = length l.
Proof.
  revert r. induction l as [|a l IH]; intros r H; simpl in H.
  - inversion H. reflexivity.
  - bind_inv H. bind_inv H. inversion H; subst r. simpl. f_equal.
    apply IH. assumption.
Qed.

(** X9.  Whatever [predict] returns is one label per row of the validated
    input, each label [0] or [1]. *)
Theorem predict_returns_binary_labels
    (check_array : matrix -> result matrix) (self : SVM) (X : matrix)
    (yhat : list Z) :
  predict check_array self X = Ok yhat ->
  exists X', check_array X = Ok X' /\
             length yhat = length X' /\
             Forall (fun label => label = 0%Z \/ label = 1%Z) yhat.
Proof.
  unfold predict. intros H.
  apply bind_Ok in H as (u & _ & H).
  apply bind_Ok in H as (X' & HX' & H).
  apply bind_Ok in H as (g & Hg & H).
  inversion H; subst yhat. exists X'. split; [assumption|]. split.
  - rewrite length_map. eapply mapM_length. eassumption.
  - apply Forall_forall. intros label Hin.
    apply list_elem_of_In, in_map_iff in Hin as (gi & <- & _).
    destruct (Rgtb gi 0.5); auto.
Qed.

Lemma predict_returns_binary_labels_witness :
  exists yhat,
    predict ex_check_array ex_fitted [[2]; [1]; [0]] = Ok yhat /\
    length yhat = 3%nat /\
    Forall (fun label => label = 0%Z \/ label = 1%Z) yhat.
Proof.
  eexists. split; [reflexivity|].
  destruct (predict_returns_binary_labels ex_check_array ex_fitted
              [[2]; [1]; [0]] _ eq_refl) as (X' & HX' & Hlen & Hall).
  inversion HX'; subst X'. split; [exact Hlen | exact Hall].
Defined.

(** X10.  An estimator constructed from a plain function cannot be fitted:
    [fit] raises [AttributeError] on the function's missing [name], before
    it validates or reads anything, and leaves the estimator as it was. *)
Theorem fit_with_a_function_kernel_raises_AttributeError
    (check_X_y : matrix -> vec -> result (matrix * vec))
    (unique_labels : vec -> result vec) (rand : nat -> vec)
    (minimize : (vec -> result R) -> vec -> vec -> result vec)
    (f : vec -> vec -> R) (kernel_args : kwargs) (X : matrix) (y : vec)
    (vectorized : option bool) :
  exists svm,
    SVM_init (KCallable f) kernel_args = Ok svm /\
    fit check_X_y unique_labels rand minimize svm X y vectorized
    = (svm, Raise (AttributeError "name")).
Proof.
  eexists. split; reflexivity.
Qed.

(** ** More on [fit] *)

Lemma sorted_bounded_length (l : list nat) (a n : nat) :
  StronglySorted lt l -> Forall (fun i => (a <= i < n)%nat) l ->
  (length l <= n - a)%nat.
Proof.
  intros Hs. revert a. induction Hs as [|i l Hs IH Hall]; intros a Hb; simpl.
  - lia.
  - inversion Hb as [|? ? Hi Hl]; subst.
    assert (Hl' : Forall (fun j => (S i <= j < n)%nat) l).
    { apply Forall_forall. intros j Hj.
      rewrite Forall_forall in Hall, Hl.
      specialize (Hall j Hj). specialize (Hl j Hj). lia. }
    specialize (IH (S i) Hl'). lia.
Qed.

Lemma remap_labels_nonzero (y : vec) : Forall (fun v => v <> 0) (remap_labels y).
Proof.
  unfold remap_labels. induction y as [|v y IH]; simpl; constructor; auto.
  destruct (Req_dec_T v 0); lra.
Qed.

Lemma compute_offset_inv (self : SVM) (off : R) :
  _compute_offset self = Ok off ->
  exists sX sy sa xk yk s,
    sup_X_ self = Some sX /\ sup_y_ self = Some sy /\
    sup_alphas_ self = Some sa /\
    sX !! 0%nat = Some xk /\ sy !! 0%nat = Some yk /\
    support_sum self sX sy sa xk = Ok s /\ off = yk - s.
Proof.
  unfold _compute_offset, attr. intros H.
  destruct (sup_X_ self) as [sX|]; simpl in H; [|discriminate].
  apply bind_Ok in H as (xk & Hxk & H). apply index_Ok in Hxk.
  destruct (sup_y_ self) as [sy|]; simpl in H; [|discriminate].
  apply bind_Ok in H as (yk & Hyk & H). apply index_Ok in Hyk.
  destruct (sup_alphas_ self) as [sa|]; simpl in H; [|discriminate].
  apply bind_Ok in H as (s & Hs & H). inversion H.
  exists sX, sy, sa, xk, yk, s. auto 10.
Qed.

(** X11.  A call of [fit] that returns has found at least one support
    vector and at most as many as there are training examples, and no stored
    label is [0]: the labels are [-1] and [1] when the validated ones were
    [0] and [1]. *)
Theorem fit_returns_with_support_vectors
    (check_X_y : matrix -> vec -> result (matrix * vec))
    (unique_labels : vec -> result vec) (rand : nat -> vec)
    (minimize : (vec -> result R) -> vec -> vec -> result vec)
    (self : SVM) (X : matrix) (y : vec) (vectorized : option bool) :
  snd (fit check_X_y unique_labels rand minimize self X y vectorized) = Ok tt ->
  let self' := fst (fit check_X_y unique_labels rand minimize self X y vectorized) in
  exists X' y' sX sy,
    check_X_y X y = Ok (X', y') /\
    sup_X_ self' = Some sX /\ sup_y_ self' = Some sy /\
    (1 <= length sX <= length X')%nat /\
    length sy = length sX /\
    Forall (fun v => v <> 0) sy /\
    (Forall (fun v => v = 0 \/ v = 1) y' ->
     Forall (fun v => v = -1 \/ v = 1) sy).
Proof.
  intros H self'.
  destruct (fit_Ok_inv check_X_y unique_labels rand minimize self X y vectorized H)
    as (vec & X' & y' & classes & x & sX & sy & sa & off
        & Hres & Hchk & Hcls & Hmin & HsX & Hsy & Hsa & Hoff & Hfst).
  subst self'. rewrite Hfst. simpl.
  destruct (take_idx_Ok _ _ _ HsX) as (HlX & HX).
  destruct (take_idx_Ok _ _ _ Hsy) as (Hly & Hy).
  apply compute_offset_inv in Hoff
    as (sX0 & sy0 & sa0 & xk & yk & s & E1 & E2 & E3 & Hxk & Hyk & _ & _).
  simpl in E1, E2, E3. inversion E1; inversion E2; subst sX0 sy0. clear E1 E2 E3.
  assert (Hsy_in : forall v, In v sy -> In v (remap_labels y')).
  { intros v Hv. apply list_elem_of_In, list_elem_of_lookup_1 in Hv as (k & Hk).
    destruct (lookup_lt_is_Some_2 (np_where_gt x 0.001) k) as [i Hi].
    { rewrite <- Hly. eapply lookup_lt_Some; eauto. }
    destruct (Hy k i Hi) as (v' & Hv' & Hk').
    rewrite Hk in Hk'. inversion Hk'; subst v'.
    apply list_elem_of_In. eapply list_elem_of_lookup_2; eauto. }
  exists X', y', sX, sy. repeat split; try assumption.
  - apply lookup_lt_Some in Hxk. lia.
  - rewrite HlX.
    pose proof (sorted_bounded_length (np_where_gt x 0.001) 0 (length X')
                  (np_where_gt_sorted x 0.001)) as Hb.
    rewrite Nat.sub_0_r in Hb. apply Hb.
    apply Forall_forall. intros i Hi.
    apply list_elem_of_lookup_1 in Hi as (k & Hk).
    destruct (HX k i Hk) as (xi & Hxi & _).
    apply lookup_lt_Some in Hxi. lia.
  - congruence.
  - apply Forall_forall. intros v Hv. apply list_elem_of_In, Hsy_in in Hv.
    pose proof (remap_labels_nonzero y') as Hnz.
    rewrite Forall_forall in Hnz. apply Hnz, list_elem_of_In, Hv.
  - intros H01. apply Forall_forall. intros v Hv.
    apply list_elem_of_In, Hsy_in in Hv.
    unfold remap_labels in Hv. apply in_map_iff in Hv as (u & <- & Hu).
    rewrite Forall_forall in H01.
    specialize (H01 u (proj2 (list_elem_of_In _ _) Hu)).
    destruct (Req_dec_T u 0); [left; reflexivity | right; lra].
Qed.

Lemma fit_returns_with_support_vectors_witness :
  exists sX sy,
    sup_X_ (fst (fit ex_check_X_y ex_unique_labels ex_rand (ex_minimize [1; 0])
                     (ex_svm LinearKernel) ex_X [1; 0] None)) = Some sX /\
    sup_y_ (fst (fit ex_check_X_y ex_unique_labels ex_rand (ex_minimize [1; 0])
                     (ex_svm LinearKernel) ex_X [1; 0] None)) = Some sy /\
    (1 <= length sX <= 2)%nat /\
    Forall (fun v => v = -1 \/ v = 1) sy.
Proof.
  destruct (fit_returns_with_support_vectors ex_check_X_y ex_unique_labels
              ex_rand (ex_minimize [1; 0]) (ex_svm LinearKernel) ex_X [1; 0]
              None fit_example_returns)
    as (X' & y' & sX & sy & Hchk & HsX & Hsy & Hlen & _ & _ & H01).
  inversion Hchk; subst X' y'.
  exists sX, sy. repeat split; try assumption; try apply Hlen.
  apply H01. repeat constructor; lra.
Defined.

Lemma support_sum_kernel (self self' : SVM) (sX : matrix) (sy sa : vec) (x : vec) :
  kernel self' = kernel self ->
  support_sum self' sX sy sa x = support_sum self sX sy sa x.
Proof. unfold support_sum. intros ->. reflexivity. Qed.

(** X12.  After a call of [fit] that returns, the discriminant of the first
    support vector is exactly its stored label (over the reals): the offset
    was computed to make it so.  [predict] therefore labels that vector [1]
    when its label is [1], and [0] when it is [-1]. *)
Theorem fit_discriminant_of_first_support_vector
    (check_X_y : matrix -> vec -> result (matrix * vec))
    (unique_labels : vec -> result vec)
    (check_array : matrix -> result matrix) (rand : nat -> vec)
    (minimize : (vec -> result R) -> vec -> vec -> result vec)
    (self : SVM) (X : matrix) (y : vec) (vectorized : option bool) :
  snd (fit check_X_y unique_labels rand minimize self X y vectorized) = Ok tt ->
  let self' := fst (fit check_X_y unique_labels rand minimize self X y vectorized) in
  exists sX sy xk yk,
    sup_X_ self' = Some sX /\ sup_y_ self' = Some sy /\
    sX !! 0%nat = Some xk /\ sy !! 0%nat = Some yk /\
    _compute_discriminant self' [xk] = Ok [yk] /\
    (check_array [xk] = Ok [xk] ->
     predict check_array self' [xk]
     = Ok [if Rgtb yk 0.5 then 1%Z else 0%Z]).
Proof.
  intros H self'.
  destruct (fit_Ok_inv check_X_y unique_labels rand minimize self X y vectorized H)
    as (vec & X' & y' & classes & x & sX & sy & sa & off
        & Hres & Hchk & Hcls & Hmin & HsX & Hsy & Hsa & Hoff & Hfst).
  subst self'. rewrite Hfst.
  apply compute_offset_inv in Hoff
    as (sX0 & sy0 & sa0 & xk & yk & s & E1 & E2 & E3 & Hxk & Hyk & Hs & ->).
  simpl in E1, E2, E3. inversion E1; inversion E2; inversion E3.
  subst sX0 sy0 sa0. clear E1 E2 E3.
  assert (Hg : _compute_discriminant
                 (mk_SVM (kernel self) (Some classes) (Some x) (Some sX)
                    (Some sy) (Some sa) (Some (yk - s))) [xk] = Ok [yk]).
  { unfold _compute_discriminant. simpl.
    rewrite (support_sum_kernel
               (mk_SVM (kernel self) (Some classes) (Some x) (Some sX)
                  (Some sy) (Some sa) (offset_ self))) by reflexivity.
    rewrite Hs. simpl. do 2 f_equal. lra. }
  exists sX, sy, xk, yk. simpl. repeat split; try assumption.
  intros Hca. unfold predict. simpl. rewrite Hca. simpl.
  rewrite Hg. reflexivity.
Qed.

Lemma fit_discriminant_of_first_support_vector_witness :
  exists xk yk,
    _compute_discriminant
      (fst (fit ex_check_X_y ex_unique_labels ex_rand (ex_minimize [1; 0])
                (ex_svm LinearKernel) ex_X [1; 0] None)) [xk] = Ok [yk].
Proof.
  destruct (fit_discriminant_of_first_support_vector ex_check_X_y
              ex_unique_labels ex_check_array ex_rand (ex_minimize [1; 0])
              (ex_svm LinearKernel) ex_X [1; 0] None fit_example_returns)
    as (sX & sy & xk & yk & _ & _ & _ & _ & Hg & _).
  exists xk, yk. exact Hg.
Defined.

Lemma support_sum_nil (self : SVM) (x : vec) : support_sum self [] [] [] x = Ok 0.
Proof. reflexivity. Qed.

(** X13.  A call of [fit] on an estimator that was fitted before, in which
    no optimized alpha is above [0.001], raises [IndexError] but has already
    emptied the three support arrays, and the offset of the earlier fit
    stays: the estimator still passes [check_is_fitted], and [predict] gives
    every row the same label, [1] if that old offset is above [0.5] and [0]
    otherwise. *)
Theorem failed_refit_leaves_a_constant_classifier
    (check_X_y : matrix -> vec -> result (matrix * vec))
    (unique_labels : vec -> result vec)
    (check_array : matrix -> result matrix) (rand : nat -> vec)
    (minimize : (vec -> result R) -> vec -> vec -> result vec)
    (self : SVM) (X : matrix) (y : vec) (vectorized : option bool)
    (vec : bool) (X' : matrix) (y' classes x : list R) (off : R)
    (Xn Xn' : matrix) :
  resolve_vectorized self vectorized = Ok vec ->
  check_X_y X y = Ok (X', y') ->
  unique_labels y' = Ok classes ->
  minimize (fun alphas => (if vec then _vectorized_loss self else _loss self)
                            alphas X' (remap_labels y'))
           (rand (length X')) (remap_labels y') = Ok x ->
  Forall (fun a => ~ a > 0.001) x ->
  offset_ self = Some off ->
  check_array Xn = Ok Xn' ->
  let r := fit check_X_y unique_labels rand minimize self X y vectorized in
  snd r = Raise IndexError /\
  check_is_fitted (fst r) = Ok tt /\
  predict check_array (fst r) Xn
  = Ok (map (fun _ => if Rgtb off 0.5 then 1%Z else 0%Z) Xn').
Proof.
  intros Hres Hchk Hcls Hmin Hnone Hoff Hca r. subst r.
  rewrite (fit_after_minimize check_X_y unique_labels rand minimize self X y
             vectorized vec X' y' classes x Hres Hchk Hcls Hmin).
  cbv zeta. rewrite (np_where_gt_nil x 0.001 Hnone).
  rewrite !take_idx_nil. simpl.
  split; [reflexivity|].
  unfold check_is_fitted, predict. simpl. rewrite Hoff. simpl.
  split; [reflexivity|].
  rewrite Hca. simpl.
  unfold _compute_discriminant. simpl.
  rewrite (mapM_pure (fun _ : list R => 0 + off) Xn'). simpl.
  rewrite map_map. f_equal. apply map_ext. intros _.
  rewrite Rplus_0_l. reflexivity.
Qed.

Lemma failed_refit_leaves_a_constant_classifier_witness :
  snd (fit ex_check_X_y ex_unique_labels ex_rand (ex_minimize [0; 0]) ex_fitted
           ex_X [1; 0] None) = Raise IndexError /\
  predict ex_check_array
    (fst (fit ex_check_X_y ex_unique_labels ex_rand (ex_minimize [0; 0])
              ex_fitted ex_X [1; 0] None)) [[2]; [7]]
  = Ok [if Rgtb (-3) 0.5 then 1%Z else 0%Z; if Rgtb (-3) 0.5 then 1%Z else 0%Z].
Proof.
  destruct (failed_refit_leaves_a_constant_classifier ex_check_X_y
              ex_unique_labels ex_check_array ex_rand (ex_minimize [0; 0])
              ex_fitted ex_X [1; 0] None true ex_X [1; 0] [1; 0] [0; 0] (-3)
              [[2]; [7]] [[2]; [7]]
              eq_refl eq_refl eq_refl eq_refl)
    as (Hraise & _ & Hpred); try reflexivity.
  - repeat constructor; lra.
  - split; [exact Hraise | exact Hpred].
Defined.

(** X14.  The remapping [y[y == 0] = -1] of [fit] keeps the length and
    every nonzero label, leaves no [0], does nothing when applied again, and
    turns labels that are [0] or [1] into labels that are [-1] or [1]. *)
Theorem remap_labels_properties (y : vec) :
  length (remap_labels y) = length y /\
  Forall (fun v => v <> 0) (remap_labels y) /\
  remap_labels (remap_labels y) = remap_labels y /\
  (forall i v, y !! i = Some v -> v <> 0 -> remap_labels y !! i = Some v) /\
  (Forall (fun v => v = 0 \/ v = 1) y ->
   Forall (fun v => v = -1 \/ v = 1) (remap_labels y)).
Proof.
  split; [apply length_map|]. split; [apply remap_labels_nonzero|].
  split; [|split].
  - unfold remap_labels. rewrite map_map. apply map_ext. intros v.
    destruct (Req_dec_T v 0) as [Hv|Hv].
    + destruct (Req_dec_T (-1) 0); [lra | reflexivity].
    + destruct (Req_dec_T v 0); [contradiction | reflexivity].
  - intros i v Hi Hv. unfold remap_labels. rewrite lookup_map, Hi. simpl.
    destruct (Req_dec_T v 0); [contradiction | reflexivity].
  - intros H. unfold remap_labels.
    induction H as [|v y Hv _ IH]; simpl; constructor; auto.
    destruct (Req_dec_T v 0); [left; reflexivity | right; lra].
Qed.

Lemma remap_labels_properties_witness :
  remap_labels [0; 1; 0] !! 1%nat = Some 1 /\
  Forall (fun v => v = -1 \/ v = 1) (remap_labels [0; 1; 0]).
Proof.
  destruct (remap_labels_properties [0; 1; 0]) as (_ & _ & _ & Hi & H01).
  split.
  - apply Hi; [reflexivity | lra].
  - apply H01. repeat constructor; lra.
Defined.

Lemma np_where_all_false {A} (f : A -> bool) (l : list A) :
  (forall a, f a = false) -> np_where (map f l) = [].
Proof.
  intros Hf. unfold np_where, enumerate. generalize 0%nat.
  induction l as [|a l IH]; intros s; simpl; [reflexivity|].
  rewrite Hf. simpl. apply IH.
Qed.

(** X15.  Of the three selections of [plot], the lower margin [Hneg] is
    always empty: its mask asks for [|g| < -1 + TOL], which no value
    satisfies. *)
Theorem plot_selections_Hneg_is_empty (g : vec) (_X H Hpos Hneg : matrix) :
  plot_selections g _X = Ok (H, Hpos, Hneg) -> Hneg = [].
Proof.
  unfold plot_selections. intros E.
  apply bind_Ok in E as (H0 & _ & E). apply bind_Ok in E as (Hp & _ & E).
  rewrite np_where_all_false in E.
  - simpl in E. inversion E. reflexivity.
  - intros gi. apply andb_false_intro2. apply Rltb_false.
    pose proof (Rabs_pos gi). lra.
Qed.

Lemma plot_selections_Hneg_is_empty_witness :
  exists H Hpos,
    plot_selections [-1; 0] [[1; 2]; [3; 4]] = Ok (H, Hpos, []).
Proof.
  destruct (plot_selections [-1; 0] [[1; 2]; [3; 4]]) as [[[H Hpos] Hneg]|e] eqn:E.
  - rewrite (plot_selections_Hneg_is_empty _ _ _ _ _ E). eauto.
  - exfalso. unfold plot_selections in E. simpl in E.
    unfold np_where, enumerate in E. simpl in E.
    repeat match type of E with
           | context [if ?c then _ else _] => destruct c; simpl in E
           end; discriminate.
Defined.

(** ** More on the optimizers *)

Lemma alloc_layers_locs (M : list nat) (h : heap) (lWs lbs : list loc) (h' : heap) :
  alloc_layers M h = (lWs, lbs, h') ->
  lWs = seq (length (mats h)) (pred (length M)) /\
  lbs = seq (length (vecs h)) (pred (length M)).
Proof.
  revert h lWs lbs h'. induction M as [|m0 M IH]; intros h lWs lbs h' H.
  - inversion H; auto.
  - destruct M as [|m1 M'].
    + inversion H; auto.
    + rewrite alloc_layers_cons in H.
      destruct (alloc_layers (m1 :: M')
                  (mk_heap (mats h ++ [zeros2 m0 m1]) (vecs h ++ [zeros m1])))
        as [[lWs' lbs'] h1] eqn:Hrec.
      inversion H; subst. apply IH in Hrec as [-> ->]. cbn [mats vecs].
      rewrite !length_app. simpl. rewrite !Nat.add_1_r. auto.
Qed.

(** X16.  The constructor of the momentum optimizer makes one velocity pair
    per layer, [len(hidden_layer_sizes) + 1] of them, each a new array of
    zeros of the layer's shape [(M[i], M[i+1])] and [(M[i+1],)]; the new
    arrays are distinct from one another and from every array that existed
    before, which are left as they were.  The constructor of the AdaGrad
    optimizer allocates its caches in the same way. *)
Theorem constructors_allocate_zero_arrays (D K : nat) (hidden_layer_sizes : list nat)
    (lr mu reg epsilon : R) (t : threshold) (h : heap)
    (mo : MomentumOptimizer.t) (hm : heap) (ad : AdaGradOptimizer.t) (ha : heap) :
  MomentumOptimizer.init D K hidden_layer_sizes lr mu reg t h = (mo, hm) ->
  AdaGradOptimizer.init D K hidden_layer_sizes lr epsilon h = (ad, ha) ->
  let M := layer_sizes D K hidden_layer_sizes in
  let vW := MomentumOptimizer.vW_ mo in
  let vb := MomentumOptimizer.vb_ mo in
  length vW = S (length hidden_layer_sizes) /\
  length vb = S (length hidden_layer_sizes) /\
  NoDup vW /\ NoDup vb /\
  (forall l, (l < length (mats h))%nat -> mats hm !! l = mats h !! l) /\
  (forall l, (l < length (vecs h))%nat -> vecs hm !! l = vecs h !! l) /\
  (forall i, (i <= length hidden_layer_sizes)%nat ->
     exists m0 m1 lW lb,
       M !! i = Some m0 /\ M !! S i = Some m1 /\
       vW !! i = Some lW /\ vb !! i = Some lb /\
       (length (mats h) <= lW)%nat /\ (length (vecs h) <= lb)%nat /\
       mats hm !! lW = Some (zeros2 m0 m1) /\
       vecs hm !! lb = Some (zeros m1)) /\
  AdaGradOptimizer.cW_ ad = vW /\ AdaGradOptimizer.cb_ ad = vb /\ ha = hm.
Proof.
  unfold MomentumOptimizer.init, AdaGradOptimizer.init. intros Hm Ha.
  destruct (alloc_layers (layer_sizes D K hidden_layer_sizes) h)
    as [[lWs lbs] h1] eqn:Hal.
  inversion Hm; subst. inversion Ha; subst. clear Hm Ha. simpl.
  destruct (alloc_layers_locs _ _ _ _ _ Hal) as [HlW Hlb].
  destruct (alloc_layers_spec _ _ _ _ _ Hal) as ((newW & newb & Hh) & Hz).
  assert (Hlen : pred (length (layer_sizes D K hidden_layer_sizes))
                 = S (length hidden_layer_sizes)).
  { unfold layer_sizes. simpl. rewrite length_app. simpl. lia. }
  rewrite Hlen in HlW, Hlb.
  split; [rewrite HlW; apply length_seq|].
  split; [rewrite Hlb; apply length_seq|].
  split; [rewrite HlW; apply NoDup_seq|].
  split; [rewrite Hlb; apply NoDup_seq|].
  split; [intros l Hl; rewrite Hh; simpl; apply lookup_app_l; assumption|].
  split; [intros l Hl; rewrite Hh; simpl; apply lookup_app_l; assumption|].
  split; [|auto].
  intros i Hi.
  destruct (lookup_lt_is_Some_2 (layer_sizes D K hidden_layer_sizes) i)
    as (m0 & Hm0).
  { unfold layer_sizes. simpl. rewrite length_app. simpl. lia. }
  destruct (lookup_lt_is_Some_2 (layer_sizes D K hidden_layer_sizes) (S i))
    as (m1 & Hm1).
  { unfold layer_sizes. simpl. rewrite length_app. simpl. lia. }
  destruct (Hz i m0 m1 Hm0 Hm1) as (lW & lb & HW & Hb & HzW & Hzb).
  exists m0, m1, lW, lb. repeat split; try assumption.
  - rewrite HlW in HW. apply lookup_seq in HW. lia.
  - rewrite Hlb in Hb. apply lookup_seq in Hb. lia.
Qed.

Lemma constructors_allocate_zero_arrays_witness :
  exists mo hm lW,
    MomentumOptimizer.init 2 1 [3%nat] 1 0 0 ThreshInf (mk_heap [[[7]]] [])
      = (mo, hm) /\
    length (MomentumOptimizer.vW_ mo) = 2%nat /\
    mats hm !! 0%nat = Some [[7]] /\
    MomentumOptimizer.vW_ mo !! 1%nat = Some lW /\
    mats hm !! lW = Some (zeros2 3 1).
Proof.
  destruct (constructors_allocate_zero_arrays 2 1 [3%nat] 1 0 0 1 ThreshInf
              (mk_heap [[[7]]] []) _ _ _ _ eq_refl eq_refl)
    as (Hlen & _ & _ & _ & Hold & _ & Hnew & _).
  destruct (Hnew 1%nat) as (m0 & m1 & lW & lb & Hm0 & Hm1 & HW & _ & _ & _ & Hz & _).
  { simpl. lia. }
  inversion Hm0; inversion Hm1; subst.
  eexists _, _, lW. split; [reflexivity|].
  split; [exact Hlen|]. split; [|split; assumption].
  rewrite (Hold 0%nat); [reflexivity | simpl; lia].
Defined.

Lemma py_max_ge_l (a b0 : R) : a <= py_max a b0.
Proof.
  unfold py_max, Rltb. destruct (Rlt_dec a b0); lra.
Qed.

Lemma py_max_cases (a b0 : R) : py_max a b0 = a \/ py_max a b0 = b0.
Proof.
  unfold py_max. destruct (Rltb a b0); auto.
Qed.

Lemma py_max_le (a b0 c : R) : a <= c -> b0 <= c -> py_max a b0 <= c.
Proof.
  intros. destruct (py_max_cases a b0) as [-> | ->]; assumption.
Qed.

Lemma fold_left_Rmax_In (t : list R) (x : R) : In (fold_left Rmax t x) (x :: t).
Proof.
  revert x. induction t as [|y t IH]; intros x; simpl; [auto|].
  destruct (IH (Rmax x y)) as [H | H]; [|auto].
  unfold Rmax in H at 1. destruct (Rle_dec x y); auto.
Qed.

Lemma fold_left_Rmin_In (t : list R) (x : R) : In (fold_left Rmin t x) (x :: t).
Proof.
  revert x. induction t as [|y t IH]; intros x; simpl; [auto|].
  destruct (IH (Rmin x y)) as [H | H]; [|auto].
  unfold Rmin in H at 1. destruct (Rle_dec x y); auto.
Qed.

Lemma In_concat_entry (m : matrix) (x : R) :
  In x (concat m) -> exists r c, entry m r c = Some x.
Proof.
  intros H. apply in_concat in H as (row & Hrow & Hx).
  apply list_elem_of_In, list_elem_of_lookup_1 in Hrow as (r & Hr).
  apply list_elem_of_In, list_elem_of_lookup_1 in Hx as (c & Hc).
  exists r, c. unfold entry. rewrite Hr. exact Hc.
Qed.

Lemma entry_In_concat (m : matrix) (r c : nat) (x : R) :
  entry m r c = Some x -> In x (concat m).
Proof.
  unfold entry. intros H. destruct (m !! r) as [row|] eqn:Hr; [|discriminate].
  apply in_concat. exists row. split.
  - apply list_elem_of_In. eapply list_elem_of_lookup_2; eauto.
  - apply list_elem_of_In. eapply list_elem_of_lookup_2; eauto.
Qed.

(** The running maximum that both optimizers return. *)
Lemma update_grad_max_bounds (grad_max : R) (gW : matrix) (grad_max' : R) :
  update_grad_max grad_max gW = Ok grad_max' ->
  grad_max <= grad_max' /\
  (grad_max' = grad_max \/ exists r c, entry gW r c = Some grad_max').
Proof.
  unfold update_grad_max. intros H.
  apply bind_Ok in H as (hi & Hhi & H). apply bind_Ok in H as (lo & Hlo & H).
  inversion H; subst. split; [apply py_max_ge_l|].
  destruct (py_max_cases grad_max (py_max_key_abs hi lo)) as [-> | ->];
    [auto | right].
  apply In_concat_entry.
  unfold np_max in Hhi. unfold np_min in Hlo.
  destruct (concat gW) as [|x t]; [discriminate|].
  inversion Hhi; inversion Hlo; subst.
  unfold py_max_key_abs.
  destruct (Rltb _ _); [apply fold_left_Rmin_In | apply fold_left_Rmax_In].
Qed.

(** X17.  The running maximum that a call of [layer_update] returns is never
    below the one passed in, and it is either that one or an entry of the
    weight gradient array as the call leaves it.  With a momentum optimizer
    whose threshold is a number [c >= 0], it is at most the larger of the
    passed maximum and [c]. *)
Theorem layer_update_grad_max_bounds (mlp : MLP) (i : nat)
    (dJdW_i dJdb_i : loc) (grad_max : R) (h : heap) :
  (forall self w_update b_update grad_max' self' h',
      MomentumOptimizer.layer_update self mlp i dJdW_i dJdb_i grad_max h
        = Ok (w_update, b_update, grad_max', self', h') ->
      grad_max <= grad_max' /\
      (grad_max' = grad_max \/
       exists gW r c, mats h' !! dJdW_i = Some gW /\
                      entry gW r c = Some grad_max') /\
      (forall c, MomentumOptimizer.clip_thresh self = Thresh c -> 0 <= c ->
                 grad_max' <= Rmax grad_max c)) /\
  (forall self w_update b_update grad_max' self' h',
      AdaGradOptimizer.layer_update self mlp i dJdW_i dJdb_i grad_max h
        = Ok (w_update, b_update, grad_max', self', h') ->
      grad_max <= grad_max' /\
      (grad_max' = grad_max \/
       exists gW r c, mats h' !! dJdW_i = Some gW /\
                      entry gW r c = Some grad_max')).
Proof.
  split.
  - intros self w_update b_update grad_max' self' h' H.
    apply momentum_layer_update_inv in H
      as (gW & gb & vW & vb & HgW & Hgb & -> & -> & Hgm & ->).
    assert (HdW : (dJdW_i < length (mats h))%nat) by (eapply lookup_lt_Some; eauto).
    destruct (update_grad_max_bounds _ _ _ Hgm) as (Hle & Hor).
    split; [exact Hle|]. split.
    + destruct Hor as [-> | (r & c & He)]; [auto | right].
      eexists _, r, c. split; [|exact He]. simpl.
      rewrite lookup_app_l by (rewrite length_insert; assumption).
      apply list_lookup_insert_eq. assumption.
    + intros c Hc Hc0. destruct Hor as [-> | (r & k & He)]; [apply Rmax_l|].
      rewrite Hc in He.
      replace (map (clip_row (Thresh c)) gW)
        with (map (map (clip_entry (Thresh c))) gW) in He
        by (apply map_ext; intros v; symmetry; apply clip_row_map).
      rewrite entry_map in He.
      destruct (entry gW r k) as [x|]; [|discriminate].
      simpl in He. inversion He; subst.
      eapply Rle_trans; [|apply Rmax_r].
      unfold clip_entry, Rgtb, Rltb.
      repeat match goal with
             | |- context [Rlt_dec ?a ?b0] => destruct (Rlt_dec a b0)
             end; lra.
  - intros self w_update b_update grad_max' self' h' H.
    apply adagrad_layer_update_inv in H
      as (gW & cW & wu & cb & bu & HgW & Hgm & ->).
    destruct (update_grad_max_bounds _ _ _ Hgm) as (Hle & Hor).
    split; [exact Hle|].
    destruct Hor as [-> | (r & c & He)]; [auto | right].
    exists gW, r, c. split; [|exact He]. simpl.
    apply lookup_app_l_Some. exact HgW.
Qed.

Lemma layer_update_grad_max_bounds_witness :
  (exists r,
      MomentumOptimizer.layer_update (ex_momentum 1 0 0 (Thresh 1)) ex_mlp 0
        2 2 (-4) (ex_heap [[2; -3]] [5]) = Ok r /\
      -4 <= snd (fst (fst r)) <= Rmax (-4) 1) /\
  (exists r,
      AdaGradOptimizer.layer_update (ex_adagrad 1 1) ex_mlp 0
        2 2 (-4) (ex_heap [[2; -3]] [5]) = Ok r /\
      -4 <= snd (fst (fst r))).
Proof.
  split.
  - eexists (_, _, _, _, _). split; [reflexivity|].
    destruct (proj1 (layer_update_grad_max_bounds ex_mlp 0 2 2 (-4)
                       (ex_heap [[2; -3]] [5]))
                (ex_momentum 1 0 0 (Thresh 1)) _ _ _ _ _ eq_refl)
      as (Hle & _ & Hc).
    split; [exact Hle|]. apply (Hc 1); [reflexivity | lra].
  - eexists (_, _, _, _, _). split; [reflexivity|].
    destruct (proj2 (layer_update_grad_max_bounds ex_mlp 0 2 2 (-4)
                       (ex_heap [[2; -3]] [5]))
                (ex_adagrad 1 1) _ _ _ _ _ eq_refl)
      as (Hle & _).
    exact Hle.
Defined.

Lemma clip_entry_range (c x : R) :
  (0 <= c -> - c <= clip_entry (Thresh c) x <= c) /\
  (c < 0 -> clip_entry (Thresh c) x = - c).
Proof.
  unfold clip_entry, Rgtb, Rltb.
  split; intros Hc;
    repeat match goal with
           | |- context [Rlt_dec ?a ?b0] => destruct (Rlt_dec a b0)
           end; lra.
Qed.

(** X18.  After a call of [MomentumOptimizer.layer_update] that returns,
    with a threshold [c] that is a number, no entry of the caller's two
    gradient arrays is outside [[-c, c]] if [c >= 0]; if [c] is negative,
    every entry of both arrays is [-c], whatever the gradients were. *)
Theorem clipped_gradients_within_threshold (self : MomentumOptimizer.t)
    (mlp : MLP) (i : nat) (dJdW_i dJdb_i : loc) (grad_max : R) (h : heap)
    (w_update b_update : loc) (grad_max' : R) (self' : MomentumOptimizer.t)
    (h' : heap) (c : R) :
  MomentumOptimizer.clip_thresh self = Thresh c ->
  MomentumOptimizer.layer_update self mlp i dJdW_i dJdb_i grad_max h
    = Ok (w_update, b_update, grad_max', self', h') ->
  exists gW' gb',
    mats h' !! dJdW_i = Some gW' /\
    vecs h' !! dJdb_i = Some gb' /\
    (0 <= c -> Forall (Forall (fun x => - c <= x <= c)) gW' /\
               Forall (fun x => - c <= x <= c) gb') /\
    (c < 0 -> Forall (Forall (fun x => x = - c)) gW' /\
              Forall (fun x => x = - c) gb').
Proof.
  intros Hc H.
  apply momentum_layer_update_inv in H
    as (gW & gb & vW & vb & HgW & Hgb & -> & -> & _ & ->).
  assert (HdW : (dJdW_i < length (mats h))%nat) by (eapply lookup_lt_Some; eauto).
  assert (Hdb : (dJdb_i < length (vecs h))%nat) by (eapply lookup_lt_Some; eauto).
  rewrite Hc.
  exists (map (clip_row (Thresh c)) gW), (clip_row (Thresh c) gb). simpl.
  split.
  { rewrite lookup_app_l by (rewrite length_insert; assumption).
    apply list_lookup_insert_eq. assumption. }
  split.
  { rewrite lookup_app_l by (rewrite length_insert; assumption).
    apply list_lookup_insert_eq. assumption. }
  assert (Hrow : forall (P : R -> Prop) (v : vec),
             (forall x, P (clip_entry (Thresh c) x)) ->
             Forall P (clip_row (Thresh c) v)).
  { intros P v HP. rewrite clip_row_map.
    induction v as [|x v IH]; cbn [map]; constructor; [apply HP | exact IH]. }
  assert (Hmat : forall (P : R -> Prop) (m : matrix),
             (forall x, P (clip_entry (Thresh c) x)) ->
             Forall (Forall P) (map (clip_row (Thresh c)) m)).
  { intros P m HP.
    induction m as [|v m IH]; cbn [map]; constructor; [apply Hrow, HP | exact IH]. }
  split; intros Hc0; split;
    first [apply Hmat | apply Hrow]; intros x;
    apply (clip_entry_range c x); assumption.
Qed.

Lemma clipped_gradients_within_threshold_witness :
  (exists r gW',
      MomentumOptimizer.layer_update (ex_momentum 1 0 0 (Thresh 1)) ex_mlp 0
        2 2 0 (ex_heap [[2; -3]] [5]) = Ok r /\
      mats (snd r) !! 2%nat = Some gW' /\
      Forall (Forall (fun x => - 1 <= x <= 1)) gW') /\
  (exists r gW',
      MomentumOptimizer.layer_update (ex_momentum 1 0 0 (Thresh (-1))) ex_mlp 0
        2 2 0 (ex_heap [[2; -3]] [5]) = Ok r /\
      mats (snd r) !! 2%nat = Some gW' /\
      Forall (Forall (fun x => x = - -1)) gW').
Proof.
  split.
  - destruct (clipped_gradients_within_threshold
                (ex_momentum 1 0 0 (Thresh 1)) ex_mlp 0 2 2 0
                (ex_heap [[2; -3]] [5]) _ _ _ _ _ 1 eq_refl eq_refl)
      as (gW' & gb' & HW & _ & Hin & _).
    eexists (_, _, _, _, _), gW'. split; [reflexivity|].
    split; [exact HW|]. apply Hin. lra.
  - destruct (clipped_gradients_within_threshold
                (ex_momentum 1 0 0 (Thresh (-1))) ex_mlp 0 2 2 0
                (ex_heap [[2; -3]] [5]) _ _ _ _ _ (-1) eq_refl eq_refl)
      as (gW' & gb' & HW & _ & _ & Hneg).
    eexists (_, _, _, _, _), gW'. split; [reflexivity|].
    split; [exact HW|]. apply Hneg. lra.
Defined.

(** The optimizer that a call leaves. *)
Lemma momentum_layer_update_state (self : MomentumOptimizer.t) (mlp : MLP)
    (i : nat) (dJdW_i dJdb_i : loc) (grad_max : R) (h : heap)
    (w_update b_update : loc) (grad_max' : R) (self' : MomentumOptimizer.t)
    (h' : heap) :
  MomentumOptimizer.layer_update self mlp i dJdW_i dJdb_i grad_max h
    = Ok (w_update, b_update, grad_max', self', h') ->
  self' = MomentumOptimizer.mk
            (MomentumOptimizer.lr self) (MomentumOptimizer.mu self)
            (MomentumOptimizer.reg self) (MomentumOptimizer.clip_thresh self)
            (<[i := w_update]> (MomentumOptimizer.vW_ self))
            (<[i := b_update]> (MomentumOptimizer.vb_ self)) /\
  (i < length (MomentumOptimizer.vW_ self))%nat /\
  (i < length (MomentumOptimizer.vb_ self))%nat.
Proof.
  unfold MomentumOptimizer.layer_update. intros H.
  do 11 bind_inv H.
  apply bind_Ok in H as (lvW & HlvW & H).
  apply index_Ok, lookup_lt_Some in HlvW.
  do 2 bind_inv H. simpl in H.
  apply bind_Ok in H as (lvb & Hlvb & H).
  apply index_Ok, lookup_lt_Some in Hlvb. simpl in Hlvb.
  do 2 bind_inv H. simpl in H.
  inversion H; subst. auto.
Qed.

Lemma adagrad_layer_update_state (self : AdaGradOptimizer.t) (mlp : MLP)
    (i : nat) (dJdW_i dJdb_i : loc) (grad_max : R) (h : heap)
    (w_update b_update : loc) (grad_max' : R) (self' : AdaGradOptimizer.t)
    (h' : heap) :
  AdaGradOptimizer.layer_update self mlp i dJdW_i dJdb_i grad_max h
    = Ok (w_update, b_update, grad_max', self', h') ->
  self' = AdaGradOptimizer.mk
            (AdaGradOptimizer.lr self) (AdaGradOptimizer.epsilon self)
            (<[i := length (mats h)]> (AdaGradOptimizer.cW_ self))
            (<[i := length (vecs h)]> (AdaGradOptimizer.cb_ self)) /\
  w_update = S (length (mats h)) /\
  b_update = S (length (vecs h)) /\
  (i < length (AdaGradOptimizer.cW_ self))%nat /\
  (i < length (AdaGradOptimizer.cb_ self))%nat.
Proof.
  unfold AdaGradOptimizer.layer_update. intros H.
  do 2 bind_inv H.
  apply bind_Ok in H as (lcW & HlcW & H).
  apply index_Ok, lookup_lt_Some in HlcW.
  do 2 bind_inv H. simpl in H.
  bind_inv H.
  apply bind_Ok in H as (lcb & Hlcb & H).
  apply index_Ok, lookup_lt_Some in Hlcb. simpl in Hlcb.
  do 2 bind_inv H. simpl in H.
  do 4 bind_inv H. simpl in H.
  do 4 bind_inv H. simpl in H.
  inversion H; subst. rewrite !length_app. simpl.
  rewrite !Nat.add_1_r. auto.
Qed.

(** X19.  What a returning call leaves in the optimizer.  The momentum
    optimizer keeps its four parameters and the velocities of the other
    layers; the two arrays it returns are new ones, and they are the very
    arrays it now holds as the velocities of layer [i].  The AdaGrad
    optimizer keeps its two parameters and the caches of the other layers;
    it holds new caches for layer [i], and the two arrays it returns are
    new as well and are not the caches. *)
Theorem layer_update_returned_arrays (mlp : MLP) (i : nat)
    (dJdW_i dJdb_i : loc) (grad_max : R) (h : heap) :
  (forall self w_update b_update grad_max' self' h',
      MomentumOptimizer.layer_update self mlp i dJdW_i dJdb_i grad_max h
        = Ok (w_update, b_update, grad_max', self', h') ->
      MomentumOptimizer.lr self' = MomentumOptimizer.lr self /\
      MomentumOptimizer.mu self' = MomentumOptimizer.mu self /\
      MomentumOptimizer.reg self' = MomentumOptimizer.reg self /\
      MomentumOptimizer.clip_thresh self' = MomentumOptimizer.clip_thresh self /\
      MomentumOptimizer.vW_ self' !! i = Some w_update /\
      MomentumOptimizer.vb_ self' !! i = Some b_update /\
      (length (mats h) <= w_update)%nat /\
      (length (vecs h) <= b_update)%nat /\
      (forall j, j <> i ->
         MomentumOptimizer.vW_ self' !! j = MomentumOptimizer.vW_ self !! j /\
         MomentumOptimizer.vb_ self' !! j = MomentumOptimizer.vb_ self !! j)) /\
  (forall self w_update b_update grad_max' self' h',
      AdaGradOptimizer.layer_update self mlp i dJdW_i dJdb_i grad_max h
        = Ok (w_update, b_update, grad_max', self', h') ->
      AdaGradOptimizer.lr self' = AdaGradOptimizer.lr self /\
      AdaGradOptimizer.epsilon self' = AdaGradOptimizer.epsilon self /\
      (exists lcW lcb,
         AdaGradOptimizer.cW_ self' !! i = Some lcW /\
         AdaGradOptimizer.cb_ self' !! i = Some lcb /\
         (length (mats h) <= lcW)%nat /\ (length (vecs h) <= lcb)%nat /\
         lcW <> w_update /\ lcb <> b_update) /\
      (length (mats h) <= w_update)%nat /\
      (length (vecs h) <= b_update)%nat /\
      (forall j, j <> i ->
         AdaGradOptimizer.cW_ self' !! j = AdaGradOptimizer.cW_ self !! j /\
         AdaGradOptimizer.cb_ self' !! j = AdaGradOptimizer.cb_ self !! j)).
Proof.
  split.
  - intros self w_update b_update grad_max' self' h' H.
    pose proof (momentum_layer_update_state _ _ _ _ _ _ _ _ _ _ _ _ H)
      as (-> & HiW & Hib).
    apply momentum_layer_update_inv in H
      as (gW & gb & vW & vb & _ & _ & -> & -> & _ & _).
    simpl. repeat split; try reflexivity.
    + apply list_lookup_insert_eq. assumption.
    + apply list_lookup_insert_eq. assumption.
    + apply list_lookup_insert_ne. congruence.
    + apply list_lookup_insert_ne. congruence.
  - intros self w_update b_update grad_max' self' h' H.
    apply adagrad_layer_update_state in H as (-> & -> & -> & HiW & Hib).
    simpl. repeat split; try reflexivity; try lia.
    + exists (length (mats h)), (length (vecs h)).
      repeat split; try lia.
      * apply list_lookup_insert_eq. assumption.
      * apply list_lookup_insert_eq. assumption.
    + apply list_lookup_insert_ne. congruence.
    + apply list_lookup_insert_ne. congruence.
Qed.

Lemma layer_update_returned_arrays_witness :
  (exists r,
      MomentumOptimizer.layer_update (ex_momentum 1 0 0 (Thresh 1)) ex_mlp 0
        2 2 0 (ex_heap [[2; -3]] [5]) = Ok r /\
      MomentumOptimizer.vW_ (snd (fst r)) !! 0%nat = Some (fst (fst (fst (fst r))))) /\
  (exists r,
      AdaGradOptimizer.layer_update (ex_adagrad 1 1) ex_mlp 0
        2 2 0 (ex_heap [[2; -3]] [5]) = Ok r /\
      AdaGradOptimizer.cW_ (snd (fst r)) !! 0%nat <> Some (fst (fst (fst (fst r))))).
Proof.
  split.
  - eexists (_, _, _, _, _). split; [reflexivity|].
    destruct (proj1 (layer_update_returned_arrays ex_mlp 0 2 2 0
                       (ex_heap [[2; -3]] [5]))
                (ex_momentum 1 0 0 (Thresh 1)) _ _ _ _ _ eq_refl)
      as (_ & _ & _ & _ & HW & _).
    exact HW.
  - eexists (_, _, _, _, _). split; [reflexivity|].
    destruct (proj2 (layer_update_returned_arrays ex_mlp 0 2 2 0
                       (ex_heap [[2; -3]] [5]))
                (ex_adagrad 1 1) _ _ _ _ _ eq_refl)
      as (_ & _ & (lcW & lcb & HW & _ & _ & _ & Hne & _) & _).
    intros Heq. pose proof (eq_trans (eq_sym HW) Heq) as E.
    apply Hne. inversion E. reflexivity.
Defined.

Lemma concat_clip_row_nil (t : threshold) (m : matrix) :
  concat m = [] -> concat (map (clip_row t) m) = [].
Proof.
  induction m as [|row m IH]; simpl; intros H; [reflexivity|].
  apply app_eq_nil in H as [-> Hm]. rewrite (IH Hm), clip_row_map.
  reflexivity.
Qed.

(** X20.  How [layer_update] fails.  The momentum optimizer reads the
    layer's weights and biases first, and raises [IndexError] if the MLP has
    no layer [i].  Both optimizers raise the [ValueError] of [max] on a
    weight gradient array without entries.  The AdaGrad optimizer, which
    does not read the MLP, raises [IndexError] if it has no cache for
    layer [i]. *)
Theorem layer_update_raises (mlp : MLP) (i : nat) (dJdW_i dJdb_i : loc)
    (grad_max : R) (h : heap) :
  (forall self,
      (length (W mlp) <= i)%nat \/ (length (b mlp) <= i)%nat ->
      MomentumOptimizer.layer_update self mlp i dJdW_i dJdb_i grad_max h
      = Raise IndexError) /\
  (forall self gW gb,
      (i < length (W mlp))%nat -> (i < length (b mlp))%nat ->
      mats h !! dJdW_i = Some gW -> vecs h !! dJdb_i = Some gb ->
      concat gW = [] ->
      MomentumOptimizer.layer_update self mlp i dJdW_i dJdb_i grad_max h
      = Raise (ValueError "zero-size array to reduction operation maximum")) /\
  (forall self gW,
      mats h !! dJdW_i = Some gW -> concat gW = [] ->
      AdaGradOptimizer.layer_update self mlp i dJdW_i dJdb_i grad_max h
      = Raise (ValueError "zero-size array to reduction operation maximum")) /\
  (forall self gW,
      mats h !! dJdW_i = Some gW -> concat gW <> [] ->
      (length (AdaGradOptimizer.cW_ self) <= i)%nat ->
      AdaGradOptimizer.layer_update self mlp i dJdW_i dJdb_i grad_max h
      = Raise IndexError).
Proof.
  repeat split.
  - intros self Hi. unfold MomentumOptimizer.layer_update, index.
    destruct (W mlp !! i) as [lW|] eqn:HW; [|reflexivity].
    destruct Hi as [Hi | Hi].
    + apply lookup_lt_Some in HW. lia.
    + rewrite (lookup_ge_None_2 _ _ Hi). reflexivity.
  - intros self gW gb HiW Hib HgW Hgb Hnil.
    destruct (lookup_lt_is_Some_2 _ _ HiW) as (lW & HW).
    destruct (lookup_lt_is_Some_2 _ _ Hib) as (lb & Hb).
    assert (HdW : (dJdW_i < length (mats h))%nat) by (eapply lookup_lt_Some; eauto).
    unfold MomentumOptimizer.layer_update.
    rewrite (index_lookup _ _ _ HW), (index_lookup _ _ _ Hb). simpl.
    rewrite (clip_mat_inplace_lookup _ _ _ _ HgW). cbn [bind].
    rewrite (clip_vec_inplace_lookup _ _ (store_mat h dJdW_i _) gb Hgb).
    cbn [bind]. unfold load_mat at 1. simpl.
    rewrite list_lookup_insert_eq by assumption. simpl.
    unfold update_grad_max. rewrite concat_clip_row_nil by assumption.
    reflexivity.
  - intros self gW HgW Hnil. unfold AdaGradOptimizer.layer_update.
    rewrite (proj2 (load_mat_Ok _ _ _) HgW). simpl.
    unfold update_grad_max. rewrite Hnil. reflexivity.
  - intros self gW HgW Hne Hi. unfold AdaGradOptimizer.layer_update.
    rewrite (proj2 (load_mat_Ok _ _ _) HgW). simpl.
    destruct (update_grad_max_total grad_max gW Hne) as (gm & ->). simpl.
    unfold index. rewrite (lookup_ge_None_2 _ _ Hi). reflexivity.
Qed.

Lemma layer_update_raises_witness :
  MomentumOptimizer.layer_update (ex_momentum 1 0 0 ThreshInf) ex_mlp 1
    2 2 0 (ex_heap [[2; -3]] [5]) = Raise IndexError /\
  MomentumOptimizer.layer_update (ex_momentum 1 0 0 ThreshInf) ex_mlp 0
    2 2 0 (ex_heap [[]] [5])
  = Raise (ValueError "zero-size array to reduction operation maximum") /\
  AdaGradOptimizer.layer_update (ex_adagrad 1 1) ex_mlp 0
    2 2 0 (ex_heap [] [5])
  = Raise (ValueError "zero-size array to reduction operation maximum") /\
  AdaGradOptimizer.layer_update (ex_adagrad 1 1) ex_mlp 1
    2 2 0 (ex_heap [[2; -3]] [5]) = Raise IndexError.
Proof.
  split; [|split; [|split]].
  - apply (layer_update_raises ex_mlp 1 2 2 0 (ex_heap [[2; -3]] [5])).
    left. simpl. lia.
  - apply (proj1 (proj2 (layer_update_raises ex_mlp 0 2 2 0 (ex_heap [[]] [5])))
             (ex_momentum 1 0 0 ThreshInf) [[]] [5]);
      try reflexivity; simpl; lia.
  - apply (proj1 (proj2 (proj2 (layer_update_raises ex_mlp 0 2 2 0
                                  (ex_heap [] [5])))) (ex_adagrad 1 1) []);
      reflexivity.
  - apply (proj2 (proj2 (proj2 (layer_update_raises ex_mlp 1 2 2 0
                                  (ex_heap [[2; -3]] [5])))) (ex_adagrad 1 1)
             [[2; -3]]).
    + reflexivity.
    + simpl. discriminate.
    + simpl. lia.
Defined.

(** ** Momentum with a velocity *)

Lemma big_sum_S_r (n : nat) (f : nat -> R) :
  big_sum (S n) f = big_sum n f + f n.
Proof.
  revert f. induction n as [|n IH]; intros f.
  - rewrite big_sum_S_l, !big_sum_0. lra.
  - rewrite big_sum_S_l, (IH (fun i => f (S i))), (big_sum_S_l n f). lra.
Qed.

Lemma velocity_after_0 (mu lr reg v g w : R) :
  velocity_after mu lr reg v g w 0 = v.
Proof.
  unfold velocity_after. rewrite big_sum_0, pow_O. lra.
Qed.

Lemma velocity_after_S (mu lr reg v g w : R) (k : nat) :
  velocity_after mu lr reg v g w (S k)
  = mu * velocity_after mu lr reg v g w k + lr * (g - reg * w).
Proof.
  unfold velocity_after. rewrite big_sum_S_l.
  rewrite (big_sum_ext k (fun j => mu ^ S j) (fun j => mu * mu ^ j))
    by reflexivity.
  rewrite big_sum_scal_l, pow_O.
  change (big_sum k (pow mu)) with (big_sum k (fun j => mu ^ j)).
  change (mu ^ S k) with (mu * mu ^ k).
  generalize (mu ^ k) (big_sum k (fun j => mu ^ j)). intros. ring.
Qed.

Lemma velocity_after_shift (mu lr reg v g w : R) (k : nat) :
  velocity_after mu lr reg (mu * v + lr * (g - reg * w)) g w k
  = velocity_after mu lr reg v g w (S k).
Proof.
  unfold velocity_after. rewrite big_sum_S_r.
  change (mu ^ S k) with (mu * mu ^ k).
  generalize (mu ^ k) (big_sum k (fun j => mu ^ j)). intros. ring.
Qed.

(** One call without clipping, in any state of the optimizer. *)
Lemma momentum_noclip_step (self : MomentumOptimizer.t) (mlp : MLP)
    (i : nat) (dJdW_i dJdb_i : loc) (grad_max : R) (h : heap)
    (lW lb lvW lvb : loc) (gW Wv vW : matrix) (gb bv vb : vec) :
  MomentumOptimizer.clip_thresh self = ThreshInf ->
  W mlp !! i = Some lW -> b mlp !! i = Some lb ->
  MomentumOptimizer.vW_ self !! i = Some lvW ->
  MomentumOptimizer.vb_ self !! i = Some lvb ->
  mats h !! dJdW_i = Some gW -> vecs h !! dJdb_i = Some gb ->
  mats h !! lW = Some Wv -> vecs h !! lb = Some bv ->
  mats h !! lvW = Some vW -> vecs h !! lvb = Some vb ->
  same_shape gW Wv -> same_shape vW gW ->
  length gb = length bv -> length vb = length gb ->
  concat gW <> [] ->
  let lr := MomentumOptimizer.lr self in
  let mu := MomentumOptimizer.mu self in
  let reg := MomentumOptimizer.reg self in
  exists w_update b_update grad_max' self' h',
    MomentumOptimizer.layer_update self mlp i dJdW_i dJdb_i grad_max h
      = Ok (w_update, b_update, grad_max', self', h') /\
    mats h' !! w_update
      = Some (zip_with (zip_with Rplus) (scale_mat mu vW)
                (scale_mat lr (zip_with (zip_with Rminus) gW (scale_mat reg Wv)))) /\
    vecs h' !! b_update
      = Some (zip_with Rplus (scale_vec mu vb)
                (scale_vec lr (zip_with Rminus gb (scale_vec reg bv)))) /\
    (forall l, (l < length (mats h))%nat -> mats h' !! l = mats h !! l) /\
    (forall l, (l < length (vecs h))%nat -> vecs h' !! l = vecs h !! l) /\
    MomentumOptimizer.lr self' = lr /\
    MomentumOptimizer.mu self' = mu /\
    MomentumOptimizer.reg self' = reg /\
    MomentumOptimizer.clip_thresh self' = ThreshInf /\
    MomentumOptimizer.vW_ self' !! i = Some w_update /\
    MomentumOptimizer.vb_ self' !! i = Some b_update.
Proof.
  intros Hclip HW Hb HvW Hvb HgW Hgb HWv Hbv HvWv Hvbv SW SvW Sb Svb Hne
         lr mu reg.
  destruct (update_grad_max_total grad_max gW Hne) as (grad_max' & Hgm).
  eexists _, _, grad_max', _, _. split.
  { eapply momentum_layer_update_noclip; eassumption. }
  rewrite Hclip. simpl. repeat split.
  - apply list_lookup_middle. reflexivity.
  - apply list_lookup_middle. reflexivity.
  - intros l Hl. apply lookup_app_l. assumption.
  - intros l Hl. apply lookup_app_l. assumption.
  - apply list_lookup_insert_eq. eapply lookup_lt_Some; eauto.
  - apply list_lookup_insert_eq. eapply lookup_lt_Some; eauto.
Qed.

Lemma entry_scale_mat (k : R) (m : matrix) (r c : nat) :
  entry (scale_mat k m) r c = option_map (Rmult k) (entry m r c).
Proof. unfold scale_mat, scale_vec. apply entry_map. Qed.

Lemma lookup_scale_vec (k : R) (v : vec) (i : nat) :
  scale_vec k v !! i = option_map (Rmult k) (v !! i).
Proof. unfold scale_vec. apply lookup_map. Qed.

(** The entries of the arrays that one call without clipping computes. *)
Lemma momentum_entry (mu lr reg : R) (gW Wv vW : matrix) (r c : nat) (g : R) :
  same_shape gW Wv -> same_shape vW gW ->
  entry gW r c = Some g ->
  exists w v,
    entry Wv r c = Some w /\ entry vW r c = Some v /\
    entry (zip_with (zip_with Rplus) (scale_mat mu vW)
             (scale_mat lr (zip_with (zip_with Rminus) gW (scale_mat reg Wv))))
          r c
    = Some (mu * v + lr * (g - reg * w)).
Proof.
  intros SW SvW Hg.
  destruct (entry_zip_with_same Rplus Wv gW r c g (same_shape_sym _ _ SW) Hg)
    as (w & Hw & _).
  destruct (entry_zip_with_same Rplus vW gW r c g SvW Hg) as (v & Hv & _).
  exists w, v. split; [assumption|]. split; [assumption|].
  assert (SgW : same_shape gW (scale_mat reg Wv)).
  { apply same_shape_sym, same_shape_scale_mat, same_shape_sym, SW. }
  destruct (entry_zip_with_same Rminus gW (scale_mat reg Wv) r c (reg * w) SgW)
    as (g' & Hg' & HD).
  { rewrite entry_scale_mat, Hw. reflexivity. }
  rewrite Hg in Hg'. inversion Hg'; subst g'.
  destruct (entry_zip_with_same Rplus (scale_mat mu vW)
              (scale_mat lr (zip_with (zip_with Rminus) gW (scale_mat reg Wv)))
              r c (lr * (g - reg * w)))
    as (v' & Hv' & HR).
  { apply same_shape_scale_mat, same_shape_sym, same_shape_scale_mat.
    apply same_shape_sym. eapply same_shape_trans; [exact SvW|].
    apply same_shape_zip_with, SgW. }
  { rewrite entry_scale_mat, HD. reflexivity. }
  rewrite entry_scale_mat, Hv in Hv'.
  simpl in Hv'. inversion Hv'; subst v'. exact HR.
Qed.

Lemma momentum_entry_vec (mu lr reg : R) (gb bv vb : vec) (k : nat) (g : R) :
  length gb = length bv -> length vb = length gb ->
  gb !! k = Some g ->
  exists w v,
    bv !! k = Some w /\ vb !! k = Some v /\
    zip_with Rplus (scale_vec mu vb)
      (scale_vec lr (zip_with Rminus gb (scale_vec reg bv))) !! k
    = Some (mu * v + lr * (g - reg * w)).
Proof.
  intros Sb Svb Hg.
  destruct (lookup_zip_with_same Rplus bv gb k g (eq_sym Sb) Hg) as (w & Hw & _).
  destruct (lookup_zip_with_same Rplus vb gb k g Svb Hg) as (v & Hv & _).
  exists w, v. split; [assumption|]. split; [assumption|].
  destruct (lookup_zip_with_same Rminus gb (scale_vec reg bv) k (reg * w))
    as (g' & Hg' & HD).
  { unfold scale_vec. rewrite length_map. exact Sb. }
  { rewrite lookup_scale_vec, Hw. reflexivity. }
  rewrite Hg in Hg'. inversion Hg'; subst g'.
  destruct (lookup_zip_with_same Rplus (scale_vec mu vb)
              (scale_vec lr (zip_with Rminus gb (scale_vec reg bv)))
              k (lr * (g - reg * w)))
    as (v' & Hv' & HR).
  { unfold scale_vec. rewrite !length_map, length_zip_with, length_map. lia. }
  { rewrite lookup_scale_vec, HD. reflexivity. }
  rewrite lookup_scale_vec, Hv in Hv'.
  simpl in Hv'. inversion Hv'; subst v'. exact HR.
Qed.

(** X21.  A momentum optimizer without clipping, in any state, is called
    again and again on a layer with the same gradient arrays, shaped like
    the layer's weights, biases and velocities, while the weights stay as
    they are.  Every call returns, and at the call that follows [n] others
    the update of an entry with gradient [g], weight [w] and first velocity
    [v] is [mu^(n+1) * v + lr * (g - reg*w) * (1 + mu + ... + mu^n)]: past
    gradients are weighted by the powers of [mu]. *)
Theorem momentum_velocity_accumulates (n : nat) (self : MomentumOptimizer.t)
    (mlp : MLP) (i : nat) (dJdW_i dJdb_i : loc) (grad_max : R) (h : heap)
    (lW lb lvW lvb : loc) (gW Wv vW : matrix) (gb bv vb : vec) :
  MomentumOptimizer.clip_thresh self = ThreshInf ->
  W mlp !! i = Some lW -> b mlp !! i = Some lb ->
  MomentumOptimizer.vW_ self !! i = Some lvW ->
  MomentumOptimizer.vb_ self !! i = Some lvb ->
  mats h !! dJdW_i = Some gW -> vecs h !! dJdb_i = Some gb ->
  mats h !! lW = Some Wv -> vecs h !! lb = Some bv ->
  mats h !! lvW = Some vW -> vecs h !! lvb = Some vb ->
  same_shape gW Wv -> same_shape vW gW ->
  length gb = length bv -> length vb = length gb ->
  concat gW <> [] ->
  let lr := MomentumOptimizer.lr self in
  let mu := MomentumOptimizer.mu self in
  let reg := MomentumOptimizer.reg self in
  exists w_update b_update grad_max' self' h' uW ub,
    momentum_repeat n self mlp i dJdW_i dJdb_i grad_max h
      = Ok (w_update, b_update, grad_max', self', h') /\
    mats h' !! w_update = Some uW /\
    vecs h' !! b_update = Some ub /\
    (forall r c g, entry gW r c = Some g ->
       exists w v,
         entry Wv r c = Some w /\ entry vW r c = Some v /\
         entry uW r c
         = Some (mu ^ S n * v
                 + lr * (g - reg * w) * big_sum (S n) (fun j => mu ^ j))) /\
    (forall k g, gb !! k = Some g ->
       exists w v,
         bv !! k = Some w /\ vb !! k = Some v /\
         ub !! k
         = Some (mu ^ S n * v
                 + lr * (g - reg * w) * big_sum (S n) (fun j => mu ^ j))).
Proof.
  intros Hclip HW Hb HvW Hvb HgW Hgb HWv Hbv HvWv Hvbv SW SvW Sb Svb Hne
         lr mu reg.
  fold (velocity_after mu lr reg).
  change (exists w_update b_update grad_max' self' h' uW ub,
    momentum_repeat n self mlp i dJdW_i dJdb_i grad_max h
      = Ok (w_update, b_update, grad_max', self', h') /\
    mats h' !! w_update = Some uW /\
    vecs h' !! b_update = Some ub /\
    (forall r c g, entry gW r c = Some g ->
       exists w v,
         entry Wv r c = Some w /\ entry vW r c = Some v /\
         entry uW r c = Some (velocity_after mu lr reg v g w (S n))) /\
    (forall k g, gb !! k = Some g ->
       exists w v,
         bv !! k = Some w /\ vb !! k = Some v /\
         ub !! k = Some (velocity_after mu lr reg v g w (S n)))).
  subst lr mu reg.
  revert self grad_max h lvW lvb vW vb Hclip HvW Hvb HgW Hgb HWv Hbv HvWv Hvbv
         SvW Svb.
  induction n as [|n IH];
    intros self grad_max h lvW lvb vW vb Hclip HvW Hvb HgW Hgb HWv Hbv HvWv Hvbv
           SvW Svb;
    destruct (momentum_noclip_step self mlp i dJdW_i dJdb_i grad_max h
                lW lb lvW lvb gW Wv vW gb bv vb)
      as (w1 & b1 & gm1 & self1 & h1 & Hcall & Hw & Hbu & HfW & Hfb
          & Hlr & Hmu & Hreg & Hclip1 & HvW1 & Hvb1); try assumption.
  - eexists w1, b1, gm1, self1, h1, _, _. simpl.
    split; [exact Hcall|]. split; [exact Hw|]. split; [exact Hbu|].
    split.
    + intros r c g Hg.
      destruct (momentum_entry (MomentumOptimizer.mu self)
                  (MomentumOptimizer.lr self) (MomentumOptimizer.reg self)
                  gW Wv vW r c g SW SvW Hg) as (w & v & H1 & H2 & H3).
      exists w, v. rewrite velocity_after_S, velocity_after_0. auto.
    + intros k g Hg.
      destruct (momentum_entry_vec (MomentumOptimizer.mu self)
                  (MomentumOptimizer.lr self) (MomentumOptimizer.reg self)
                  gb bv vb k g Sb Svb Hg) as (w & v & H1 & H2 & H3).
      exists w, v. rewrite velocity_after_S, velocity_after_0. auto.
  - simpl. rewrite Hcall. simpl.
    assert (SgW : same_shape gW (scale_mat (MomentumOptimizer.reg self) Wv)).
    { apply same_shape_sym, same_shape_scale_mat, same_shape_sym, SW. }
    destruct (IH self1 gm1 h1 w1 b1
                (zip_with (zip_with Rplus)
                   (scale_mat (MomentumOptimizer.mu self) vW)
                   (scale_mat (MomentumOptimizer.lr self)
                      (zip_with (zip_with Rminus) gW
                         (scale_mat (MomentumOptimizer.reg self) Wv))))
                (zip_with Rplus
                   (scale_vec (MomentumOptimizer.mu self) vb)
                   (scale_vec (MomentumOptimizer.lr self)
                      (zip_with Rminus gb
                         (scale_vec (MomentumOptimizer.reg self) bv))))
                Hclip1 HvW1 Hvb1)
      as (w2 & b2 & gm2 & self2 & h2 & uW & ub & Hcall2 & HuW & Hub & HeW & Heb);
      try assumption.
    { rewrite HfW by (eapply lookup_lt_Some; eauto). assumption. }
    { rewrite Hfb by (eapply lookup_lt_Some; eauto). assumption. }
    { rewrite HfW by (eapply lookup_lt_Some; eauto). assumption. }
    { rewrite Hfb by (eapply lookup_lt_Some; eauto). assumption. }
    { apply same_shape_sym. eapply same_shape_trans.
      - apply same_shape_sym, same_shape_scale_mat, SvW.
      - apply same_shape_zip_with.
        apply same_shape_scale_mat, same_shape_sym, same_shape_scale_mat.
        apply same_shape_sym. eapply same_shape_trans; [exact SvW|].
        apply same_shape_zip_with, SgW. }
    { unfold scale_vec. rewrite length_zip_with, !length_map, length_zip_with,
        length_map. lia. }
    exists w2, b2, gm2, self2, h2, uW, ub.
    split; [exact Hcall2|]. split; [exact HuW|]. split; [exact Hub|].
    rewrite Hlr, Hmu, Hreg in *.
    split.
    + intros r c g Hg.
      destruct (HeW r c g Hg) as (w & v1 & H1 & H2 & H3).
      destruct (momentum_entry (MomentumOptimizer.mu self)
                  (MomentumOptimizer.lr self) (MomentumOptimizer.reg self)
                  gW Wv vW r c g SW SvW Hg) as (w' & v & H1' & H2' & H3').
      rewrite H1 in H1'. inversion H1'; subst w'.
      rewrite H3' in H2. inversion H2; subst v1.
      exists w, v. rewrite <- velocity_after_shift. auto.
    + intros k g Hg.
      destruct (Heb k g Hg) as (w & v1 & H1 & H2 & H3).
      destruct (momentum_entry_vec (MomentumOptimizer.mu self)
                  (MomentumOptimizer.lr self) (MomentumOptimizer.reg self)
                  gb bv vb k g Sb Svb Hg) as (w' & v & H1' & H2' & H3').
      rewrite H1 in H1'. inversion H1'; subst w'.
      rewrite H3' in H2. inversion H2; subst v1.
      exists w, v. rewrite <- velocity_after_shift. auto.
Qed.

Lemma momentum_velocity_accumulates_witness :
  exists w_update b_update grad_max' self' h' uW,
    momentum_repeat 1 (ex_momentum (/ 2) (/ 2) 0 ThreshInf) ex_mlp 0 2 2 0
      (ex_heap [[3; -4]] [7])
      = Ok (w_update, b_update, grad_max', self', h') /\
    mats h' !! w_update = Some uW /\
    entry uW 0 0
    = Some ((/ 2) ^ 2 * 0 + / 2 * (3 - 0 * 0) * big_sum 2 (fun j => (/ 2) ^ j)).
Proof.
  destruct (momentum_velocity_accumulates 1
              (ex_momentum (/ 2) (/ 2) 0 ThreshInf) ex_mlp 0 2 2 0
              (ex_heap [[3; -4]] [7]) 0 0 1 1
              [[3; -4]] [[0; 0]] [[0; 0]] [7] [0] [0])
    as (w & bu & gm & self' & h' & uW & ub & Hcall & HuW & Hub & HeW & Heb);
    try reflexivity.
  - repeat constructor.
  - repeat constructor.
  - simpl. discriminate.
  - destruct (HeW 0%nat 0%nat 3 eq_refl) as (w0 & v0 & Hw0 & Hv0 & Hu).
    inversion Hw0; inversion Hv0; subst.
    exists w, bu, gm, self', h', uW.
    split; [exact Hcall|]. split; [exact HuW | exact Hu].
Defined.

(** ** The size of the AdaGrad updates *)




(** ** The loss with any kernel *)

Lemma nth_map_Ropp (y : vec) (i : nat) : nth i (map Ropp y) 0 = - nth i y 0.
Proof.
  revert i. induction y as [|a y IH]; intros [|i]; simpl; try lra. apply IH.
Qed.

Lemma dual_objective_opp (K : vec -> vec -> R) (alphas : vec) (X : matrix)
    (y : vec) :
  dual_objective K alphas X (map Ropp y) = dual_objective K alphas X y.
Proof.
  unfold dual_objective. f_equal. f_equal.
  apply big_sum_ext. intros i _. apply big_sum_ext. intros j _.
  rewrite !nth_map_Ropp. ring.
Qed.

Lemma loss_any_kernel (self : SVM) (K : vec -> vec -> R) (alphas : vec)
    (X : matrix) (y : vec) :
  length alphas = length X -> length y = length X ->
  (forall xi xj, In xi X -> In xj X ->
     kernel_transform (kernel self) xi xj = Ok (K xi xj)) ->
  _loss self alphas X y = Ok (-1 * dual_objective K alphas X y).
Proof.
  intros Hla Hly HK. unfold _loss, enumerate.
  rewrite (foldM_enumerate_sum _
             (fun i xi => big_sum (length X) (fun j =>
                nth i alphas 0 * nth j alphas 0 * nth i y 0 * nth j y 0
                * K xi (nth j X []))) []).
  - simpl. f_equal. unfold dual_objective.
    rewrite np_sum_big_sum, Hla. lra.
  - intros k x acc' Hk. simpl.
    assert (Hlt : (k < length X)%nat) by (eapply lookup_lt_Some; eauto).
    rewrite (index_nth alphas k 0) by lia. simpl.
    rewrite (index_nth y k 0) by lia. simpl.
    rewrite (foldM_enumerate_sum _
               (fun j xj => nth k alphas 0 * nth j alphas 0 * nth k y 0
                            * nth j y 0 * K x xj) []).
    + reflexivity.
    + intros j xj acc'' Hj. simpl.
      assert (Hjlt : (j < length X)%nat) by (eapply lookup_lt_Some; eauto).
      rewrite (index_nth alphas j 0) by lia. simpl.
      rewrite (index_nth y j 0) by lia. simpl.
      rewrite HK; [reflexivity | |];
        apply list_elem_of_In; eapply list_elem_of_lookup_2; eauto.
Qed.

(** X23.  With any kernel that returns [K] on the rows of the input, and
    dual variables and labels of the input's length, the doubly-nested loss
    returns the negated dual objective
    [-(sum_i alpha_i - 0.5 * sum_{i,j} alpha_i*alpha_j*y_i*y_j*K(x_i,x_j))];
    it returns the same number when every label changes its sign. *)
Theorem loss_is_negated_dual_objective (self : SVM) (K : vec -> vec -> R)
    (alphas : vec) (X : matrix) (y : vec) :
  length alphas = length X -> length y = length X ->
  (forall xi xj, In xi X -> In xj X ->
     kernel_transform (kernel self) xi xj = Ok (K xi xj)) ->
  _loss self alphas X y = Ok (- dual_objective K alphas X y) /\
  _loss self alphas X (map Ropp y) = _loss self alphas X y.
Proof.
  intros Hla Hly HK.
  rewrite (loss_any_kernel self K alphas X y Hla Hly HK).
  rewrite (loss_any_kernel self K alphas X (map Ropp y) Hla)
    by (rewrite ?length_map; assumption).
  rewrite dual_objective_opp. split; [f_equal; lra | reflexivity].
Qed.

Lemma loss_is_negated_dual_objective_witness :
  _loss (ex_svm (PolynomialKernel (PyInt 2))) [1; 2] ex_X ex_y
  = Ok (- dual_objective (fun xi xj => (1 + inner xi xj) ^ 2) [1; 2] ex_X ex_y) /\
  _loss (ex_svm (PolynomialKernel (PyInt 2))) [1; 2] ex_X (map Ropp ex_y)
  = _loss (ex_svm (PolynomialKernel (PyInt 2))) [1; 2] ex_X ex_y.
Proof.
  apply (loss_is_negated_dual_objective (ex_svm (PolynomialKernel (PyInt 2)))
           (fun xi xj => (1 + inner xi xj) ^ 2) [1; 2] ex_X ex_y);
    try reflexivity.
  intros xi xj [<-|[<-|[]]] [<-|[<-|[]]];
    unfold kernel_transform, ex_svm; cbn [kernel transform];
    rewrite dot_inner by reflexivity; reflexivity.
Defined.
